(** * ThermoScale: the thermal performance engine of [src/App.jsx]

    The engine is the [physics] memo of the [App] component: a pure
    recomputation from the configuration record and the selected material.
    JavaScript numbers are IEEE 754 binary64 values, so they are embedded as
    Rocq's primitive [float]s, whose [+ - * /] and comparisons are the same
    correctly rounded operations.  [Math.log] and the exponent form of
    [Number::toString] are implementation-defined in ECMAScript; the engine
    takes them from its host, and so does the embedding. *)

From Stdlib Require Import ZArith NArith List String Ascii Bool Lia.
From Stdlib Require Import DecimalString DecimalN.
From Stdlib Require Import Floats.
Import ListNotations.

Set Warnings "-inexact-float".
Local Open Scope float_scope.

(** ** Completions: a callback either returns or throws *)

Inductive JSError : Type :=
| RangeError.

Inductive completion (A : Type) : Type :=
| Normal (a : A)
| Throw (e : JSError).
Arguments Normal {A} a.
Arguments Throw {A} e.

Definition bind {A B : Type} (c : completion A) (f : A -> completion B)
  : completion B :=
  match c with
  | Normal a => f a
  | Throw e => Throw e
  end.

Notation "x <- c ;; k" := (bind c (fun x => k))
  (at level 61, c at next level, right associativity).

(** ** The fragment of ECMAScript the engine runs on *)

Module JS.

(** [ToBoolean] on a Number: [+0], [-0] and [NaN] are falsy. *)
Definition ToBoolean (x : float) : bool :=
  negb (PrimFloat.is_zero x || PrimFloat.is_nan x).

(** [x || y] on Numbers. *)
Definition or (x y : float) : float :=
  if ToBoolean x then x else y.

(** An array index as a Number. *)
Definition of_index (i : nat) : float :=
  PrimFloat.of_uint63 (Uint63.of_Z (Z.of_nat i)).

(** [Array.from({ length: len }, (_, i) => f i)]: the callback runs for
    [i = 0 .. len - 1] in order; the first throw aborts the construction. *)
Fixpoint from_indices {A : Type} (f : nat -> completion A) (idx : list nat)
  : completion (list A) :=
  match idx with
  | [] => Normal []
  | i :: rest =>
      a <- f i ;;
      l <- from_indices f rest ;;
      Normal (a :: l)
  end.

Definition Array_from {A : Type} (len : nat) (f : nat -> completion A)
  : completion (list A) :=
  from_indices f (seq 0 len).

(** *** [Number.prototype.toFixed] *)

(** The exact magnitude of a finite binary64 value is [m * 2^e]. *)
Definition pow2 (e : Z) : Z := Z.pow 2 e.
Definition pow10 (f : nat) : Z := Z.pow 10 (Z.of_nat f).

(** [magnitude_ge m e b]: [m * 2^e >= b], on integers. *)
Definition magnitude_ge (m : positive) (e : Z) (b : Z) : bool :=
  if (0 <=? e)%Z then (b <=? Z.pos m * pow2 e)%Z
  else (b * pow2 (- e) <=? Z.pos m)%Z.

(** The integer [n] for which [n / 10^f - m * 2^e] is as close to zero as
    possible, the larger one of two. *)
Definition nearest_scaled (m : positive) (e : Z) (f : nat) : Z :=
  if (0 <=? e)%Z then Z.pos m * pow2 e * pow10 f
  else (2 * Z.pos m * pow10 f + pow2 (- e)) / (2 * pow2 (- e)).

Definition digits_of (n : Z) : string :=
  NilZero.string_of_uint (N.to_uint (Z.to_N n)).

Fixpoint zeros (k : nat) : string :=
  match k with
  | O => EmptyString
  | S k' => String "0" (zeros k')
  end.

(** Steps 11.c - 11.d of the algorithm: pad to [f + 1] digits and put the
    point before the last [f]. *)
Definition place_point (m : string) (f : nat) : string :=
  match f with
  | O => m
  | S _ =>
      let m' := (zeros (S f - String.length m) ++ m)%string in
      let k := String.length m' in
      (substring 0 (k - f) m' ++ "." ++ substring (k - f) f m')%string
  end.

Section Formatting.

(** [Number::toString] of a finite value of magnitude at least [10^21]
    (the exponent form, whose last digit the standard leaves to the
    implementation). *)
Variable Number_toString : float -> string.

(** Steps 6 - 12: the string of a call whose digit count is in range. *)
Definition toFixed_string (x : float) (fractionDigits : nat) : string :=
  match Prim2SF x with
  | S754_nan => "NaN"
  | S754_infinity false => "Infinity"
  | S754_infinity true => "-Infinity"
  | S754_zero _ => place_point "0" fractionDigits
  | S754_finite s m e =>
      let sign := if s then "-"%string else EmptyString in
      if magnitude_ge m e (Z.pow 10 21)
      then (sign ++ Number_toString (abs x))%string
      else (sign ++ place_point
                      (digits_of (nearest_scaled m e fractionDigits))
                      fractionDigits)%string
  end.

(** Step 5 throws when the digit count is above 100. *)
Definition toFixed (x : float) (fractionDigits : nat) : completion string :=
  if (100 <? fractionDigits)%nat then Throw RangeError
  else Normal (toFixed_string x fractionDigits).

End Formatting.


(** *** Reading a decimal numeral

    The mathematical value of a numeral [[-]digits.digits], as
    [StringToNumber] takes it before rounding: the integer [n] its digits
    spell once the point is dropped, and the number [k] of digits after the
    point, for the value [n / 10^k]. *)




(** [ToNumber] on a prop that may be [undefined]: arithmetic and comparisons
    read [undefined] as [NaN]. *)
Definition ToNumber (v : option float) : float :=
  match v with
  | Some n => n
  | None => nan
  end.

End JS.

(** ** The data of the component *)

Module App.

(** The keys of [Models], the options of the UNIT MODEL select. *)
Inductive Model : Type :=
| DoublePipe | ShellTube | Plate | Finned | Spiral.

Record Config : Type := mkConfig {
  model : Model;
  tempIn : float;
  flow : float;
  length : float;
  radius : float;
  areaOverride : float;
  fouling : float
}.

Record Material : Type := mkMaterial {
  name : string;
  k : float;
  color : string
}.

(** One point of the chart data. *)
Record Sample : Type := mkSample {
  dist : nat;
  Hot : string;
  Cold : string
}.

(** What the memo returns: [{ Q, LMTD, U, data, Efficiency }]. *)
Record Physics : Type := mkPhysics {
  Q : float;
  LMTD : float;
  U : float;
  data : list Sample;
  Efficiency : float
}.

(** [useState({ model: 'ShellTube', tempIn: 90, ... })] *)
Definition initialConfig : Config :=
  {| model := ShellTube; tempIn := 90; flow := 25; length := 8;
     radius := 0.3; areaOverride := 15; fouling := 0.0005 |}.

Definition materials : list Material :=
  [ {| name := "Copper"; k := 401; color := "#b87333" |};
    {| name := "Silver"; k := 429; color := "#e5e7eb" |};
    {| name := "Steel"; k := 50; color := "#94a3b8" |};
    {| name := "Graphite"; k := 140; color := "#334155" |};
    {| name := "Glass"; k := 1.1; color := "#a5f3fc" |};
    {| name := "PVC"; k := 0.19; color := "#f1f5f9" |} ].

(** [useState(materials[0])] *)
Definition initialMat : Material :=
  {| name := "Copper"; k := 401; color := "#b87333" |}.

(** *** The configuration store: the three [setConfig] call sites *)

(** [setConfig({ ...config, model: e.target.value })] *)
Definition setModel (config : Config) (v : Model) : Config :=
  {| model := v; tempIn := tempIn config; flow := flow config;
     length := length config; radius := radius config;
     areaOverride := areaOverride config; fouling := fouling config |}.

(** The keys of the range inputs. *)
Inductive Key : Type :=
| KtempIn | Kflow | KareaOverride | Kfouling | Klength | Kradius.

(** [setConfig({ ...config, [item.key]: Number(e.target.value) })] *)
Definition setKey (config : Config) (key : Key) (v : float) : Config :=
  match key with
  | KtempIn =>
      {| model := model config; tempIn := v; flow := flow config;
         length := length config; radius := radius config;
         areaOverride := areaOverride config; fouling := fouling config |}
  | Kflow =>
      {| model := model config; tempIn := tempIn config; flow := v;
         length := length config; radius := radius config;
         areaOverride := areaOverride config; fouling := fouling config |}
  | KareaOverride =>
      {| model := model config; tempIn := tempIn config; flow := flow config;
         length := length config; radius := radius config;
         areaOverride := v; fouling := fouling config |}
  | Kfouling =>
      {| model := model config; tempIn := tempIn config; flow := flow config;
         length := length config; radius := radius config;
         areaOverride := areaOverride config; fouling := v |}
  | Klength =>
      {| model := model config; tempIn := tempIn config; flow := flow config;
         length := v; radius := radius config;
         areaOverride := areaOverride config; fouling := fouling config |}
  | Kradius =>
      {| model := model config; tempIn := tempIn config; flow := flow config;
         length := length config; radius := v;
         areaOverride := areaOverride config; fouling := fouling config |}
  end.

(** The CLEAN SYSTEM button: [setConfig({...config, fouling: 0})] *)
Definition cleanSystem (config : Config) : Config :=
  {| model := model config; tempIn := tempIn config; flow := flow config;
     length := length config; radius := radius config;
     areaOverride := areaOverride config; fouling := 0 |}.

(** *** The engine *)

Section Engine.

Variable Math_log : float -> float.
Variable Number_toString : float -> string.

Definition physics (config : Config) (mat : Material) : completion Physics :=
  let cleanU := (k mat / 0.05) * (flow config / 50) in
  let U := 1 / ((1 / cleanU) + fouling config) in
  let Efficiency := (U / cleanU) * 100 in
  let LMTD :=
    (tempIn config - 40) / Math_log (JS.or ((tempIn config - 25) / 15) 1.1) in
  let Q := (U * areaOverride config * LMTD) / 1000 in
  data <- JS.Array_from 11 (fun i =>
            hot <- JS.toFixed Number_toString
                     (tempIn config - (JS.of_index i * (Q / 15))) 1 ;;
            cold <- JS.toFixed Number_toString
                      (25 + (JS.of_index i * (Q / 25))) 1 ;;
            Normal {| dist := i; Hot := hot; Cold := cold |}) ;;
  Normal {| Q := Q; LMTD := LMTD; U := U; data := data;
            Efficiency := Efficiency |}.

(** The locals of the memo as functions of its two dependencies, for
    stating what [physics] returns ([cleanU] is not part of the result). *)
Definition cleanU (config : Config) (mat : Material) : float :=
  (k mat / 0.05) * (flow config / 50).

Definition U_of (config : Config) (mat : Material) : float :=
  1 / ((1 / cleanU config mat) + fouling config).

Definition Efficiency_of (config : Config) (mat : Material) : float :=
  (U_of config mat / cleanU config mat) * 100.

(** The argument [Math.log] is called on. *)
Definition log_argument (config : Config) : float :=
  JS.or ((tempIn config - 25) / 15) 1.1.

Definition LMTD_of (config : Config) : float :=
  (tempIn config - 40) / Math_log (log_argument config).

Definition Q_of (config : Config) (mat : Material) : float :=
  (U_of config mat * areaOverride config * LMTD_of config) / 1000.

(** The Numbers the two [toFixed(1)] calls of sample [i] format. *)
Definition hotAt (config : Config) (q : float) (i : nat) : float :=
  tempIn config - (JS.of_index i * (q / 15)).

Definition coldAt (q : float) (i : nat) : float :=
  25 + (JS.of_index i * (q / 25)).

Definition sampleAt (config : Config) (q : float) (i : nat) : Sample :=
  {| dist := i;
     Hot := JS.toFixed_string Number_toString (hotAt config q i) 1;
     Cold := JS.toFixed_string Number_toString (coldAt q i) 1 |}.

End Engine.

(** *** The positions of the range inputs

    An [<input type="range">] with bounds [min], [max] and step [1/den]
    reports the decimal strings of [j/den]; [Number(...)] reads each as the
    nearest binary64 value, which is the correctly rounded quotient. *)
Definition slider (first count : nat) (den : float) : list float :=
  map (fun j => JS.of_index j / den) (seq first count).

Definition tempIn_positions : list float := slider 40 111 1.
Definition flow_positions : list float := slider 5 96 1.
Definition areaOverride_positions : list float := slider 1 50 1.
Definition fouling_positions : list float := slider 0 101 10000.

(** A configuration the configurator can produce, with a catalog material. *)
Record OnSliders (config : Config) (mat : Material) : Prop := mkOnSliders {
  on_materials : In mat materials;
  on_tempIn : In (tempIn config) tempIn_positions;
  on_flow : In (flow config) flow_positions;
  on_areaOverride : In (areaOverride config) areaOverride_positions;
  on_fouling : In (fouling config) fouling_positions
}.

(** Exhaustive checks over the positions that decide the coefficients. *)
Definition on_coefficient_grid (check : float -> float -> float -> bool) : bool :=
  forallb (fun mat =>
    forallb (fun fl =>
      forallb (fun fo => check (k mat) fl fo) fouling_positions)
      flow_positions)
    materials.

Definition check_U (kk fl fo : float) : bool :=
  let cu := (kk / 0.05) * (fl / 50) in
  let u := 1 / ((1 / cu) + fo) in
  implb (0 <? fo) (u <? cu)
  && implb (fo =? 0)
       ((u =? cu) || (u =? next_up cu) || (u =? next_down cu)).

Definition check_Efficiency (kk fl fo : float) : bool :=
  let cu := (kk / 0.05) * (fl / 50) in
  let u := 1 / ((1 / cu) + fo) in
  let eff := (u / cu) * 100 in
  implb (0 <? fo) ((0 <? eff) && (eff <? 100))
  && implb (fo =? 0)
       ((eff =? 100) || (eff =? 99.99999999999999)
        || (eff =? 100.00000000000003)).

(** *** What the page reads back and forwards *)

(** [config[item.key]]: the value a range input and its label show. *)
Definition getKey (config : Config) (key : Key) : float :=
  match key with
  | KtempIn => tempIn config
  | Kflow => flow config
  | KareaOverride => areaOverride config
  | Kfouling => fouling config
  | Klength => length config
  | Kradius => radius config
  end.

Definition Key_eqb (a b : Key) : bool :=
  match a, b with
  | KtempIn, KtempIn | Kflow, Kflow | KareaOverride, KareaOverride
  | Kfouling, Kfouling | Klength, Klength | Kradius, Kradius => true
  | _, _ => false
  end.

(** The two geometry inputs: [min: 2, max: 12] and
    [min: 0.1, max: 0.6, step: 0.05], the latter at 0.10, 0.15, ..., 0.60. *)
Definition length_positions : list float := slider 2 11 1.

Definition radius_positions : list float :=
  map (fun j => JS.of_index (10 + 5 * j) / 100) (seq 0 11).

Definition positions (key : Key) : list float :=
  match key with
  | KtempIn => tempIn_positions
  | Kflow => flow_positions
  | KareaOverride => areaOverride_positions
  | Kfouling => fouling_positions
  | Klength => length_positions
  | Kradius => radius_positions
  end.

(** The events of the page that call [setConfig]. *)
Inductive Event : Type :=
| SelectModel (v : Model)
| Slide (key : Key) (v : float)
| CleanSystem.

Definition handle (config : Config) (ev : Event) : Config :=
  match ev with
  | SelectModel v => setModel config v
  | Slide key v => setKey config key v
  | CleanSystem => cleanSystem config
  end.

(** A range input reports one of its own positions. *)
Definition possible (ev : Event) : Prop :=
  match ev with
  | Slide key v => In v (positions key)
  | _ => True
  end.

(** The configuration after a sequence of events on the freshly mounted
    page. *)
Definition run (evs : list Event) : Config :=
  fold_left handle evs initialConfig.

(** The props [App] computes for the model component:
    [speed: config.flow / 500 + 0.02] and
    [areaScale: config.areaOverride / 15]. *)
Definition speed (config : Config) : float := flow config / 500 + 0.02.

Definition areaScale (config : Config) : float := areaOverride config / 15.

(** The analytics column. *)
Definition efficiencyColor (p : Physics) : string :=
  if Efficiency p <? 80 then "#f87171" else "#4ade80".

Section Readouts.

Variable Number_toString : float -> string.

(** [config.fouling.toFixed(4)] *)
Definition foulingLabel (config : Config) : completion string :=
  JS.toFixed Number_toString (fouling config) 4.

(** [physics.Efficiency.toFixed(1)] *)
Definition efficiencyReadout (p : Physics) : completion string :=
  JS.toFixed Number_toString (Efficiency p) 1.

End Readouts.

(** Exhaustive checks over the materials and the flow positions, which
    decide the clean coefficient. *)
Definition on_clean_grid (check : float -> float -> bool) : bool :=
  forallb (fun mat => forallb (fun fl => check (k mat) fl) flow_positions)
          materials.

(** What the fouling argument needs of a clean coefficient. *)
Definition check_clean (kk fl : float) : bool :=
  let cu := (kk / 0.05) * (fl / 50) in
  PrimFloat.is_finite cu && (0 <? cu)
  && PrimFloat.is_finite (1 / cu) && (0 <? 1 / cu)
  && PrimFloat.is_finite (1 / (1 / cu))
  && PrimFloat.is_finite (1 / (1 / cu) / cu).

End App.

(** ** The particle engine *)

Module FlowParticles.

(** [child.position] *)
Record Position : Type := mkPosition {
  x : float;
  y : float;
  z : float
}.

(** The props after their defaults ([count = 12], [isSpiral = false],
    [spiralRadius = 3]); [None] is a prop the caller leaves [undefined]. *)
Record Props : Type := mkProps {
  speed : float;
  color : string;
  position : option (float * float * float);
  radius : float;
  length : option float;
  count : nat;
  isSpiral : bool;
  spiralRadius : float
}.

Definition Math_PI : float := 3.141592653589793.

(** The [position] prop of mesh [i]. *)
Definition initial (props : Props) (i : nat) : Position :=
  {| x := 0;
     y := if isSpiral props then 0
          else (JS.of_index i / JS.of_index (count props))
               * JS.ToNumber (length props)
               - JS.ToNumber (length props) / 2;
     z := 0 |}.

(** [[...Array(count)].map((_, i) => <mesh ... />)] *)
Definition children (props : Props) : list Position :=
  map (initial props) (seq 0 (count props)).

Section Frame.

Variable Math_cos : float -> float.
Variable Math_sin : float -> float.

(** The callback of [forEach] on child [i]. *)
Definition move (props : Props) (elapsedTime : float) (i : nat)
           (child : Position) : Position :=
  if isSpiral props then
    let t := (elapsedTime * speed props * 2)
             + (JS.of_index i * (Math_PI * 2 / JS.of_index (count props))) in
    {| x := Math_cos t * spiralRadius props;
       y := 0;
       z := Math_sin t * spiralRadius props |}
  else
    let y1 := y child + speed props in
    {| x := x child;
       y := if JS.ToNumber (length props) / 2 <? y1
            then (- JS.ToNumber (length props)) / 2
            else y1;
       z := z child |}.

(** One [useFrame] callback on the mounted group. *)
Definition frame (props : Props) (elapsedTime : float)
           (group : list Position) : list Position :=
  map (fun ic => move props elapsedTime (fst ic) (snd ic))
      (combine (seq 0 (List.length group)) group).

(** The group after the frames at the given clock readings. *)
Definition after (props : Props) (times : list float) : list Position :=
  fold_left (fun group t => frame props t group) times (children props).

End Frame.

(** A particle between the two ends of a component of length [len]. *)
Definition in_pipe (len : float) (child : Position) : Prop :=
  ((- len) / 2 <=? y child) = true /\ (y child <=? len / 2) = true.

End FlowParticles.

(** ** The five models *)

Module Models.

Import App.

(** The [FlowParticles] elements each model renders, from the props
    [radius], [length] and [speed] it is given. *)
Definition particles (m : Model) (radius length speed : float)
  : list FlowParticles.Props :=
  match m with
  | DoublePipe =>
      [ FlowParticles.mkProps speed "#f87171" (Some (0, 0, 0)) radius
          (Some length) 12 false 3 ]
  | ShellTube =>
      map (fun _ : nat =>
             FlowParticles.mkProps speed "#f87171" (Some (0, 0, 0))
               (radius * 0.5) (Some length) 12 false 3)
          (seq 0 7)
  | Plate =>
      map (fun i : nat =>
             FlowParticles.mkProps speed
               (if Nat.even i then "#f87171" else "#60a5fa")
               (Some (0, 0, 0.1)) 0.1 (Some length) 12 false 3)
          (seq 0 8)
  | Finned =>
      [ FlowParticles.mkProps speed "#f87171" (Some (0, 0, 0)) radius
          (Some length) 12 false 3 ]
  | Spiral =>
      [ FlowParticles.mkProps speed "#f87171" None 0.2 None 12 true
          (radius * 4);
        FlowParticles.mkProps (speed * 0.8) "#60a5fa" None 0.15 None 12 true
          (radius * 3) ]
  end.

(** The heights of the 15 fins of [Finned] along the tube. *)
Definition fins (length : float) : list float :=
  map (fun i => (JS.of_index i * (length / 15)) - length / 2) (seq 0 15).

(** What [App] renders for a configuration. *)
Definition rendered (config : Config) : list FlowParticles.Props :=
  particles (model config) (App.radius config) (App.length config)
            (App.speed config).

(** The stream of the Double Pipe model on the initial configuration. *)
Definition initialStream : FlowParticles.Props :=
  FlowParticles.mkProps (App.speed initialConfig) "#f87171" (Some (0, 0, 0))
    (App.radius initialConfig) (Some (App.length initialConfig)) 12 false 3.

(** The hot stream of the Spiral model on the initial configuration. *)
Definition initialSpiral : FlowParticles.Props :=
  FlowParticles.mkProps (App.speed initialConfig) "#f87171" None 0.2 None 12
    true (App.radius initialConfig * 4).

End Models.

(** ** A reference host

    The two implementation-defined functions as a browser has them, used to
    run the engine on concrete inputs. *)

Module Host.

(** [Math.log] as V8 and SpiderMonkey compute it: the algorithm of
    fdlibm's [e_log.c], on the same binary64 operations.  The argument is
    written [2^k * (1 + f)] with [sqrt(2)/2 < 1 + f < sqrt(2)], and
    [log (1 + f)] is [2 s + s * R] with [s = f / (2 + f)] and [R] a
    polynomial in [s * s]. *)
Definition ln2_hi : float := 0x1.62e42fee00000p-1.
Definition ln2_lo : float := 0x1.a39ef35793c76p-33.
Definition two54 : float := 0x1p54.
Definition Lg1 : float := 0x1.5555555555593p-1.
Definition Lg2 : float := 0x1.999999997fa04p-2.
Definition Lg3 : float := 0x1.2492494229359p-2.
Definition Lg4 : float := 0x1.c71c51d8e78afp-3.
Definition Lg5 : float := 0x1.7466496cb03dep-3.
Definition Lg6 : float := 0x1.39a09d078c69fp-3.
Definition Lg7 : float := 0x1.2f112df3e5244p-3.

(** [(double) k] for a small integer. *)
Definition of_int (k : Z) : float :=
  if (k <? 0)%Z then - of_uint63 (Uint63.of_Z (- k))
  else of_uint63 (Uint63.of_Z k).

(** The logarithm of the normal number [m * 2^e], [2^52 <= m < 2^53], plus
    [k0 * ln 2]. *)
Definition log_normal (m : positive) (e k0 : Z) : float :=
  (* the top 20 bits of the fraction *)
  let hx := ((Z.pos m - 2 ^ 52) / 2 ^ 32)%Z in
  (* whether the significand is above [sqrt(2)], to be halved *)
  let i := (if 434332 <=? hx then 1 else 0)%Z in
  let k := (e + 52 + k0 + i)%Z in
  let x := SF2Prim (S754_finite false m (- 52 - i)) in
  let f := x - 1 in
  let dk := of_int k in
  if ((2 + hx) mod 2 ^ 20 <? 3)%Z then
    if f =? 0 then
      if (k =? 0)%Z then 0 else dk * ln2_hi + dk * ln2_lo
    else
      let R := f * f * (0.5 - 0.33333333333333333 * f) in
      if (k =? 0)%Z then f - R
      else dk * ln2_hi - ((R - dk * ln2_lo) - f)
  else
    let s := f / (2 + f) in
    let z := s * s in
    let w := z * z in
    let t1 := w * (Lg2 + w * (Lg4 + w * Lg6)) in
    let t2 := z * (Lg1 + w * (Lg3 + w * (Lg5 + w * Lg7))) in
    let R := t2 + t1 in
    if ((398458 <=? hx) && (hx <=? 440401))%Z then
      let hfsq := 0.5 * f * f in
      if (k =? 0)%Z then f - (hfsq - s * (hfsq + R))
      else dk * ln2_hi - ((hfsq - (s * (hfsq + R) + dk * ln2_lo)) - f)
    else
      if (k =? 0)%Z then f - s * (f - R)
      else dk * ln2_hi - ((s * (f - R) - dk * ln2_lo) - f).

(** [Math.log]: NaN and negative arguments give NaN, the zeros give
    -Infinity, +Infinity gives itself, and a subnormal argument is first
    scaled by [2^54]. *)
Definition Math_log (x : float) : float :=
  match Prim2SF x with
  | S754_nan => nan
  | S754_zero _ => neg_infinity
  | S754_infinity false => infinity
  | S754_infinity true => nan
  | S754_finite true _ _ => nan
  | S754_finite false m e =>
      if (2 ^ 52 <=? Z.pos m)%Z then log_normal m e 0
      else
        match Prim2SF (x * two54) with
        | S754_finite _ m' e' => log_normal m' e' (- 54)
        | _ => nan
        end
  end.

(** [accepts m e v]: the integer [v] reads back as the binary64 value
    [m * 2^e] (round to nearest, ties to even), for a normal [m] and
    [e >= 2]. *)
Definition accepts (m : positive) (e : Z) (v : Z) : bool :=
  let n := (Z.pos m * 2 ^ e)%Z in
  let up := (2 ^ (e - 1))%Z in
  let down := (if Z.pos m =? 2 ^ 52 then 2 ^ (e - 2) else 2 ^ (e - 1))%Z in
  if Z.even (Z.pos m)
  then ((n - down <=? v) && (v <=? n + up))%Z
  else ((n - down <? v) && (v <? n + up))%Z.

(** The fewest decimal digits: the least [k] (tried from [k] on) with a
    [k]-digit [s] such that [s * 10^(nd - k)] reads back as [m * 2^e], the
    closest such [s] when two do.  [nd] is the digit count of [m * 2^e];
    [s] may come out as [10^k]. *)
Fixpoint shortest (fuel k : nat) (m : positive) (e : Z) (nd : nat)
  : Z * nat :=
  let n := (Z.pos m * 2 ^ e)%Z in
  match fuel with
  | O => (n, nd)
  | S fuel' =>
      let u := JS.pow10 (nd - k) in
      let lo := (n / u)%Z in
      let hi := (lo + 1)%Z in
      match accepts m e (lo * u), accepts m e (hi * u) with
      | true, true => (if (n - lo * u <=? hi * u - n)%Z then lo else hi, k)
      | true, false => (lo, k)
      | false, true => (hi, k)
      | false, false => shortest fuel' (S k) m e nd
      end
  end.

(** [Number::toString] for a finite value of magnitude at least [10^21]:
    [d.ddd] followed by [e+] and the decimal exponent. *)
Definition Number_toString (x : float) : string :=
  match Prim2SF x with
  | S754_finite _ m e =>
      let nd := String.length (JS.digits_of (Z.pos m * 2 ^ e)) in
      let (s, k) := shortest 17 1 m e nd in
      let carry := (s =? JS.pow10 k)%Z in
      let digits := if carry then "1"%string else JS.digits_of s in
      let exponent := if carry then nd else (nd - 1)%nat in
      match digits with
      | String d EmptyString =>
          (String d "e+" ++ JS.digits_of (Z.of_nat exponent))%string
      | String d rest =>
          (String d ("." ++ rest) ++ "e+"
           ++ JS.digits_of (Z.of_nat exponent))%string
      | EmptyString => EmptyString
      end
  | _ => EmptyString
  end.

End Host.

(** ** Exact values of binary64 numbers

    The vocabulary for reasoning about what the primitive operations round
    to: [SpecFloat] gives the algorithms, these definitions say what they
    compute. *)

Module Binary64.

Local Open Scope Z_scope.

(** Nearest integer to [v / 2^n], ties to even. *)
Definition rne (v n : Z) : Z :=
  let q := v / 2 ^ n in
  match 2 * (v mod 2 ^ n) ?= 2 ^ n with
  | Lt => q
  | Eq => if Z.even q then q else q + 1
  | Gt => q + 1
  end.

(** Where [v / 2^n] lies between [v / 2^n] rounded down and the next integer. *)
Definition loc_of (v n : Z) : location :=
  if v mod 2 ^ n =? 0 then loc_Exact
  else loc_Inexact (2 * (v mod 2 ^ n) ?= 2 ^ n).

(** Exact values are kept as integers in units of [2^-bias]: every exponent
    that occurs is at least [2 * emin = -2148]. *)
Definition bias : Z := 2148.

Definition digits (v : Z) : Z := Z.log2 v + 1.

(** The exponent of the binade of [v], in the same units. *)
Definition cexp (v : Z) : Z := Z.max (digits v - 53) 1074.

(** [v] rounded to 53 bits, to nearest even, overflow apart. *)
Definition rnd (v : Z) : Z := rne v (cexp v) * 2 ^ cexp v.

(** The same with a sign. *)
Definition srnd (v : Z) : Z := if v <? 0 then - rnd (- v) else rnd v.

(** The exact value of a finite binary64 number, in units of [2^-bias]. *)
Definition sval (x : spec_float) : Z :=
  match x with
  | S754_finite s m e => cond_Zopp s (Z.pos m * 2 ^ (e + bias))
  | _ => 0
  end.

(** Zeros and finite numbers. *)
Definition is_real (x : spec_float) : bool :=
  match x with
  | S754_zero _ | S754_finite _ _ _ => true
  | _ => false
  end.

(** [r] is what the exact value [v] rounds to: the nearest binary64 number,
    or the infinity of its sign when that is out of range. *)
Definition rounds_to (v : Z) (r : spec_float) : Prop :=
  match r with
  | S754_nan => False
  | S754_infinity true => v < 0 /\ 2 ^ (1024 + bias) <= rnd (- v)
  | S754_infinity false => 0 < v /\ 2 ^ (1024 + bias) <= rnd v
  | _ => sval r = srnd v
  end.


End Binary64.

(** ** Rounding of quotients

    The same for the exact quotient [n / d] of two integers, which is what
    a division rounds. *)

Module Rational64.

Import Binary64.
Local Open Scope Z_scope.

(** Nearest integer to [n / p], ties to even. *)
Definition rne_div (n p : Z) : Z :=
  let q := n / p in
  match 2 * (n mod p) ?= p with
  | Lt => q
  | Eq => if Z.even q then q else q + 1
  | Gt => q + 1
  end.

(** Where [n / p] lies between its floor and the next integer. *)
Definition loc_div (n p : Z) : location :=
  if n mod p =? 0 then loc_Exact
  else loc_Inexact (2 * (n mod p) ?= p).

(** The quotient [n / d] of two scaled values, rounded to 53 bits. *)
Definition rndq (n d : Z) : Z :=
  rne_div n (d * 2 ^ cexp (n / d)) * 2 ^ cexp (n / d).

Definition srndq (n d : Z) : Z :=
  if n <? 0 then - rndq (- n) d else rndq n d.

(** [r] is what the exact quotient [n / d] rounds to. *)
Definition rounds_to_q (n d : Z) (r : spec_float) : Prop :=
  match r with
  | S754_nan => False
  | S754_infinity true => n < 0 /\ 2 ^ (1024 + bias) <= rndq (- n) d
  | S754_infinity false => 0 < n /\ 2 ^ (1024 + bias) <= rndq n d
  | _ => sval r = srndq n d
  end.

End Rational64.

(** ** The formulas as the specification words them *)

Module Spec.

Definition cleanCoefficient_U0 (thermalConductivity_k massFlowRate_kgps : float)
  : float :=
  (thermalConductivity_k / 0.05) * (massFlowRate_kgps / 50).

Definition overallCoefficient_U (cleanCoefficient_U0 foulingFactor : float)
  : float :=
  1 / ((1 / cleanCoefficient_U0) + foulingFactor).

Definition efficiency_pct (overallCoefficient_U cleanCoefficient_U0 : float)
  : float :=
  (overallCoefficient_U / cleanCoefficient_U0) * 100.

Definition heatDuty_kW (overallCoefficient_U exchangerArea_m2 LMTD_K : float)
  : float :=
  (overallCoefficient_U * exchangerArea_m2 * LMTD_K) / 1000.

Definition hotTemp_C (inletTemperature_C heatDuty_kW : float) (i : nat) : float :=
  inletTemperature_C - JS.of_index i * (heatDuty_kW / 15).

Definition coldTemp_C (heatDuty_kW : float) (i : nat) : float :=
  25 + JS.of_index i * (heatDuty_kW / 25).

End Spec.

(** * Properties of the engine *)

Import App.

(** ** Completions and arrays *)

Lemma from_indices_total {A : Type} (f : nat -> completion A) (g : nat -> A)
      (idx : list nat) :
  (forall i, f i = Normal (g i)) ->
  JS.from_indices f idx = Normal (map g idx).
Proof.
  intros Hf. induction idx as [|i rest IH]; simpl.
  - reflexivity.
  - rewrite Hf, IH. reflexivity.
Qed.

Lemma toFixed_in_range (ts : float -> string) (x : float) (fd : nat) :
  (fd <= 100)%nat ->
  JS.toFixed ts x fd = Normal (JS.toFixed_string ts x fd).
Proof.
  intros Hfd. unfold JS.toFixed.
  destruct (Nat.ltb_spec 100 fd) as [Hlt|_]; [lia | reflexivity].
Qed.

(** [toFixed] rounds to the nearest multiple of [10^-f], upwards on a tie:
    for a magnitude [m * 2^e] with [e < 0] the printed integer [n] satisfies
    [m * 2^e * 10^f - 1/2 < n <= m * 2^e * 10^f + 1/2]. *)
Lemma nearest_scaled_is_nearest (m : positive) (e : Z) (f : nat) :
  (e < 0)%Z ->
  let d := JS.pow2 (- e) in
  let n := JS.nearest_scaled m e f in
  (2 * Z.pos m * JS.pow10 f - d < 2 * n * d <= 2 * Z.pos m * JS.pow10 f + d)%Z.
Proof.
  intros He d n. subst n. unfold JS.nearest_scaled.
  destruct (Z.leb_spec 0 e) as [H0|_]; [lia|].
  fold d.
  assert (Hd : (0 < d)%Z) by (unfold d, JS.pow2; apply Z.pow_pos_nonneg; lia).
  set (a := (2 * Z.pos m * JS.pow10 f)%Z).
  pose proof (Z.div_mod (a + d) (2 * d) ltac:(lia)) as Hdm.
  pose proof (Z.mod_pos_bound (a + d) (2 * d) ltac:(lia)) as Hmod.
  nia.
Qed.

(** An exact value goes through unchanged when the exponent is not negative. *)
Lemma nearest_scaled_exact (m : positive) (e : Z) (f : nat) :
  (0 <= e)%Z ->
  JS.nearest_scaled m e f = (Z.pos m * JS.pow2 e * JS.pow10 f)%Z.
Proof.
  intros He. unfold JS.nearest_scaled.
  destruct (Z.leb_spec 0 e) as [_|H0]; [reflexivity | lia].
Qed.


(** ** Rounding of the binary64 operations

    [SpecFloat]'s [binary_round_aux] rounds an exact value to the nearest
    binary64 number, ties to even; hence addition, subtraction and
    multiplication are monotone. *)

Section Binary64Rounding.

Import Binary64.
Local Open Scope Z_scope.

Lemma SFcompare_refl_finite (s : bool) (m : positive) (e : Z) :
  SFcompare (S754_finite s m e) (S754_finite s m e) = Some Eq.
Proof.
  simpl. rewrite Z.compare_refl, Pos.compare_cont_refl.
  destruct s; reflexivity.
Qed.


Lemma shr_1_fields (mrs : shr_record) :
  0 <= shr_m mrs ->
  shr_m (shr_1 mrs) = shr_m mrs / 2 /\
  shr_r (shr_1 mrs) = Z.odd (shr_m mrs) /\
  shr_s (shr_1 mrs) = shr_r mrs || shr_s mrs.
Proof.
  destruct mrs as [m r s]. cbn [shr_m shr_r shr_s]. intros Hm.
  destruct m as [|p|p]; [| |lia].
  - cbn. auto.
  - destruct p as [p|p|]; cbn [shr_1 shr_m shr_r shr_s].
    + repeat split. rewrite Pos2Z.inj_xI.
      apply Z.div_unique with (r := 1); lia.
    + repeat split. rewrite Pos2Z.inj_xO.
      apply Z.div_unique with (r := 0); lia.
    + repeat split.
Qed.

Lemma loc_of_shr_record_Exact (mrs : shr_record) :
  loc_of_shr_record mrs = loc_Exact <-> shr_r mrs || shr_s mrs = false.
Proof.
  destruct mrs as [m [] []]; cbn; split; intros H; congruence.
Qed.

Lemma pow2_pos (n : Z) : 0 <= n -> 0 < 2 ^ n.
Proof. intros. apply Z.pow_pos_nonneg; lia. Qed.

Lemma mod_pow2_succ (v k : Z) :
  0 <= k ->
  v mod 2 ^ (k + 1) = (v / 2 ^ k) mod 2 * 2 ^ k + v mod 2 ^ k.
Proof.
  intros Hk. rewrite Z.pow_add_r by lia. change (2 ^ 1) with 2.
  pose proof (pow2_pos k Hk).
  rewrite Z.rem_mul_r by lia. lia.
Qed.

Lemma shr_1_loc (v k : Z) (mrs : shr_record) :
  0 <= v -> 0 <= k ->
  shr_m mrs = v / 2 ^ k ->
  loc_of_shr_record mrs = loc_of v k ->
  shr_m (shr_1 mrs) = v / 2 ^ (k + 1) /\
  loc_of_shr_record (shr_1 mrs) = loc_of v (k + 1).
Proof.
  intros Hv Hk Hm Hloc.
  pose proof (pow2_pos k Hk) as Hp.
  assert (Hm0 : 0 <= shr_m mrs) by (rewrite Hm; apply Z.div_pos; lia).
  destruct (shr_1_fields mrs Hm0) as (Em & Er & Es).
  split.
  - rewrite Em, Hm, Z.div_div by lia. rewrite Z.pow_add_r by lia. reflexivity.
  - assert (Hrs : shr_r mrs || shr_s mrs = negb (v mod 2 ^ k =? 0)).
    { destruct (shr_r mrs || shr_s mrs) eqn:E.
      - apply not_false_iff_true in E.
        rewrite <- loc_of_shr_record_Exact in E.
        rewrite Hloc in E. unfold loc_of in E.
        destruct (v mod 2 ^ k =? 0); [congruence | reflexivity].
      - apply loc_of_shr_record_Exact in E. rewrite Hloc in E.
        unfold loc_of in E.
        destruct (v mod 2 ^ k =? 0); [reflexivity | discriminate]. }
    pose proof (Z.mod_pos_bound v (2 ^ k) Hp) as Hb.
    unfold loc_of. rewrite (mod_pow2_succ v k Hk).
    rewrite Z.pow_add_r by lia. change (2 ^ 1) with 2.
    destruct (shr_1 mrs) as [m' r' s']. cbn [shr_m shr_r shr_s] in *.
    subst r' s'. rewrite Hrs, Hm.
    rewrite Zmod_odd.
    destruct (Z.odd (v / 2 ^ k)); cbn [negb loc_of_shr_record];
      destruct (Z.eqb_spec (v mod 2 ^ k) 0) as [E0|E0]; cbn [negb].
    + rewrite E0. replace (1 * 2 ^ k + 0) with (2 ^ k) by lia.
      destruct (Z.eqb_spec (2 ^ k) 0); [lia|].
      replace (2 * 2 ^ k ?= 2 ^ k * 2) with Eq; [reflexivity|].
      symmetry. apply Z.compare_eq_iff. lia.
    + destruct (Z.eqb_spec (1 * 2 ^ k + v mod 2 ^ k) 0); [lia|].
      replace (2 * (1 * 2 ^ k + v mod 2 ^ k) ?= 2 ^ k * 2) with Gt; [reflexivity|].
      symmetry. apply Z.compare_gt_iff. lia.
    + rewrite E0. reflexivity.
    + destruct (Z.eqb_spec (0 * 2 ^ k + v mod 2 ^ k) 0); [lia|].
      replace (2 * (0 * 2 ^ k + v mod 2 ^ k) ?= 2 ^ k * 2) with Lt; [reflexivity|].
      symmetry. apply Z.compare_lt_iff. lia.
Qed.

Lemma iter_pos_shr_1 (v : Z) (p : positive) :
  0 <= v ->
  forall (k : Z) (mrs : shr_record),
    0 <= k ->
    shr_m mrs = v / 2 ^ k ->
    loc_of_shr_record mrs = loc_of v k ->
    shr_m (iter_pos shr_1 p mrs) = v / 2 ^ (k + Z.pos p) /\
    loc_of_shr_record (iter_pos shr_1 p mrs) = loc_of v (k + Z.pos p).
Proof.
  intros Hv. induction p as [p IH|p IH|]; intros k mrs Hk Hm Hl; cbn [iter_pos].
  - destruct (shr_1_loc v k mrs Hv Hk Hm Hl) as [Hm1 Hl1].
    destruct (IH (k + 1) (shr_1 mrs) ltac:(lia) Hm1 Hl1) as [Hm2 Hl2].
    destruct (IH (k + 1 + Z.pos p) _ ltac:(lia) Hm2 Hl2) as [Hm3 Hl3].
    replace (k + Z.pos p~1) with (k + 1 + Z.pos p + Z.pos p) by lia. auto.
  - destruct (IH k mrs Hk Hm Hl) as [Hm2 Hl2].
    destruct (IH (k + Z.pos p) _ ltac:(lia) Hm2 Hl2) as [Hm3 Hl3].
    replace (k + Z.pos p~0) with (k + Z.pos p + Z.pos p) by lia. auto.
  - apply shr_1_loc; assumption.
Qed.

Lemma loc_of_0 (v : Z) : loc_of v 0 = loc_Exact.
Proof. unfold loc_of. change (2 ^ 0) with 1. rewrite Z.mod_1_r. reflexivity. Qed.

(** [shr] by [n >= 0] places from an exact mantissa. *)
Lemma shr_exact (v e n : Z) :
  0 <= v -> 0 <= n ->
  let '(mrs, e') := shr {| shr_m := v; shr_r := false; shr_s := false |} e n in
  e' = e + n /\ shr_m mrs = v / 2 ^ n /\ loc_of_shr_record mrs = loc_of v n.
Proof.
  intros Hv Hn. destruct n as [|p|p]; [| |lia]; cbn [shr].
  - rewrite loc_of_0. change (2 ^ 0) with 1. rewrite Z.div_1_r.
    repeat split. lia.
  - split; [reflexivity|].
    apply (iter_pos_shr_1 v p Hv 0); [lia| |].
    + cbn. change (2 ^ 0) with 1. rewrite Z.div_1_r. reflexivity.
    + rewrite loc_of_0. reflexivity.
Qed.

Lemma round_nearest_even_rne (v n : Z) :
  round_nearest_even (v / 2 ^ n) (loc_of v n) = rne v n.
Proof.
  unfold loc_of, rne.
  destruct (Z.eqb_spec (v mod 2 ^ n) 0) as [E|E].
  - rewrite E. cbn [round_nearest_even].
    destruct (2 * 0 ?= 2 ^ n) eqn:C; try reflexivity.
    + apply Z.compare_eq_iff in C.
      assert (H : 2 ^ n = 0) by lia. rewrite H, Z.div_0_r. reflexivity.
    + apply Z.compare_gt_iff in C. pose proof (Z.pow_nonneg 2 n ltac:(lia)). lia.
  - cbn [round_nearest_even]. destruct (2 * (v mod 2 ^ n) ?= 2 ^ n); reflexivity.
Qed.

(** *** Rounding to nearest even on integers *)

Lemma rne_bounds (v n : Z) :
  0 <= n ->
  let q := rne v n in
  2 ^ n * (2 * q - 1) <= 2 * v <= 2 ^ n * (2 * q + 1) /\
  (2 * v = 2 ^ n * (2 * q - 1) -> Z.even q = true) /\
  (2 * v = 2 ^ n * (2 * q + 1) -> Z.even q = true).
Proof.
  intros Hn q. subst q. unfold rne.
  pose proof (pow2_pos n Hn) as Hp.
  pose proof (Z.div_mod v (2 ^ n) ltac:(lia)) as Hdm.
  pose proof (Z.mod_pos_bound v (2 ^ n) Hp) as Hb.
  set (q0 := v / 2 ^ n) in *. set (r := v mod 2 ^ n) in *.
  clearbody q0 r.
  destruct (Z.compare_spec (2 * r) (2 ^ n)) as [C|C|C].
  - destruct (Z.even q0) eqn:Ev.
    + split; [split; nia|]. split; intros _; exact Ev.
    + split; [split; nia|]. split.
      * intros _. rewrite Z.even_add, Ev. reflexivity.
      * intros H. exfalso. nia.
  - split; [split; nia|]. split; intros H; exfalso; nia.
  - split; [split; nia|]. split; intros H; exfalso; nia.
Qed.

Lemma rne_monotone (v1 v2 n : Z) :
  0 <= n -> v1 <= v2 -> rne v1 n <= rne v2 n.
Proof.
  intros Hn Hv.
  pose proof (pow2_pos n Hn) as Hp.
  destruct (rne_bounds v1 n Hn) as ((L1 & U1) & E1 & _).
  destruct (rne_bounds v2 n Hn) as ((L2 & U2) & _ & E2).
  set (q1 := rne v1 n) in *. set (q2 := rne v2 n) in *.
  destruct (Z_le_gt_dec q1 q2) as [H|H]; [exact H|exfalso].
  assert (Hq : q1 = q2 + 1) by nia.
  assert (T1 : 2 * v1 = 2 ^ n * (2 * q1 - 1)) by nia.
  assert (T2 : 2 * v2 = 2 ^ n * (2 * q2 + 1)) by nia.
  specialize (E1 T1). specialize (E2 T2).
  rewrite Hq, Z.even_add, E2 in E1. discriminate.
Qed.

Lemma rne_exact (q n : Z) : 0 <= n -> rne (q * 2 ^ n) n = q.
Proof.
  intros Hn. unfold rne. pose proof (pow2_pos n Hn) as Hp.
  rewrite Z.mod_mul, Z.div_mul by lia.
  destruct (Z.compare_spec (2 * 0) (2 ^ n)); [lia | reflexivity | lia].
Qed.

Lemma rne_scale (v n a : Z) :
  0 <= n -> 0 <= a -> rne (v * 2 ^ a) (n + a) = rne v n.
Proof.
  intros Hn Ha. unfold rne.
  pose proof (pow2_pos n Hn) as Hp. pose proof (pow2_pos a Ha) as Hq.
  rewrite Z.pow_add_r by lia.
  rewrite Z.div_mul_cancel_r by lia.
  rewrite Z.mul_mod_distr_r by lia.
  set (r := v mod 2 ^ n).
  destruct (Z.compare_spec (2 * r) (2 ^ n)) as [C|C|C];
    destruct (Z.compare_spec (2 * (r * 2 ^ a)) (2 ^ n * 2 ^ a)) as [D|D|D];
    try reflexivity; exfalso; nia.
Qed.

Lemma rne_nonneg (v n : Z) : 0 <= n -> 0 <= v -> 0 <= rne v n.
Proof.
  intros Hn Hv. rewrite <- (rne_exact 0 n Hn).
  apply rne_monotone; lia.
Qed.

(** *** Rounding to 53 bits on scaled integers *)

Lemma digits2_pos_log2 (m : positive) :
  Z.pos (digits2_pos m) = digits (Z.pos m).
Proof.
  unfold digits.
  induction m as [m IH|m IH|]; cbn [digits2_pos]; try reflexivity.
  - rewrite Pos2Z.inj_succ, IH. unfold digits.
    rewrite Pos2Z.inj_xI, Z.log2_succ_double by lia. lia.
  - rewrite Pos2Z.inj_succ, IH. unfold digits.
    rewrite Pos2Z.inj_xO, Z.log2_double by lia. lia.
Qed.

Lemma digits_bounds (v : Z) :
  0 < v -> 2 ^ (digits v - 1) <= v < 2 ^ digits v.
Proof.
  intros Hv. unfold digits.
  replace (Z.log2 v + 1 - 1) with (Z.log2 v) by lia.
  replace (Z.log2 v + 1) with (Z.succ (Z.log2 v)) by lia.
  apply Z.log2_spec. exact Hv.
Qed.

Lemma digits_pos (v : Z) : 0 < v -> 0 < digits v.
Proof. intros Hv. unfold digits. pose proof (Z.log2_nonneg v). lia. Qed.

Lemma digits_scale (v a : Z) :
  0 < v -> 0 <= a -> digits (v * 2 ^ a) = digits v + a.
Proof.
  intros Hv Ha. unfold digits. rewrite Z.log2_mul_pow2 by lia. lia.
Qed.

Lemma digits_monotone (v1 v2 : Z) : v1 <= v2 -> digits v1 <= digits v2.
Proof.
  intros H. unfold digits. pose proof (Z.log2_le_mono v1 v2 H). lia.
Qed.

Lemma cexp_ge (v : Z) : 1074 <= cexp v /\ digits v - 53 <= cexp v.
Proof. unfold cexp. lia. Qed.

Lemma rnd_upper (v : Z) : 0 < v -> rnd v <= 2 ^ (53 + cexp v).
Proof.
  intros Hv. unfold rnd.
  destruct (cexp_ge v) as [Hc Hd].
  destruct (digits_bounds v Hv) as [_ Hu].
  assert (Hle : v <= 2 ^ 53 * 2 ^ cexp v).
  { rewrite <- Z.pow_add_r by lia.
    apply Z.lt_le_incl, (Z.lt_le_trans _ _ _ Hu).
    apply Z.pow_le_mono_r; lia. }
  pose proof (rne_monotone v (2 ^ 53 * 2 ^ cexp v) (cexp v) ltac:(lia) Hle) as H.
  rewrite rne_exact in H by lia.
  rewrite Z.pow_add_r by lia.
  apply Z.mul_le_mono_nonneg_r; [|exact H].
  apply Z.lt_le_incl, pow2_pos. lia.
Qed.

Lemma rnd_lower (v : Z) :
  0 < v -> 1074 < cexp v -> 2 ^ (52 + cexp v) <= rnd v.
Proof.
  intros Hv Hc. unfold rnd.
  assert (Hd : cexp v = digits v - 53) by (unfold cexp in *; lia).
  destruct (digits_bounds v Hv) as [Hl _].
  assert (Hle : 2 ^ 52 * 2 ^ cexp v <= v).
  { rewrite <- Z.pow_add_r by lia.
    replace (52 + cexp v) with (digits v - 1) by lia. exact Hl. }
  pose proof (rne_monotone (2 ^ 52 * 2 ^ cexp v) v (cexp v) ltac:(lia) Hle) as H.
  rewrite rne_exact in H by lia.
  rewrite Z.pow_add_r by lia.
  apply Z.mul_le_mono_nonneg_r; [|exact H].
  apply Z.lt_le_incl, pow2_pos. lia.
Qed.

Lemma rnd_monotone (v1 v2 : Z) :
  0 < v1 -> v1 <= v2 -> rnd v1 <= rnd v2.
Proof.
  intros Hv1 Hv.
  pose proof (digits_monotone v1 v2 Hv) as Hd.
  destruct (cexp_ge v1) as [Hc1 _].
  assert (Hc : cexp v1 <= cexp v2) by (unfold cexp; lia).
  destruct (Z.eq_dec (cexp v1) (cexp v2)) as [E|E].
  - unfold rnd. rewrite E.
    apply Z.mul_le_mono_nonneg_r.
    + apply Z.lt_le_incl, pow2_pos. lia.
    + apply rne_monotone; lia.
  - apply (Z.le_trans _ (2 ^ (53 + cexp v1))); [apply rnd_upper; exact Hv1|].
    apply (Z.le_trans _ (2 ^ (52 + cexp v2))); [|apply rnd_lower; lia].
    apply Z.pow_le_mono_r; lia.
Qed.

Lemma rnd_nonneg (v : Z) : 0 <= v -> 0 <= rnd v.
Proof.
  intros Hv. unfold rnd. destruct (cexp_ge v) as [Hc _].
  apply Z.mul_nonneg_nonneg.
  - apply rne_nonneg; lia.
  - apply Z.lt_le_incl, pow2_pos. lia.
Qed.

Lemma fexp_cexp (m : positive) (e : Z) :
  0 <= e + bias ->
  fexp prec emax (Z.pos (digits2_pos m) + e) + bias
  = cexp (Z.pos m * 2 ^ (e + bias)).
Proof.
  intros He. unfold fexp, cexp, SpecFloat.emin.
  rewrite digits2_pos_log2, digits_scale by lia.
  unfold prec, emax, bias. lia.
Qed.

(** *** What [binary_round_aux] computes *)

Lemma shr_nonpos (mrs : shr_record) (e n : Z) :
  n <= 0 -> shr mrs e n = (mrs, e).
Proof. intros Hn. destruct n as [|p|p]; [reflexivity | lia | reflexivity]. Qed.

Lemma rne_cexp_upper (v : Z) : 0 < v -> rne v (cexp v) <= 2 ^ 53.
Proof.
  intros Hv.
  destruct (cexp_ge v) as [Hc Hd].
  destruct (digits_bounds v Hv) as [_ Hu].
  assert (Hle : v <= 2 ^ 53 * 2 ^ cexp v).
  { rewrite <- Z.pow_add_r by lia.
    apply Z.lt_le_incl, (Z.lt_le_trans _ _ _ Hu).
    apply Z.pow_le_mono_r; lia. }
  pose proof (rne_monotone v (2 ^ 53 * 2 ^ cexp v) (cexp v) ltac:(lia) Hle) as H.
  rewrite rne_exact in H by lia. exact H.
Qed.

Lemma digits_le_53 (q : Z) : 0 < q -> q < 2 ^ 53 -> digits q <= 53.
Proof.
  intros Hq Hlt.
  destruct (digits_bounds q Hq) as [Hl _].
  destruct (Z_le_gt_dec (digits q) 53) as [H|H]; [exact H|exfalso].
  assert (2 ^ 53 <= 2 ^ (digits q - 1)) by (apply Z.pow_le_mono_r; lia).
  lia.
Qed.

Lemma binary_round_aux_value (s : bool) (m : positive) (e : Z) :
  0 <= e + bias ->
  e <= fexp prec emax (Z.pos (digits2_pos m) + e) ->
  match binary_round_aux prec emax s (Z.pos m) e loc_Exact with
  | S754_zero s' => s' = s /\ rnd (Z.pos m * 2 ^ (e + bias)) = 0
  | S754_finite s' m' e' =>
      s' = s /\ 0 <= e' + bias /\
      Z.pos m' * 2 ^ (e' + bias) = rnd (Z.pos m * 2 ^ (e + bias))
  | S754_infinity s' =>
      s' = s /\ 2 ^ (1024 + bias) <= rnd (Z.pos m * 2 ^ (e + bias))
  | S754_nan => False
  end.
Proof.
  intros He Hn.
  pose proof (fexp_cexp m e He) as Hc.
  set (v := Z.pos m * 2 ^ (e + bias)) in *.
  assert (Hv : 0 < v).
  { unfold v. apply Z.mul_pos_pos; [lia | apply pow2_pos; lia]. }
  set (E := fexp prec emax (Z.pos (digits2_pos m) + e)) in *.
  assert (HE : -1074 <= E).
  { unfold E, fexp, SpecFloat.emin, prec, emax. lia. }
  unfold binary_round_aux, shr_fexp. cbn [Zdigits2 shr_record_of_loc].
  fold E.
  pose proof (shr_exact (Z.pos m) e (E - e) ltac:(lia) ltac:(lia)) as H1.
  destruct (shr {| shr_m := Z.pos m; shr_r := false; shr_s := false |} e (E - e))
    as [mrs' e'].
  destruct H1 as (He' & Hm' & Hl').
  replace e' with E by lia. clear e' He'.
  rewrite Hm', Hl', round_nearest_even_rne.
  assert (Hq : rne (Z.pos m) (E - e) = rne v (cexp v)).
  { rewrite <- Hc. unfold v.
    replace (E + bias) with (E - e + (e + bias)) by lia.
    symmetry. apply rne_scale; lia. }
  rewrite Hq. set (q := rne v (cexp v)) in *.
  assert (Hq0 : 0 <= q) by (apply rne_nonneg; [unfold cexp|]; lia).
  pose proof (rne_cexp_upper v Hv) as Hq1. fold q in Hq1.
  assert (Hrnd : rnd v = q * 2 ^ (E + bias)).
  { unfold rnd. fold q. rewrite <- Hc. reflexivity. }
  destruct (Z.eq_dec q 0) as [Z0|NZ].
  - (* the value rounds to zero *)
    rewrite Z0. cbn [Zdigits2 Z.add].
    rewrite shr_nonpos.
    2:{ unfold fexp, SpecFloat.emin, prec, emax. lia. }
    cbn [shr_m]. split; [reflexivity|]. rewrite Hrnd, Z0. reflexivity.
  - destruct (Z.eq_dec q (2 ^ 53)) as [C|NC].
    + (* the mantissa carries into the next binade *)
      rewrite C.
      replace (fexp prec emax (Zdigits2 (2 ^ 53) + E) - E) with 1.
      2:{ change (Zdigits2 (2 ^ 53)) with 54.
          unfold fexp, SpecFloat.emin, prec, emax. lia. }
      cbn [shr iter_pos]. change (shr_m (shr_1 _)) with (2 ^ 52).
      change (2 ^ 52) with (Z.pos 4503599627370496).
      cbv iota beta.
      assert (Hval : Z.pos 4503599627370496 * 2 ^ (E + 1 + bias) = rnd v).
      { rewrite Hrnd, C.
        replace (E + 1 + bias) with (1 + (E + bias)) by lia.
        rewrite Z.pow_add_r by (unfold bias; lia).
        change (2 ^ 53) with (Z.pos 4503599627370496 * 2 ^ 1). ring. }
      destruct (Z.leb_spec (E + 1) (emax - prec)) as [Hb|Hb].
      * split; [reflexivity|]. split; [unfold bias; lia | exact Hval].
      * split; [reflexivity|]. rewrite <- Hval.
        change (Z.pos 4503599627370496) with (2 ^ 52).
        rewrite <- Z.pow_add_r by (unfold bias; lia).
        apply Z.pow_le_mono_r; [lia|].
        unfold emax, prec, bias in *. lia.
    + (* the mantissa fits *)
      assert (Hq2 : 0 < q < 2 ^ 53) by lia.
      destruct q as [|q'|q'] eqn:Eq; [lia| |lia].
      cbn [Zdigits2]. rewrite digits2_pos_log2.
      pose proof (digits_le_53 (Z.pos q') ltac:(lia) ltac:(lia)) as Hd.
      rewrite shr_nonpos.
      2:{ unfold fexp, SpecFloat.emin, prec, emax. lia. }
      cbn [shr_m].
      destruct (Z.leb_spec E (emax - prec)) as [Hb|Hb].
      * split; [reflexivity|]. split; [unfold bias; lia|].
        rewrite Hrnd. reflexivity.
      * split; [reflexivity|].
        assert (Hc' : 1074 < cexp v).
        { rewrite <- Hc. unfold emax, prec, bias in *. lia. }
        apply (Z.le_trans _ (2 ^ (52 + cexp v))); [|apply rnd_lower; assumption].
        apply Z.pow_le_mono_r; [lia|].
        rewrite <- Hc. unfold emax, prec, bias in *. lia.
Qed.

Lemma shift_pos_value (m d : positive) :
  Z.pos (Pos.iter xO m d) = Z.pos m * 2 ^ Z.pos d.
Proof.
  revert m. induction d as [|d IH] using Pos.peano_ind; intros m.
  - cbn [Pos.iter]. rewrite Pos2Z.inj_xO. change (2 ^ 1) with 2. lia.
  - rewrite Pos.iter_succ, Pos2Z.inj_xO, IH, Pos2Z.inj_succ.
    rewrite Z.pow_succ_r by lia. ring.
Qed.

Lemma shl_align_value (m : positive) (e e' : Z) :
  let '(mz, ez) := shl_align m e e' in
  ez = Z.min e e' /\ Z.pos mz = Z.pos m * 2 ^ (e - ez).
Proof.
  unfold shl_align. destruct (e' - e) as [|d|d] eqn:D.
  - split; [lia|]. rewrite Z.sub_diag. change (2 ^ 0) with 1. lia.
  - split; [lia|]. rewrite Z.sub_diag. change (2 ^ 0) with 1. lia.
  - split; [lia|]. rewrite shift_pos_value. f_equal. f_equal. lia.
Qed.

Lemma rounds_to_sign (s : bool) (v : Z) (r : spec_float) :
  0 < v ->
  match r with
  | S754_zero s' => s' = s /\ rnd v = 0
  | S754_finite s' m' e' =>
      s' = s /\ 0 <= e' + bias /\ Z.pos m' * 2 ^ (e' + bias) = rnd v
  | S754_infinity s' => s' = s /\ 2 ^ (1024 + bias) <= rnd v
  | S754_nan => False
  end ->
  rounds_to (cond_Zopp s v) r.
Proof.
  intros Hv H. unfold rounds_to, srnd.
  destruct r as [s'|s'| |s' m' e'].
  - destruct H as [-> H]. cbn [sval].
    destruct s; cbn [cond_Zopp].
    + destruct (Z.ltb_spec (- v) 0); [|lia]. rewrite Z.opp_involutive. lia.
    + destruct (Z.ltb_spec v 0); lia.
  - destruct H as [-> H]. destruct s; cbn [cond_Zopp].
    + rewrite Z.opp_involutive. lia.
    + lia.
  - exact H.
  - destruct H as (-> & _ & H). cbn [sval].
    destruct s; cbn [cond_Zopp].
    + destruct (Z.ltb_spec (- v) 0); [|lia]. rewrite Z.opp_involutive. lia.
    + destruct (Z.ltb_spec v 0); lia.
Qed.

Lemma binary_round_rounds (s : bool) (m : positive) (e : Z) :
  0 <= e + bias ->
  rounds_to (cond_Zopp s (Z.pos m * 2 ^ (e + bias)))
            (binary_round prec emax s m e).
Proof.
  intros He. unfold binary_round.
  pose proof (shl_align_value m e (fexp prec emax (Z.pos (digits2_pos m) + e)))
    as Ha.
  set (E := fexp prec emax (Z.pos (digits2_pos m) + e)) in *.
  assert (HE : -1074 <= E).
  { unfold E, fexp, SpecFloat.emin, prec, emax. lia. }
  destruct (shl_align m e E) as [mz ez]. destruct Ha as [Hez Hmz].
  assert (Hval : Z.pos mz * 2 ^ (ez + bias) = Z.pos m * 2 ^ (e + bias)).
  { rewrite Hmz, <- Z.mul_assoc, <- Z.pow_add_r by (unfold bias in *; lia).
    f_equal. f_equal. lia. }
  assert (Hz : 0 <= ez + bias) by (unfold bias in *; lia).
  rewrite <- Hval.
  apply rounds_to_sign.
  - apply Z.mul_pos_pos; [lia | apply pow2_pos; lia].
  - apply binary_round_aux_value; [exact Hz|].
    assert (Hd : Z.pos (digits2_pos mz) + ez = Z.pos (digits2_pos m) + e).
    { rewrite !digits2_pos_log2, Hmz, digits_scale by lia. lia. }
    rewrite Hd. fold E. lia.
Qed.

Lemma rnd_0 : rnd 0 = 0.
Proof. reflexivity. Qed.

Lemma binary_normalize_rounds (M e : Z) (szero : bool) :
  0 <= e + bias ->
  rounds_to (M * 2 ^ (e + bias)) (binary_normalize prec emax M e szero).
Proof.
  intros He. destruct M as [|m|m]; cbn [binary_normalize].
  - cbn [rounds_to sval Z.mul]. reflexivity.
  - apply (binary_round_rounds false m e He).
  - pose proof (binary_round_rounds true m e He) as H.
    cbn [cond_Zopp] in H. rewrite <- Z.mul_opp_l in H. exact H.
Qed.

(** *** Order of valid binary64 numbers *)

Lemma bounded_facts (m : positive) (e : Z) :
  bounded prec emax m e = true ->
  -1074 <= e <= 971 /\ digits (Z.pos m) <= 53 /\
  (e = -1074 \/ digits (Z.pos m) = 53).
Proof.
  unfold bounded, canonical_mantissa. intros H.
  apply andb_true_iff in H. destruct H as [Hc Hb].
  apply Z.eqb_eq in Hc. apply Z.leb_le in Hb.
  rewrite digits2_pos_log2 in Hc.
  unfold fexp, SpecFloat.emin, prec, emax in *. lia.
Qed.

Lemma bounded_value_lt (m : positive) (e : Z) :
  bounded prec emax m e = true ->
  Z.pos m * 2 ^ (e + bias) < 2 ^ (1024 + bias).
Proof.
  intros H. destruct (bounded_facts m e H) as (He & Hd & _).
  destruct (digits_bounds (Z.pos m) ltac:(lia)) as [_ Hu].
  assert (H53 : Z.pos m < 2 ^ 53).
  { apply (Z.lt_le_trans _ _ _ Hu). apply Z.pow_le_mono_r; lia. }
  assert (Hp : 0 < 2 ^ (e + bias)) by (apply pow2_pos; unfold bias; lia).
  apply (Z.lt_le_trans _ (2 ^ 53 * 2 ^ (e + bias))).
  - apply Z.mul_lt_mono_pos_r; assumption.
  - rewrite <- Z.pow_add_r by (unfold bias; lia).
    apply Z.pow_le_mono_r; unfold bias; lia.
Qed.

Lemma bounded_value_binade (m1 m2 : positive) (e1 e2 : Z) :
  bounded prec emax m1 e1 = true ->
  bounded prec emax m2 e2 = true ->
  e1 < e2 ->
  Z.pos m1 * 2 ^ (e1 + bias) < Z.pos m2 * 2 ^ (e2 + bias).
Proof.
  intros H1 H2 He.
  destruct (bounded_facts m1 e1 H1) as (He1 & Hd1 & _).
  destruct (bounded_facts m2 e2 H2) as (He2 & _ & Hd2).
  destruct (digits_bounds (Z.pos m1) ltac:(lia)) as [_ Hu].
  destruct (digits_bounds (Z.pos m2) ltac:(lia)) as [Hl _].
  assert (Hm1 : Z.pos m1 < 2 ^ 53).
  { apply (Z.lt_le_trans _ _ _ Hu). apply Z.pow_le_mono_r; lia. }
  assert (Hm2 : 2 ^ 52 <= Z.pos m2).
  { replace 52 with (digits (Z.pos m2) - 1) by lia. exact Hl. }
  assert (Hp1 : 0 < 2 ^ (e1 + bias)) by (apply pow2_pos; unfold bias; lia).
  assert (Hp2 : 0 < 2 ^ (e2 + bias)) by (apply pow2_pos; unfold bias; lia).
  apply (Z.lt_le_trans _ (2 ^ 53 * 2 ^ (e1 + bias))).
  - apply Z.mul_lt_mono_pos_r; assumption.
  - apply (Z.le_trans _ (2 ^ 52 * 2 ^ (e2 + bias))).
    + rewrite <- !Z.pow_add_r by (unfold bias; lia).
      apply Z.pow_le_mono_r; lia.
    + apply Z.mul_le_mono_nonneg_r; lia.
Qed.

Lemma compare_scaled (m1 m2 : positive) (p : Z) :
  0 < p ->
  Pos.compare_cont Eq m1 m2 = (Z.pos m1 * p ?= Z.pos m2 * p).
Proof.
  intros Hp. change (Pos.compare_cont Eq m1 m2) with (Z.pos m1 ?= Z.pos m2).
  destruct (Z.compare_spec (Z.pos m1) (Z.pos m2)) as [C|C|C];
    destruct (Z.compare_spec (Z.pos m1 * p) (Z.pos m2 * p)) as [D|D|D];
    try reflexivity; exfalso; nia.
Qed.

Lemma SFcompare_positive (m1 m2 : positive) (e1 e2 : Z) :
  bounded prec emax m1 e1 = true ->
  bounded prec emax m2 e2 = true ->
  match e1 ?= e2 with
  | Lt => Lt
  | Gt => Gt
  | Eq => Pos.compare_cont Eq m1 m2
  end = (Z.pos m1 * 2 ^ (e1 + bias) ?= Z.pos m2 * 2 ^ (e2 + bias)).
Proof.
  intros H1 H2.
  destruct (Z.compare_spec e1 e2) as [C|C|C].
  - subst e2. apply compare_scaled.
    destruct (bounded_facts m1 e1 H1) as (He1 & _).
    apply pow2_pos. unfold bias. lia.
  - symmetry. apply Z.compare_lt_iff.
    apply bounded_value_binade; assumption.
  - symmetry. apply Z.compare_gt_iff.
    apply bounded_value_binade; assumption.
Qed.

Lemma sval_sign (s : bool) (m : positive) (e : Z) :
  0 <= e + bias ->
  if s then sval (S754_finite s m e) < 0 else 0 < sval (S754_finite s m e).
Proof.
  intros He. cbn [sval].
  assert (0 < Z.pos m * 2 ^ (e + bias))
    by (apply Z.mul_pos_pos; [lia | apply pow2_pos; lia]).
  destruct s; cbn [cond_Zopp]; lia.
Qed.

(** On zeros and finite numbers, [SFcompare] is the order of the values. *)
Lemma SFcompare_sval (x y : spec_float) :
  valid_binary x = true -> valid_binary y = true ->
  is_real x = true -> is_real y = true ->
  SFcompare x y = Some (sval x ?= sval y).
Proof.
  intros Vx Vy Rx Ry.
  destruct x as [sx|sx| |sx mx ex]; try discriminate;
    destruct y as [sy|sy| |sy my ey]; try discriminate.
  - reflexivity.
  - cbn [valid_binary] in Vy.
    destruct (bounded_facts my ey Vy) as (He & _).
    pose proof (sval_sign sy my ey ltac:(unfold bias; lia)) as Hs.
    cbn [SFcompare]. change (sval (S754_zero sx)) with 0.
    destruct sy; f_equal; symmetry.
    + apply Z.compare_gt_iff. exact Hs.
    + apply Z.compare_lt_iff. exact Hs.
  - cbn [valid_binary] in Vx.
    destruct (bounded_facts mx ex Vx) as (He & _).
    pose proof (sval_sign sx mx ex ltac:(unfold bias; lia)) as Hs.
    cbn [SFcompare]. change (sval (S754_zero sy)) with 0.
    destruct sx; f_equal; symmetry.
    + apply Z.compare_lt_iff. exact Hs.
    + apply Z.compare_gt_iff. exact Hs.
  - cbn [valid_binary] in Vx, Vy.
    destruct (bounded_facts mx ex Vx) as (Hex & _).
    destruct (bounded_facts my ey Vy) as (Hey & _).
    pose proof (sval_sign sx mx ex ltac:(unfold bias; lia)) as Hsx.
    pose proof (sval_sign sy my ey ltac:(unfold bias; lia)) as Hsy.
    cbn [SFcompare].
    destruct sx, sy; f_equal.
    + cbn [sval cond_Zopp]. rewrite Z.compare_opp.
      rewrite <- (SFcompare_positive my mx ey ex Vy Vx).
      rewrite (Z.compare_antisym ey ex).
      destruct (ey ?= ex); cbn [CompOpp]; try reflexivity.
      rewrite (Pos.compare_cont_antisym). reflexivity.
    + symmetry. apply Z.compare_lt_iff. lia.
    + symmetry. apply Z.compare_gt_iff. lia.
    + cbn [sval cond_Zopp]. apply SFcompare_positive; assumption.
Qed.

Lemma srnd_monotone (v1 v2 : Z) : v1 <= v2 -> srnd v1 <= srnd v2.
Proof.
  intros H. unfold srnd.
  destruct (Z.ltb_spec v1 0) as [N1|P1]; destruct (Z.ltb_spec v2 0) as [N2|P2].
  - pose proof (rnd_monotone (- v2) (- v1) ltac:(lia) ltac:(lia)). lia.
  - pose proof (rnd_nonneg (- v1) ltac:(lia)).
    pose proof (rnd_nonneg v2 P2). lia.
  - lia.
  - destruct (Z.eq_dec v1 0) as [->|NZ].
    + rewrite rnd_0. apply rnd_nonneg. exact P2.
    + apply rnd_monotone; lia.
Qed.

Lemma valid_real_bound (x : spec_float) :
  valid_binary x = true ->
  - 2 ^ (1024 + bias) < sval x < 2 ^ (1024 + bias).
Proof.
  intros V.
  assert (0 < 2 ^ (1024 + bias)) by (apply pow2_pos; unfold bias; lia).
  destruct x as [s|s| |s m e]; cbn [sval]; try lia.
  cbn [valid_binary] in V. pose proof (bounded_value_lt m e V) as Hlt.
  destruct (bounded_facts m e V) as (He & _).
  assert (0 < Z.pos m * 2 ^ (e + bias))
    by (apply Z.mul_pos_pos; [lia | apply pow2_pos; unfold bias; lia]).
  destruct s; cbn [cond_Zopp]; lia.
Qed.

Lemma rounds_to_real (v : Z) (r : spec_float) :
  rounds_to v r -> is_real r = true -> sval r = srnd v.
Proof.
  destruct r as [s|s| |s m e]; cbn [rounds_to is_real]; intros H R;
    try discriminate; exact H.
Qed.

Lemma SFleb_of_sval (x y : spec_float) :
  valid_binary x = true -> valid_binary y = true ->
  is_real x = true -> is_real y = true ->
  sval x <= sval y -> SFleb x y = true.
Proof.
  intros Vx Vy Rx Ry H. unfold SFleb.
  rewrite (SFcompare_sval x y Vx Vy Rx Ry).
  destruct (Z.compare_spec (sval x) (sval y)); [reflexivity | reflexivity | lia].
Qed.

Lemma sval_of_SFleb (x y : spec_float) :
  valid_binary x = true -> valid_binary y = true ->
  is_real x = true -> is_real y = true ->
  SFleb x y = true -> sval x <= sval y.
Proof.
  intros Vx Vy Rx Ry. unfold SFleb.
  rewrite (SFcompare_sval x y Vx Vy Rx Ry).
  destruct (Z.compare_spec (sval x) (sval y)); [lia | lia | discriminate].
Qed.

(** Rounding is monotone: the results of two exact values in order are in
    order. *)
Lemma rounds_to_monotone (v1 v2 : Z) (r1 r2 : spec_float) :
  rounds_to v1 r1 -> rounds_to v2 r2 ->
  valid_binary r1 = true -> valid_binary r2 = true ->
  v1 <= v2 ->
  SFleb r1 r2 = true.
Proof.
  intros H1 H2 V1 V2 Hv.
  pose proof (srnd_monotone v1 v2 Hv) as Hs.
  pose proof (valid_real_bound r1 V1) as B1.
  pose proof (valid_real_bound r2 V2) as B2.
  destruct (is_real r1) eqn:R1; destruct (is_real r2) eqn:R2.
  - apply SFleb_of_sval; try assumption.
    rewrite (rounds_to_real v1 r1 H1 R1), (rounds_to_real v2 r2 H2 R2).
    exact Hs.
  - rewrite (rounds_to_real v1 r1 H1 R1) in B1.
    destruct r2 as [s2|[]| |s2 m2 e2]; try discriminate;
      cbn [rounds_to] in H2; try contradiction.
    + exfalso. unfold srnd in B1.
      destruct (Z.ltb_spec v1 0) as [N1|P1]; [|lia].
      pose proof (rnd_monotone (- v2) (- v1) ltac:(lia) ltac:(lia)). lia.
    + destruct r1 as [s1|s1| |[] m1 e1]; try discriminate; reflexivity.
  - rewrite (rounds_to_real v2 r2 H2 R2) in B2.
    destruct r1 as [s1|[]| |s1 m1 e1]; try discriminate;
      cbn [rounds_to] in H1; try contradiction.
    + destruct r2 as [s2|s2| |[] m2 e2]; try discriminate; reflexivity.
    + exfalso. unfold srnd in B2.
      destruct (Z.ltb_spec v2 0) as [N2|P2]; [lia|].
      pose proof (rnd_monotone v1 v2 ltac:(lia) ltac:(lia)). lia.
  - destruct r1 as [s1|[]| |s1 m1 e1]; try discriminate;
      destruct r2 as [s2|[]| |s2 m2 e2]; try discriminate;
      cbn [rounds_to] in H1, H2; try contradiction; try reflexivity.
    exfalso. lia.
Qed.

(** *** The arithmetic operations round the exact result *)

Lemma rnd_representable (m : positive) (e : Z) :
  bounded prec emax m e = true ->
  rnd (Z.pos m * 2 ^ (e + bias)) = Z.pos m * 2 ^ (e + bias).
Proof.
  intros H. destruct (bounded_facts m e H) as (He & _).
  assert (Hb : 0 <= e + bias) by (unfold bias; lia).
  pose proof (fexp_cexp m e Hb) as Hc.
  unfold bounded, canonical_mantissa in H.
  apply andb_true_iff in H. destruct H as [Hcan _].
  apply Z.eqb_eq in Hcan. rewrite Hcan in Hc.
  unfold rnd. rewrite <- Hc. rewrite rne_exact by exact Hb. reflexivity.
Qed.

Lemma real_rounds_to_self (x : spec_float) :
  valid_binary x = true -> is_real x = true -> rounds_to (sval x) x.
Proof.
  intros V R. destruct x as [s|s| |s m e]; try discriminate.
  - reflexivity.
  - cbn [valid_binary] in V. cbn [rounds_to sval].
    destruct (bounded_facts m e V) as (He & _).
    pose proof (rnd_representable m e V) as Hr.
    assert (0 < Z.pos m * 2 ^ (e + bias))
      by (apply Z.mul_pos_pos; [lia | apply pow2_pos; unfold bias; lia]).
    unfold srnd. destruct s; cbn [cond_Zopp].
    + destruct (Z.ltb_spec (- (Z.pos m * 2 ^ (e + bias))) 0); [|lia].
      rewrite Z.opp_involutive, Hr. reflexivity.
    + destruct (Z.ltb_spec (Z.pos m * 2 ^ (e + bias)) 0); [lia|].
      rewrite Hr. reflexivity.
Qed.

Lemma aligned_value (s : bool) (m : positive) (e ez : Z) :
  ez <= e -> 0 <= ez + bias ->
  cond_Zopp s (Z.pos (fst (shl_align m e ez))) * 2 ^ (ez + bias)
  = sval (S754_finite s m e).
Proof.
  intros Hle Hb.
  pose proof (shl_align_value m e ez) as H.
  destruct (shl_align m e ez) as [mz ez']. destruct H as [Hez Hmz].
  cbn [fst sval]. rewrite Hmz.
  replace (e - ez') with (e - ez) by lia.
  assert (Hp : Z.pos m * 2 ^ (e - ez) * 2 ^ (ez + bias)
               = Z.pos m * 2 ^ (e + bias)).
  { rewrite <- Z.mul_assoc, <- Z.pow_add_r by lia. do 2 f_equal. lia. }
  destruct s; cbn [cond_Zopp]; lia.
Qed.

Lemma SFadd_rounds (x y : spec_float) :
  valid_binary x = true -> valid_binary y = true ->
  is_real x = true -> is_real y = true ->
  rounds_to (sval x + sval y) (SFadd prec emax x y).
Proof.
  intros Vx Vy Rx Ry.
  destruct x as [sx|sx| |sx mx ex]; try discriminate;
    destruct y as [sy|sy| |sy my ey]; try discriminate.
  - destruct sx, sy; reflexivity.
  - cbn [SFadd]. change (sval (S754_zero sx)) with 0. rewrite Z.add_0_l.
    apply real_rounds_to_self; assumption.
  - cbn [SFadd]. change (sval (S754_zero sy)) with 0. rewrite Z.add_0_r.
    apply real_rounds_to_self; assumption.
  - cbn [valid_binary] in Vx, Vy.
    destruct (bounded_facts mx ex Vx) as (Hex & _).
    destruct (bounded_facts my ey Vy) as (Hey & _).
    cbn [SFadd].
    set (ez := Z.min ex ey).
    assert (Hb : 0 <= ez + bias) by (unfold ez, bias; lia).
    rewrite <- (aligned_value sx mx ex ez) by (unfold ez; lia).
    rewrite <- (aligned_value sy my ey ez) by (unfold ez; lia).
    rewrite <- Z.mul_add_distr_r.
    apply binary_normalize_rounds. exact Hb.
Qed.

Lemma SFsub_rounds (x y : spec_float) :
  valid_binary x = true -> valid_binary y = true ->
  is_real x = true -> is_real y = true ->
  rounds_to (sval x - sval y) (SFsub prec emax x y).
Proof.
  intros Vx Vy Rx Ry.
  destruct x as [sx|sx| |sx mx ex]; try discriminate;
    destruct y as [sy|sy| |sy my ey]; try discriminate.
  - destruct sx, sy; reflexivity.
  - cbn [SFsub]. change (sval (S754_zero sx)) with 0. rewrite Z.sub_0_l.
    replace (- sval (S754_finite sy my ey))
      with (sval (S754_finite (negb sy) my ey))
      by (cbn [sval]; destruct sy; cbn [negb cond_Zopp]; lia).
    apply real_rounds_to_self; [exact Vy | reflexivity].
  - cbn [SFsub]. change (sval (S754_zero sy)) with 0. rewrite Z.sub_0_r.
    apply real_rounds_to_self; assumption.
  - cbn [valid_binary] in Vx, Vy.
    destruct (bounded_facts mx ex Vx) as (Hex & _).
    destruct (bounded_facts my ey Vy) as (Hey & _).
    cbn [SFsub].
    set (ez := Z.min ex ey).
    assert (Hb : 0 <= ez + bias) by (unfold ez, bias; lia).
    rewrite <- (aligned_value sx mx ex ez) by (unfold ez; lia).
    rewrite <- (aligned_value sy my ey ez) by (unfold ez; lia).
    rewrite <- Z.mul_sub_distr_r.
    apply binary_normalize_rounds. exact Hb.
Qed.

Lemma digits_mul_lower (a b : Z) :
  0 < a -> 0 < b -> digits a + digits b - 1 <= digits (a * b).
Proof.
  intros Ha Hb.
  destruct (digits_bounds a Ha) as [La _].
  destruct (digits_bounds b Hb) as [Lb _].
  pose proof (digits_pos a Ha). pose proof (digits_pos b Hb).
  assert (Hp : 2 ^ (digits a - 1 + (digits b - 1)) <= a * b).
  { rewrite Z.pow_add_r by lia.
    apply Z.mul_le_mono_nonneg; try assumption;
      apply Z.lt_le_incl, pow2_pos; lia. }
  pose proof (Z.log2_le_mono _ _ Hp) as Hl.
  rewrite Z.log2_pow2 in Hl by lia.
  unfold digits at 3. lia.
Qed.

Lemma SFmul_rounds (x y : spec_float) :
  valid_binary x = true -> valid_binary y = true ->
  is_real x = true -> is_real y = true ->
  exists v, v * 2 ^ bias = sval x * sval y /\
            rounds_to v (SFmul prec emax x y).
Proof.
  intros Vx Vy Rx Ry.
  destruct x as [sx|sx| |sx mx ex]; try discriminate;
    destruct y as [sy|sy| |sy my ey]; try discriminate;
    try (exists 0; split; [cbn [sval]; lia | reflexivity]).
  cbn [valid_binary] in Vx, Vy.
  destruct (bounded_facts mx ex Vx) as (Hex & Hdx & Hnx).
  destruct (bounded_facts my ey Vy) as (Hey & Hdy & Hny).
  exists (cond_Zopp (xorb sx sy) (Z.pos (mx * my) * 2 ^ (ex + ey + bias))).
  split.
  - cbn [sval]. rewrite Pos2Z.inj_mul.
    assert (E : Z.pos mx * Z.pos my * 2 ^ (ex + ey + bias) * 2 ^ bias
                = Z.pos mx * 2 ^ (ex + bias) * (Z.pos my * 2 ^ (ey + bias))).
    { replace (ex + ey + bias) with (ex + bias + (ey + bias) - bias) by lia.
      transitivity (Z.pos mx * Z.pos my
                    * (2 ^ (ex + bias + (ey + bias) - bias) * 2 ^ bias));
        [ring|].
      rewrite <- Z.pow_add_r by (unfold bias; lia).
      replace (ex + bias + (ey + bias) - bias + bias)
        with (ex + bias + (ey + bias)) by lia.
      rewrite Z.pow_add_r by (unfold bias; lia). ring. }
    destruct sx, sy; cbn [xorb cond_Zopp]; lia.
  - cbn [SFmul]. apply rounds_to_sign.
    + apply Z.mul_pos_pos; [lia | apply pow2_pos; unfold bias; lia].
    + apply binary_round_aux_value; [unfold bias; lia|].
      rewrite digits2_pos_log2, Pos2Z.inj_mul.
      pose proof (digits_mul_lower (Z.pos mx) (Z.pos my) ltac:(lia) ltac:(lia)).
      pose proof (digits_pos (Z.pos mx) ltac:(lia)).
      pose proof (digits_pos (Z.pos my) ltac:(lia)).
      unfold fexp, SpecFloat.emin, prec, emax. lia.
Qed.

(** *** Division by a number that is at least 4 does not overflow *)



Lemma shr_record_of_loc_m (m : Z) (l : location) :
  shr_m (shr_record_of_loc m l) = m.
Proof. destruct l as [|[]]; reflexivity. Qed.









(** *** The primitive operations *)

Local Open Scope float_scope.

Lemma is_finite_real (x : float) :
  PrimFloat.is_finite x = true <-> is_real (Prim2SF x) = true.
Proof.
  unfold PrimFloat.is_finite, PrimFloat.is_nan, PrimFloat.is_infinity.
  rewrite !eqb_spec, abs_spec.
  change (Prim2SF infinity) with (S754_infinity false).
  destruct (Prim2SF x) as [s|s| |s m e]; cbn [SFabs is_real].
  - split; reflexivity.
  - split; intros H; try discriminate. destruct s; discriminate.
  - split; discriminate.
  - unfold SFeqb at 1. rewrite SFcompare_refl_finite. split; reflexivity.
Qed.

Lemma rounds_to_not_nan (v : Z) (r : spec_float) :
  rounds_to v r -> r <> S754_nan.
Proof. intros H ->. exact H. Qed.

Lemma SFleb_neg_infinity (r : spec_float) :
  r <> S754_nan -> SFleb (S754_infinity true) r = true.
Proof. destruct r as [s|[]| |[] m e]; intros H; try reflexivity. congruence. Qed.

Lemma SFleb_pos_infinity (r : spec_float) :
  r <> S754_nan -> SFleb r (S754_infinity false) = true.
Proof. destruct r as [s|[]| |[] m e]; intros H; try reflexivity. congruence. Qed.

Lemma SFsub_monotone (x a b : spec_float) :
  valid_binary x = true -> valid_binary a = true -> valid_binary b = true ->
  valid_binary (SFsub prec emax x a) = true ->
  valid_binary (SFsub prec emax x b) = true ->
  is_real x = true ->
  SFleb a b = true ->
  SFleb (SFsub prec emax x b) (SFsub prec emax x a) = true.
Proof.
  intros Vx Va Vb Vxa Vxb Rx Hab.
  destruct (is_real a) eqn:Ra; destruct (is_real b) eqn:Rb.
  - apply (rounds_to_monotone (sval x - sval b) (sval x - sval a));
      try assumption; try (apply SFsub_rounds; assumption).
    pose proof (sval_of_SFleb a b Va Vb Ra Rb Hab). lia.
  - destruct b as [sb|[]| |sb mb eb]; try discriminate.
    + destruct a as [sa|sa| |sa ma ea]; discriminate.
    + replace (SFsub prec emax x (S754_infinity false))
        with (S754_infinity true)
        by (destruct x as [sx|sx| |sx mx ex]; try discriminate; reflexivity).
      apply SFleb_neg_infinity.
      apply (rounds_to_not_nan (sval x - sval a)).
      apply SFsub_rounds; assumption.
    + destruct a as [sa|sa| |sa ma ea]; discriminate.
  - destruct a as [sa|[]| |sa ma ea]; try discriminate.
    + replace (SFsub prec emax x (S754_infinity true))
        with (S754_infinity false)
        by (destruct x as [sx|sx| |sx mx ex]; try discriminate; reflexivity).
      apply SFleb_pos_infinity.
      apply (rounds_to_not_nan (sval x - sval b)).
      apply SFsub_rounds; assumption.
    + destruct b as [sb|sb| |[] mb eb]; discriminate.
  - destruct x as [sx|sx| |sx mx ex]; try discriminate;
      destruct a as [sa|[]| |sa ma ea]; try discriminate;
      destruct b as [sb|[]| |sb mb eb]; try discriminate; reflexivity.
Qed.

Lemma SFadd_monotone (x a b : spec_float) :
  valid_binary x = true -> valid_binary a = true -> valid_binary b = true ->
  valid_binary (SFadd prec emax x a) = true ->
  valid_binary (SFadd prec emax x b) = true ->
  is_real x = true ->
  SFleb a b = true ->
  SFleb (SFadd prec emax x a) (SFadd prec emax x b) = true.
Proof.
  intros Vx Va Vb Vxa Vxb Rx Hab.
  destruct (is_real a) eqn:Ra; destruct (is_real b) eqn:Rb.
  - apply (rounds_to_monotone (sval x + sval a) (sval x + sval b));
      try assumption; try (apply SFadd_rounds; assumption).
    pose proof (sval_of_SFleb a b Va Vb Ra Rb Hab). lia.
  - destruct b as [sb|[]| |sb mb eb]; try discriminate.
    + destruct a as [sa|sa| |sa ma ea]; discriminate.
    + replace (SFadd prec emax x (S754_infinity false))
        with (S754_infinity false)
        by (destruct x as [sx|sx| |sx mx ex]; try discriminate; reflexivity).
      apply SFleb_pos_infinity.
      apply (rounds_to_not_nan (sval x + sval a)).
      apply SFadd_rounds; assumption.
    + destruct a as [sa|sa| |sa ma ea]; discriminate.
  - destruct a as [sa|[]| |sa ma ea]; try discriminate.
    + replace (SFadd prec emax x (S754_infinity true))
        with (S754_infinity true)
        by (destruct x as [sx|sx| |sx mx ex]; try discriminate; reflexivity).
      apply SFleb_neg_infinity.
      apply (rounds_to_not_nan (sval x + sval b)).
      apply SFadd_rounds; assumption.
    + destruct b as [sb|sb| |[] mb eb]; discriminate.
  - destruct x as [sx|sx| |sx mx ex]; try discriminate;
      destruct a as [sa|[]| |sa ma ea]; try discriminate;
      destruct b as [sb|[]| |sb mb eb]; try discriminate; reflexivity.
Qed.

Lemma SFmul_monotone (x y d : spec_float) :
  valid_binary x = true -> valid_binary y = true -> valid_binary d = true ->
  valid_binary (SFmul prec emax x d) = true ->
  valid_binary (SFmul prec emax y d) = true ->
  is_real x = true -> is_real y = true -> is_real d = true ->
  0 <= sval d -> sval x <= sval y ->
  SFleb (SFmul prec emax x d) (SFmul prec emax y d) = true.
Proof.
  intros Vx Vy Vd Vxd Vyd Rx Ry Rd Hd Hxy.
  destruct (SFmul_rounds x d Vx Vd Rx Rd) as (v1 & E1 & H1).
  destruct (SFmul_rounds y d Vy Vd Ry Rd) as (v2 & E2 & H2).
  apply (rounds_to_monotone v1 v2); try assumption.
  assert (Hp : 0 < 2 ^ bias) by (apply pow2_pos; unfold bias; lia).
  assert (v1 * 2 ^ bias <= v2 * 2 ^ bias) by (rewrite E1, E2; nia).
  nia.
Qed.

Lemma sub_monotone (t a b : float) :
  PrimFloat.is_finite t = true ->
  (a <=? b) = true ->
  (t - b <=? t - a) = true.
Proof.
  intros Ht Hab. rewrite leb_spec in *. rewrite !sub_spec.
  apply SFsub_monotone; try apply Prim2SF_valid; try assumption.
  - rewrite <- sub_spec. apply Prim2SF_valid.
  - rewrite <- sub_spec. apply Prim2SF_valid.
  - apply is_finite_real, Ht.
Qed.

Lemma add_monotone (t a b : float) :
  PrimFloat.is_finite t = true ->
  (a <=? b) = true ->
  (t + a <=? t + b) = true.
Proof.
  intros Ht Hab. rewrite leb_spec in *. rewrite !add_spec.
  apply SFadd_monotone; try apply Prim2SF_valid; try assumption.
  - rewrite <- add_spec. apply Prim2SF_valid.
  - rewrite <- add_spec. apply Prim2SF_valid.
  - apply is_finite_real, Ht.
Qed.

Lemma nonneg_sval (x : float) :
  PrimFloat.is_finite x = true -> (0 <=? x) = true -> 0 <= sval (Prim2SF x).
Proof.
  intros Hx H. rewrite leb_spec in H.
  apply is_finite_real in Hx.
  change 0%Z with (sval (Prim2SF 0)).
  apply sval_of_SFleb; try apply Prim2SF_valid; try assumption. reflexivity.
Qed.

Lemma mul_monotone (x y d : float) :
  PrimFloat.is_finite x = true -> PrimFloat.is_finite y = true ->
  PrimFloat.is_finite d = true ->
  (0 <=? d) = true -> (x <=? y) = true ->
  (x * d <=? y * d) = true.
Proof.
  intros Hx Hy Hd H0 Hxy. rewrite leb_spec. rewrite !mul_spec.
  pose proof (nonneg_sval d Hd H0) as Hs.
  rewrite leb_spec in Hxy.
  apply is_finite_real in Hx, Hy, Hd.
  apply SFmul_monotone; try apply Prim2SF_valid; try assumption.
  - rewrite <- mul_spec. apply Prim2SF_valid.
  - rewrite <- mul_spec. apply Prim2SF_valid.
  - apply sval_of_SFleb; try apply Prim2SF_valid; assumption.
Qed.







End Binary64Rounding.

(** ** Comparisons of binary64 values *)

(** A Number below zero is neither a zero nor NaN: it is truthy. *)
Lemma negative_is_truthy (x : float) :
  (x <? 0) = true -> JS.ToBoolean x = true.
Proof.
  intros H. unfold JS.ToBoolean, PrimFloat.is_zero, PrimFloat.is_nan.
  rewrite ltb_spec in H. rewrite !eqb_spec.
  change (Prim2SF 0) with (S754_zero false) in *.
  unfold SFltb in H. unfold SFeqb.
  destruct (Prim2SF x) as [sx|sx| |sx m e]; simpl in H; try discriminate.
  - destruct sx; [reflexivity | discriminate].
  - rewrite SFcompare_refl_finite. destruct sx; [reflexivity | discriminate].
Qed.

(** Dividing by NaN gives NaN. *)
Lemma div_nan_r (x : float) : x / nan = nan.
Proof.
  apply Prim2SF_inj. rewrite div_spec.
  change (Prim2SF nan) with S754_nan.
  destruct (Prim2SF x); reflexivity.
Qed.

(** ** Exhaustive checks over the slider positions *)

Lemma on_coefficient_grid_spec (check : float -> float -> float -> bool) :
  on_coefficient_grid check = true ->
  forall (config : Config) (mat : Material),
    In mat materials ->
    In (flow config) flow_positions ->
    In (fouling config) fouling_positions ->
    check (k mat) (flow config) (fouling config) = true.
Proof.
  unfold on_coefficient_grid. intros H config mat Hm Hfl Hfo.
  rewrite forallb_forall in H. specialize (H mat Hm).
  rewrite forallb_forall in H. specialize (H (flow config) Hfl).
  rewrite forallb_forall in H. exact (H (fouling config) Hfo).
Qed.

Lemma check_U_on_grid : on_coefficient_grid check_U = true.
Proof. vm_compute. reflexivity. Qed.

Lemma check_Efficiency_on_grid : on_coefficient_grid check_Efficiency = true.
Proof. vm_compute. reflexivity. Qed.

Lemma zero_on_fouling_slider : In 0 fouling_positions.
Proof. left. reflexivity. Qed.

(** ** Array indices as Numbers *)



Section EngineFacts.

Variable Math_log : float -> float.
Variable Number_toString : float -> string.

Local Abbreviation physics := (App.physics Math_log Number_toString).
Local Abbreviation LMTD_of := (App.LMTD_of Math_log).
Local Abbreviation Q_of := (App.Q_of Math_log).
Local Abbreviation sampleAt := (App.sampleAt Number_toString).

(** The memo always returns, and what it returns. *)
Lemma physics_returns (config : Config) (mat : Material) :
  physics config mat =
  Normal {| Q := Q_of config mat;
            LMTD := LMTD_of config;
            U := U_of config mat;
            data := map (sampleAt config (Q_of config mat)) (seq 0 11);
            Efficiency := Efficiency_of config mat |}.
Proof.
  unfold App.physics, JS.Array_from.
  rewrite (from_indices_total _ (sampleAt config (Q_of config mat))).
  - reflexivity.
  - intros i. rewrite !toFixed_in_range by lia. reflexivity.
Qed.

Lemma nth_error_samples (config : Config) (q : float) (i : nat) :
  (i <= 10)%nat ->
  nth_error (map (sampleAt config q) (seq 0 11)) i = Some (sampleAt config q i).
Proof.
  intros Hi. rewrite nth_error_map, nth_error_seq.
  destruct (Nat.ltb_spec i 11) as [_|H]; [reflexivity | lia].
Qed.

(** C1. For every configuration and material the engine computes the clean
    coefficient as [(k / 0.05) * (flow / 50)], the overall coefficient as
    [1 / ((1 / U0) + fouling)] and the heat duty as
    [(U * area * LMTD) / 1000], in binary64 arithmetic and in exactly this
    association. *)
Theorem physics_formulas (config : Config) (mat : Material) :
  exists p,
    physics config mat = Normal p /\
    cleanU config mat = Spec.cleanCoefficient_U0 (k mat) (flow config) /\
    U p = Spec.overallCoefficient_U
            (Spec.cleanCoefficient_U0 (k mat) (flow config)) (fouling config) /\
    Q p = Spec.heatDuty_kW (U p) (areaOverride config) (LMTD p).
Proof.
  eexists. split; [apply physics_returns|].
  repeat split.
Qed.

(** C6. The temperature profile has exactly 11 entries, their [dist] runs
    through 0, 1, ..., 10 in order, and entry [i] holds
    [tempIn - i * (Q / 15)] and [25 + i * (Q / 25)], each formatted by
    [toFixed(1)], that is rounded to one decimal place. *)
Theorem temperatureProfile_samples (config : Config) (mat : Material) :
  exists p,
    physics config mat = Normal p /\
    List.length (data p) = 11%nat /\
    map dist (data p) = seq 0 11 /\
    forall i, (i <= 10)%nat ->
      nth_error (data p) i =
      Some {| dist := i;
              Hot := JS.toFixed_string Number_toString
                       (Spec.hotTemp_C (tempIn config) (Q p) i) 1;
              Cold := JS.toFixed_string Number_toString
                        (Spec.coldTemp_C (Q p) i) 1 |}.
Proof.
  eexists. split; [apply physics_returns|].
  cbn [data Q]. split; [|split].
  - rewrite length_map, length_seq. reflexivity.
  - rewrite map_map. cbn [App.sampleAt dist]. apply map_id.
  - intros i Hi. rewrite nth_error_samples by exact Hi. reflexivity.
Qed.

(** C7, as the code has it.  The engine validates nothing: for every
    configuration and material, whatever the conductivity, the flow and the
    area are (zero, negative, infinite or NaN included), it returns a
    result and throws no error. *)
Theorem physics_never_throws (config : Config) (mat : Material) :
  exists p, physics config mat = Normal p.
Proof.
  eexists. apply physics_returns.
Qed.

(** C8. Two configurations that differ at most in [model] give the same
    result with the same material. *)
Theorem physics_ignores_model (c1 c2 : Config) (mat : Material) :
  tempIn c1 = tempIn c2 ->
  flow c1 = flow c2 ->
  length c1 = length c2 ->
  radius c1 = radius c2 ->
  areaOverride c1 = areaOverride c2 ->
  fouling c1 = fouling c2 ->
  physics c1 mat = physics c2 mat.
Proof.
  destruct c1, c2; cbn [tempIn flow length radius areaOverride fouling].
  intros -> -> -> -> -> ->. reflexivity.
Qed.

(** *** The argument of the logarithm *)

(** What [||] does to the ratio: only a falsy ratio (a zero or NaN) is
    replaced by 1.1. *)
Lemma log_argument_cases (config : Config) :
  log_argument config =
  (if ((tempIn config - 25) / 15 =? 0)
      || PrimFloat.is_nan ((tempIn config - 25) / 15)
   then 1.1 else (tempIn config - 25) / 15).
Proof.
  unfold log_argument, JS.or, JS.ToBoolean.
  change (PrimFloat.is_zero ((tempIn config - 25) / 15))
    with ((tempIn config - 25) / 15 =? 0).
  destruct (((tempIn config - 25) / 15 =? 0)
            || PrimFloat.is_nan ((tempIn config - 25) / 15)); reflexivity.
Qed.

(** At an inlet temperature of exactly 25 the ratio is zero and the
    logarithm is taken of 1.1. *)
Lemma log_argument_at_25 (config : Config) :
  tempIn config = 25 -> log_argument config = 1.1.
Proof.
  intros H. unfold log_argument. rewrite H. reflexivity.
Qed.

(** For every negative ratio the logarithm is taken of the ratio itself. *)
Lemma log_argument_negative (config : Config) :
  ((tempIn config - 25) / 15 <? 0) = true ->
  log_argument config = (tempIn config - 25) / 15.
Proof.
  intros H. unfold log_argument, JS.or.
  rewrite (negative_is_truthy _ H). reflexivity.
Qed.

(** So a negative ratio makes [LMTD] NaN as soon as the logarithm of that
    ratio is NaN, which ECMAScript requires of [Math.log]. *)
Lemma LMTD_of_negative_ratio (config : Config) :
  ((tempIn config - 25) / 15 <? 0) = true ->
  Math_log ((tempIn config - 25) / 15) = nan ->
  LMTD_of config = nan.
Proof.
  intros Hneg Hlog. unfold App.LMTD_of.
  rewrite (log_argument_negative config Hneg), Hlog. apply div_nan_r.
Qed.

(** At an inlet temperature of 40 the ratio is 1, and [LMTD] is [0 / 0] as
    soon as [Math.log(1)] is [+0], which ECMAScript requires. *)
Lemma LMTD_of_at_40 (config : Config) :
  tempIn config = 40 ->
  Math_log 1 = 0 ->
  LMTD_of config = nan.
Proof.
  intros Ht Hlog. unfold App.LMTD_of, App.log_argument. rewrite Ht.
  change (JS.or ((40 - 25) / 15) 1.1) with 1.
  rewrite Hlog. reflexivity.
Qed.

(** C2, at the input where the code breaks it.  With the inlet temperature at
    40, the lower end of its slider, the ratio is 1, [Math.log(1)] is [+0]
    and [LMTD] is [0 / 0]: the result carries NaN in [LMTD], in [Q] and in
    all 22 formatted temperatures. *)
Theorem physics_at_tempIn_40 :
  Math_log 1 = 0 ->
  physics (setKey initialConfig KtempIn 40) initialMat =
  Normal {| Q := nan;
            LMTD := nan;
            U := 1334.4425956738769;
            data := map (fun i => {| dist := i; Hot := "NaN"; Cold := "NaN" |})
                        (seq 0 11);
            Efficiency := 33.277870216306155 |}.
Proof.
  intros Hlog. rewrite physics_returns. unfold App.Q_of.
  rewrite (LMTD_of_at_40 (setKey initialConfig KtempIn 40) eq_refl Hlog).
  vm_compute. reflexivity.
Qed.

(** C3, at the input where the code breaks it.  With an inlet temperature of
    10 the ratio is -1; [||] keeps it, because a negative Number is truthy,
    [Math.log(-1)] is NaN, and so are [LMTD], [Q] and the formatted
    temperatures. *)
Theorem physics_at_tempIn_10 :
  Math_log (-1) = nan ->
  log_argument (setKey initialConfig KtempIn 10) = -1 /\
  physics (setKey initialConfig KtempIn 10) initialMat =
  Normal {| Q := nan;
            LMTD := nan;
            U := 1334.4425956738769;
            data := map (fun i => {| dist := i; Hot := "NaN"; Cold := "NaN" |})
                        (seq 0 11);
            Efficiency := 33.277870216306155 |}.
Proof.
  intros Hlog. split; [reflexivity|].
  rewrite physics_returns. unfold App.Q_of.
  rewrite (LMTD_of_negative_ratio (setKey initialConfig KtempIn 10) eq_refl Hlog).
  vm_compute. reflexivity.
Qed.

(** C4, as the code has it.  On every configuration the configurator can
    produce, with a catalog material: when the fouling factor is positive,
    [U] is strictly below the clean coefficient; when it is zero, [U] is
    [1 / (1 / cleanU)], which is the clean coefficient or one of its two
    binary64 neighbours. *)
Theorem U_against_cleanU_on_sliders (config : Config) (mat : Material) :
  OnSliders config mat ->
  exists p,
    physics config mat = Normal p /\
    ((0 <? fouling config) = true -> (U p <? cleanU config mat) = true) /\
    ((fouling config =? 0) = true ->
     (U p =? cleanU config mat) = true \/
     (U p =? next_up (cleanU config mat)) = true \/
     (U p =? next_down (cleanU config mat)) = true).
Proof.
  intros [Hm _ Hfl _ Hfo].
  eexists. split; [apply physics_returns|]. cbn [U].
  pose proof (on_coefficient_grid_spec check_U check_U_on_grid
                config mat Hm Hfl Hfo) as H.
  unfold check_U in H. fold (cleanU config mat) in H.
  fold (U_of config mat) in H.
  apply andb_true_iff in H. destruct H as [Hpos Hzero].
  split.
  - intros Hf. rewrite Hf in Hpos. exact Hpos.
  - intros Hf. rewrite Hf in Hzero. cbn [implb] in Hzero.
    apply orb_true_iff in Hzero. destruct Hzero as [Hzero|Hdown].
    + apply orb_true_iff in Hzero. destruct Hzero as [Heq|Hup]; auto.
    + auto.
Qed.

(** C5, as the code has it.  For every configuration and material, on the
    sliders or off them, [Efficiency] is [(U / cleanU) * 100].  On every
    configuration the configurator can produce, with a catalog material: it
    lies strictly between 0 and 100 when the fouling factor is positive, and
    when the fouling factor is zero it is one of 99.99999999999999, 100 and
    100.00000000000003. *)
Theorem Efficiency_on_sliders (config : Config) (mat : Material) :
  exists p,
    physics config mat = Normal p /\
    Efficiency p = Spec.efficiency_pct (U p) (cleanU config mat) /\
    (OnSliders config mat ->
     ((0 <? fouling config) = true ->
      (0 <? Efficiency p) = true /\ (Efficiency p <? 100) = true) /\
     ((fouling config =? 0) = true ->
      (Efficiency p =? 100) = true \/
      (Efficiency p =? 99.99999999999999) = true \/
      (Efficiency p =? 100.00000000000003) = true)).
Proof.
  eexists. split; [apply physics_returns|]. cbn [U Efficiency].
  split; [reflexivity|].
  intros [Hm _ Hfl _ Hfo].
  pose proof (on_coefficient_grid_spec check_Efficiency check_Efficiency_on_grid
                config mat Hm Hfl Hfo) as H.
  unfold check_Efficiency in H. fold (cleanU config mat) in H.
  fold (U_of config mat) in H. fold (Efficiency_of config mat) in H.
  apply andb_true_iff in H. destruct H as [Hpos Hzero].
  split.
  - intros Hf. rewrite Hf in Hpos. cbn [implb] in Hpos.
    apply andb_true_iff in Hpos. exact Hpos.
  - intros Hf. rewrite Hf in Hzero. cbn [implb] in Hzero.
    apply orb_true_iff in Hzero. destruct Hzero as [Hzero|Hup].
    + apply orb_true_iff in Hzero. destruct Hzero as [Heq|Hdown]; auto.
    + auto.
Qed.

(** C9, as the code has it.  For every configuration, on the sliders or off
    them and whatever its fouling factor, CLEAN SYSTEM sets [fouling] to 0
    and keeps every other field.  On every configuration the configurator
    can produce with a positive fouling factor, the efficiency recomputed
    after the reset is one of 99.99999999999999, 100 and
    100.00000000000003. *)
Theorem cleanSystem_on_sliders (config : Config) (mat : Material) :
  fouling (cleanSystem config) = 0 /\
  model (cleanSystem config) = model config /\
  tempIn (cleanSystem config) = tempIn config /\
  flow (cleanSystem config) = flow config /\
  length (cleanSystem config) = length config /\
  radius (cleanSystem config) = radius config /\
  areaOverride (cleanSystem config) = areaOverride config /\
  (OnSliders config mat ->
   (0 <? fouling config) = true ->
   exists p,
     physics (cleanSystem config) mat = Normal p /\
     ((Efficiency p =? 100) = true \/
      (Efficiency p =? 99.99999999999999) = true \/
      (Efficiency p =? 100.00000000000003) = true)).
Proof.
  repeat (split; [reflexivity|]).
  intros [Hm _ Hfl _ _] _.
  eexists. split; [apply physics_returns|]. cbn [Efficiency].
  pose proof (on_coefficient_grid_spec check_Efficiency check_Efficiency_on_grid
                (cleanSystem config) mat Hm Hfl zero_on_fouling_slider) as H.
  unfold check_Efficiency in H. fold (cleanU (cleanSystem config) mat) in H.
  fold (U_of (cleanSystem config) mat) in H.
  fold (Efficiency_of (cleanSystem config) mat) in H.
  apply andb_true_iff in H. destruct H as [_ Hzero].
  change (fouling (cleanSystem config) =? 0) with true in Hzero.
  cbn [implb] in Hzero.
  apply orb_true_iff in Hzero. destruct Hzero as [Hzero|Hup].
  - apply orb_true_iff in Hzero. destruct Hzero as [Heq|Hdown]; auto.
  - auto.
Qed.



End EngineFacts.

(** ** The engine on concrete inputs, with the reference host *)

(** Membership in a list of slider positions, by evaluation. *)
Ltac on_slider :=
  vm_compute; repeat (first [left; reflexivity | right]).

(** The initial state is one the configurator can produce. *)
Lemma initial_OnSliders : OnSliders initialConfig initialMat.
Proof. constructor; on_slider. Defined.

(** The initial state: what the page shows when it loads. *)
Example physics_initial :
  App.physics Host.Math_log Host.Number_toString initialConfig initialMat =
  Normal {| Q := 682.53880233617815;
            LMTD := 34.098571920535584;
            U := 1334.4425956738769;
            data :=
              [ {| dist := 0; Hot := "90.0"; Cold := "25.0" |};
                {| dist := 1; Hot := "44.5"; Cold := "52.3" |};
                {| dist := 2; Hot := "-1.0"; Cold := "79.6" |};
                {| dist := 3; Hot := "-46.5"; Cold := "106.9" |};
                {| dist := 4; Hot := "-92.0"; Cold := "134.2" |};
                {| dist := 5; Hot := "-137.5"; Cold := "161.5" |};
                {| dist := 6; Hot := "-183.0"; Cold := "188.8" |};
                {| dist := 7; Hot := "-228.5"; Cold := "216.1" |};
                {| dist := 8; Hot := "-274.0"; Cold := "243.4" |};
                {| dist := 9; Hot := "-319.5"; Cold := "270.7" |};
                {| dist := 10; Hot := "-365.0"; Cold := "298.0" |} ];
            Efficiency := 33.277870216306155 |}.
Proof. vm_compute. reflexivity. Qed.

(** The fallback at work: at an inlet temperature of 25 the ratio is zero,
    the logarithm is taken of 1.1 and [LMTD] is [-15 / Math.log(1.1)]. *)
Example LMTD_at_tempIn_25 :
  log_argument (setKey initialConfig KtempIn 25) = 1.1 /\
  App.LMTD_of Host.Math_log (setKey initialConfig KtempIn 25)
  = -157.38088030885592.
Proof. split; reflexivity. Qed.

(** [physics_at_tempIn_40] on the reference host, whose logarithm of 1 is [+0]. *)
Lemma physics_at_tempIn_40_witness :
  Host.Math_log 1 = 0 /\
  App.physics Host.Math_log Host.Number_toString
    (setKey initialConfig KtempIn 40) initialMat =
  Normal {| Q := nan;
            LMTD := nan;
            U := 1334.4425956738769;
            data := map (fun i => {| dist := i; Hot := "NaN"; Cold := "NaN" |})
                        (seq 0 11);
            Efficiency := 33.277870216306155 |}.
Proof.
  split; [reflexivity|].
  apply (physics_at_tempIn_40 Host.Math_log Host.Number_toString).
  reflexivity.
Defined.

(** [physics_at_tempIn_10] on the reference host, whose logarithm of -1 is NaN. *)
Lemma physics_at_tempIn_10_witness :
  Host.Math_log (-1) = nan /\
  log_argument (setKey initialConfig KtempIn 10) = -1 /\
  App.physics Host.Math_log Host.Number_toString
    (setKey initialConfig KtempIn 10) initialMat =
  Normal {| Q := nan;
            LMTD := nan;
            U := 1334.4425956738769;
            data := map (fun i => {| dist := i; Hot := "NaN"; Cold := "NaN" |})
                        (seq 0 11);
            Efficiency := 33.277870216306155 |}.
Proof.
  split; [reflexivity|].
  apply (physics_at_tempIn_10 Host.Math_log Host.Number_toString).
  reflexivity.
Defined.

(** [physics_ignores_model] on the initial state and the same state with the
    Plate model selected. *)
Lemma physics_ignores_model_witness :
  App.physics Host.Math_log Host.Number_toString initialConfig initialMat =
  App.physics Host.Math_log Host.Number_toString
    (setModel initialConfig Plate) initialMat.
Proof.
  apply (physics_ignores_model Host.Math_log Host.Number_toString
           initialConfig (setModel initialConfig Plate) initialMat);
    reflexivity.
Defined.

(** C4 fails on the initial state once CLEAN SYSTEM is pressed: the clean
    coefficient is 4010 and [U] is the next binary64 value above it. *)
Lemma U_above_cleanU_when_clean :
  exists p,
    App.physics Host.Math_log Host.Number_toString
      (cleanSystem initialConfig) initialMat = Normal p /\
    fouling (cleanSystem initialConfig) = 0 /\
    cleanU (cleanSystem initialConfig) initialMat = 4010 /\
    1 / 4010 = 0.00024937655860349125 /\
    1 / (0.00024937655860349125 + 0) = 4010.0000000000005 /\
    U p = 4010.0000000000005 /\
    (U p <=? cleanU (cleanSystem initialConfig) initialMat) = false /\
    (U p =? cleanU (cleanSystem initialConfig) initialMat) = false.
Proof.
  eexists. split; [apply physics_returns|].
  repeat split.
Qed.

(** [U_against_cleanU_on_sliders] on the initial state. *)
Lemma U_against_cleanU_on_sliders_witness :
  OnSliders initialConfig initialMat /\
  exists p,
    App.physics Host.Math_log Host.Number_toString initialConfig initialMat
    = Normal p /\
    ((0 <? fouling initialConfig) = true ->
     (U p <? cleanU initialConfig initialMat) = true) /\
    ((fouling initialConfig =? 0) = true ->
     (U p =? cleanU initialConfig initialMat) = true \/
     (U p =? next_up (cleanU initialConfig initialMat)) = true \/
     (U p =? next_down (cleanU initialConfig initialMat)) = true).
Proof.
  split; [exact initial_OnSliders|].
  apply (U_against_cleanU_on_sliders Host.Math_log Host.Number_toString
           initialConfig initialMat).
  exact initial_OnSliders.
Defined.

(** C5 fails with a clean exchanger at a flow of 50: the efficiency is above
    100, and not 100 although the fouling factor is zero. *)
Lemma Efficiency_above_100_when_clean :
  exists p,
    App.physics Host.Math_log Host.Number_toString
      (setKey (setKey initialConfig Kflow 50) Kfouling 0) initialMat
    = Normal p /\
    cleanU (setKey (setKey initialConfig Kflow 50) Kfouling 0) initialMat
    = 8020 /\
    U p = 8020.0000000000009 /\
    8020.0000000000009 / 8020 = 1.0000000000000002 /\
    Efficiency p = 100.00000000000003 /\
    (Efficiency p <=? 100) = false /\
    (Efficiency p =? 100) = false.
Proof.
  eexists. split; [apply physics_returns|].
  repeat split.
Qed.

(** [Efficiency_on_sliders] on the initial state. *)
Lemma Efficiency_on_sliders_witness :
  OnSliders initialConfig initialMat /\
  exists p,
    App.physics Host.Math_log Host.Number_toString initialConfig initialMat
    = Normal p /\
    Efficiency p = Spec.efficiency_pct (U p) (cleanU initialConfig initialMat) /\
    ((0 <? fouling initialConfig) = true ->
     (0 <? Efficiency p) = true /\ (Efficiency p <? 100) = true) /\
    ((fouling initialConfig =? 0) = true ->
     (Efficiency p =? 100) = true \/
     (Efficiency p =? 99.99999999999999) = true \/
     (Efficiency p =? 100.00000000000003) = true).
Proof.
  split; [exact initial_OnSliders|].
  destruct (Efficiency_on_sliders Host.Math_log Host.Number_toString
              initialConfig initialMat) as (p & Hp & Hformula & Hrange).
  exists p. split; [exact Hp|]. split; [exact Hformula|].
  exact (Hrange initial_OnSliders).
Defined.

(** C7 fails at a flow of zero: the engine returns a result, with a zero
    [U] and NaN for the efficiency. *)
Lemma physics_returns_at_zero_flow :
  exists p,
    App.physics Host.Math_log Host.Number_toString
      (setKey initialConfig Kflow 0) initialMat = Normal p /\
    cleanU (setKey initialConfig Kflow 0) initialMat = 0 /\
    U p = 0 /\
    Q p = 0 /\
    PrimFloat.is_nan (Efficiency p) = true.
Proof.
  eexists. split; [apply physics_returns|].
  repeat split.
Qed.

(** C9 fails on the initial state: its fouling factor is positive, and the
    efficiency recomputed after CLEAN SYSTEM is 100.00000000000003. *)
Lemma Efficiency_after_cleanSystem_initial :
  (0 <? fouling initialConfig) = true /\
  exists p,
    App.physics Host.Math_log Host.Number_toString
      (cleanSystem initialConfig) initialMat = Normal p /\
    fouling (cleanSystem initialConfig) = 0 /\
    U p = 4010.0000000000005 /\
    4010.0000000000005 / 4010 = 1.0000000000000002 /\
    Efficiency p = 100.00000000000003 /\
    (Efficiency p =? 100) = false.
Proof.
  split; [reflexivity|].
  eexists. split; [apply physics_returns|].
  repeat split.
Qed.

(** [cleanSystem_on_sliders] on the initial state. *)
Lemma cleanSystem_on_sliders_witness :
  OnSliders initialConfig initialMat /\
  (0 <? fouling initialConfig) = true /\
  fouling (cleanSystem initialConfig) = 0 /\
  model (cleanSystem initialConfig) = model initialConfig /\
  tempIn (cleanSystem initialConfig) = tempIn initialConfig /\
  flow (cleanSystem initialConfig) = flow initialConfig /\
  length (cleanSystem initialConfig) = length initialConfig /\
  radius (cleanSystem initialConfig) = radius initialConfig /\
  areaOverride (cleanSystem initialConfig) = areaOverride initialConfig /\
  exists p,
    App.physics Host.Math_log Host.Number_toString
      (cleanSystem initialConfig) initialMat = Normal p /\
    ((Efficiency p =? 100) = true \/
     (Efficiency p =? 99.99999999999999) = true \/
     (Efficiency p =? 100.00000000000003) = true).
Proof.
  split; [exact initial_OnSliders|].
  split; [reflexivity|].
  destruct (cleanSystem_on_sliders Host.Math_log Host.Number_toString
              initialConfig initialMat)
    as (H1 & H2 & H3 & H4 & H5 & H6 & H7 & Heff).
  repeat (split; [assumption|]).
  exact (Heff initial_OnSliders eq_refl).
Defined.


(** * Further properties of the page

    The configuration store, the particle engine, the fins and the labels,
    and the engine away from the slider positions.  The order arguments
    need division as well, so the rounding lemmas are first extended to
    quotients. *)

(** ** Division rounds the exact quotient *)

Section QuotientRounding.

Import Binary64.
Import Rational64.
Local Open Scope Z_scope.

(** *** Rounding a quotient to nearest even *)

Lemma rne_div_bounds (n p : Z) :
  0 < p ->
  p * (2 * rne_div n p - 1) <= 2 * n <= p * (2 * rne_div n p + 1) /\
  (2 * n = p * (2 * rne_div n p - 1) -> Z.even (rne_div n p) = true) /\
  (2 * n = p * (2 * rne_div n p + 1) -> Z.even (rne_div n p) = true).
Proof.
  intros Hp. unfold rne_div.
  pose proof (Z.div_mod n p ltac:(lia)) as Hdm.
  pose proof (Z.mod_pos_bound n p Hp) as Hb.
  set (q0 := n / p) in *. set (r := n mod p) in *. clearbody q0 r.
  destruct (Z.compare_spec (2 * r) p) as [C|C|C].
  - destruct (Z.even q0) eqn:Ev.
    + split; [split; nia|]. split; intros _; exact Ev.
    + split; [split; nia|]. split.
      * intros _. rewrite Z.even_add, Ev. reflexivity.
      * intros H. exfalso. nia.
  - split; [split; nia|]. split; intros H; exfalso; nia.
  - split; [split; nia|]. split; intros H; exfalso; nia.
Qed.

Lemma rne_div_monotone (n1 p1 n2 p2 : Z) :
  0 < p1 -> 0 < p2 -> n1 * p2 <= n2 * p1 ->
  rne_div n1 p1 <= rne_div n2 p2.
Proof.
  intros Hp1 Hp2 Hn.
  destruct (rne_div_bounds n1 p1 Hp1) as ((L1 & U1) & E1 & _).
  destruct (rne_div_bounds n2 p2 Hp2) as ((L2 & U2) & _ & E2).
  set (q1 := rne_div n1 p1) in *. set (q2 := rne_div n2 p2) in *.
  clearbody q1 q2.
  destruct (Z_le_gt_dec q1 q2) as [H|H]; [exact H|exfalso].
  assert (A1 : p1 * p2 * (2 * q1 - 1) <= 2 * n1 * p2) by nia.
  assert (A2 : 2 * n2 * p1 <= p1 * p2 * (2 * q2 + 1)) by nia.
  assert (A3 : p1 * p2 * (2 * q2 + 1) <= p1 * p2 * (2 * q1 - 1)) by nia.
  assert (Hq : q1 = q2 + 1) by nia.
  assert (T1 : 2 * n1 = p1 * (2 * q1 - 1)) by nia.
  assert (T2 : 2 * n2 = p2 * (2 * q2 + 1)) by nia.
  specialize (E1 T1). specialize (E2 T2).
  rewrite Hq, Z.even_add, E2 in E1. discriminate.
Qed.

Lemma rne_div_exact (q p : Z) : 0 < p -> rne_div (q * p) p = q.
Proof.
  intros Hp. unfold rne_div.
  rewrite Z.mod_mul, Z.div_mul by lia.
  destruct (Z.compare_spec (2 * 0) p); [lia | reflexivity | lia].
Qed.

Lemma rne_div_scale (n p k : Z) :
  0 < p -> 0 < k -> rne_div (n * k) (p * k) = rne_div n p.
Proof.
  intros Hp Hk. unfold rne_div.
  rewrite Z.div_mul_cancel_r by lia.
  rewrite Z.mul_mod_distr_r by lia.
  set (r := n mod p).
  destruct (Z.compare_spec (2 * r) p) as [C|C|C];
    destruct (Z.compare_spec (2 * (r * k)) (p * k)) as [D|D|D];
    try reflexivity; exfalso; nia.
Qed.

Lemma rne_div_nonneg (n p : Z) : 0 < p -> 0 <= n -> 0 <= rne_div n p.
Proof.
  intros Hp Hn. rewrite <- (rne_div_exact 0 p Hp).
  apply rne_div_monotone; lia.
Qed.

(** *** Rounding a quotient to 53 bits *)

Lemma div_lt_digits (n d : Z) :
  0 <= n -> 0 < d -> n < d * 2 ^ digits (n / d).
Proof.
  intros Hn Hd.
  pose proof (Z.div_mod n d ltac:(lia)) as Hdm.
  pose proof (Z.mod_pos_bound n d Hd) as Hb.
  assert (Hf : 0 <= n / d) by (apply Z.div_pos; lia).
  assert (Hlt : n / d < 2 ^ digits (n / d)).
  { destruct (Z.eq_dec (n / d) 0) as [E|E].
    - rewrite E. reflexivity.
    - apply digits_bounds. lia. }
  nia.
Qed.

Lemma rndq_upper (n d : Z) :
  0 <= n -> 0 < d -> rndq n d <= 2 ^ (53 + cexp (n / d)).
Proof.
  intros Hn Hd. unfold rndq.
  destruct (cexp_ge (n / d)) as [Hc Hdg].
  set (c := cexp (n / d)) in *.
  pose proof (pow2_pos c ltac:(lia)) as Hpc.
  pose proof (div_lt_digits n d Hn Hd) as Hlt.
  assert (Hle : n * (d * 2 ^ c) <= 2 ^ 53 * (d * 2 ^ c) * (d * 2 ^ c)).
  { assert (2 ^ digits (n / d) <= 2 ^ (53 + c)) by (apply Z.pow_le_mono_r; lia).
    rewrite Z.pow_add_r in H by lia.
    assert (n <= 2 ^ 53 * (d * 2 ^ c)) by nia.
    apply Z.mul_le_mono_nonneg_r; lia. }
  pose proof (rne_div_monotone n (d * 2 ^ c) (2 ^ 53 * (d * 2 ^ c)) (d * 2 ^ c)
                ltac:(lia) ltac:(lia) Hle) as H.
  rewrite rne_div_exact in H by lia.
  rewrite Z.pow_add_r by lia.
  apply Z.mul_le_mono_nonneg_r; lia.
Qed.

Lemma rndq_lower (n d : Z) :
  0 <= n -> 0 < d -> 1074 < cexp (n / d) ->
  2 ^ (52 + cexp (n / d)) <= rndq n d.
Proof.
  intros Hn Hd Hc. unfold rndq.
  set (c := cexp (n / d)) in *.
  assert (Hdg : c = digits (n / d) - 53) by (unfold c, cexp in *; lia).
  pose proof (pow2_pos c ltac:(lia)) as Hpc.
  assert (Hf : 0 < n / d).
  { destruct (Z_lt_le_dec 0 (n / d)) as [H|H]; [exact H|exfalso].
    assert (E : n / d = 0) by (pose proof (Z.div_pos n d Hn Hd); lia).
    rewrite E in Hdg. change (digits 0) with 1 in Hdg. lia. }
  destruct (digits_bounds (n / d) Hf) as [Hl _].
  replace (digits (n / d) - 1) with (52 + c) in Hl by lia.
  rewrite Z.pow_add_r in Hl by lia.
  pose proof (Z.div_mod n d ltac:(lia)) as Hdm.
  pose proof (Z.mod_pos_bound n d Hd) as Hb.
  assert (Hle : 2 ^ 52 * (d * 2 ^ c) * (d * 2 ^ c) <= n * (d * 2 ^ c)).
  { assert (2 ^ 52 * (d * 2 ^ c) <= n) by nia.
    apply Z.mul_le_mono_nonneg_r; lia. }
  pose proof (rne_div_monotone (2 ^ 52 * (d * 2 ^ c)) (d * 2 ^ c) n (d * 2 ^ c)
                ltac:(lia) ltac:(lia) Hle) as H.
  rewrite rne_div_exact in H by lia.
  rewrite Z.pow_add_r by lia.
  apply Z.mul_le_mono_nonneg_r; lia.
Qed.

Lemma div_le_cross (n1 d1 n2 d2 : Z) :
  0 < d1 -> 0 < d2 -> n1 * d2 <= n2 * d1 -> n1 / d1 <= n2 / d2.
Proof.
  intros H1 H2 H.
  apply Z.div_le_lower_bound; [exact H2|].
  pose proof (Z.div_mod n1 d1 ltac:(lia)) as Hdm.
  pose proof (Z.mod_pos_bound n1 d1 H1) as Hb.
  set (q := n1 / d1) in *. set (r := n1 mod d1) in *. clearbody q r.
  assert (d1 * (d2 * q) <= d1 * n2) by nia.
  apply (Z.mul_le_mono_pos_l _ _ d1); assumption.
Qed.

Lemma rndq_monotone (n1 d1 n2 d2 : Z) :
  0 <= n1 -> 0 < d1 -> 0 < d2 -> n1 * d2 <= n2 * d1 ->
  rndq n1 d1 <= rndq n2 d2.
Proof.
  intros Hn1 Hd1 Hd2 H.
  assert (Hn2 : 0 <= n2) by nia.
  pose proof (div_le_cross n1 d1 n2 d2 Hd1 Hd2 H) as Hf.
  pose proof (digits_monotone _ _ Hf) as Hdg.
  destruct (cexp_ge (n1 / d1)) as [Hc1 _].
  assert (Hc : cexp (n1 / d1) <= cexp (n2 / d2)) by (unfold cexp; lia).
  destruct (Z.eq_dec (cexp (n1 / d1)) (cexp (n2 / d2))) as [E|E].
  - unfold rndq. rewrite E.
    set (c := cexp (n2 / d2)) in *.
    pose proof (pow2_pos c ltac:(lia)) as Hpc.
    apply Z.mul_le_mono_nonneg_r; [lia|].
    apply rne_div_monotone; try nia.
  - apply (Z.le_trans _ (2 ^ (53 + cexp (n1 / d1))));
      [apply rndq_upper; assumption|].
    apply (Z.le_trans _ (2 ^ (52 + cexp (n2 / d2))));
      [|apply rndq_lower; try assumption; lia].
    apply Z.pow_le_mono_r; lia.
Qed.

Lemma rndq_nonneg (n d : Z) : 0 <= n -> 0 < d -> 0 <= rndq n d.
Proof.
  intros Hn Hd. unfold rndq. destruct (cexp_ge (n / d)) as [Hc _].
  pose proof (pow2_pos (cexp (n / d)) ltac:(lia)).
  apply Z.mul_nonneg_nonneg; [|lia].
  apply rne_div_nonneg; lia.
Qed.

Lemma rndq_0 (d : Z) : 0 < d -> rndq 0 d = 0.
Proof.
  intros Hd. unfold rndq. rewrite Z.div_0_l by lia.
  unfold rne_div. rewrite Z.mod_0_l, Z.div_0_l.
  - assert (0 < d * 2 ^ cexp 0) by (apply Z.mul_pos_pos; [lia | reflexivity]).
    destruct (Z.compare_spec (2 * 0) (d * 2 ^ cexp 0)); lia.
  - apply Z.neq_mul_0. split; [lia | discriminate].
  - apply Z.neq_mul_0. split; [lia | discriminate].
Qed.

Lemma rndq_scale (n d k : Z) :
  0 < d -> 0 < k -> rndq (n * k) (d * k) = rndq n d.
Proof.
  intros Hd Hk. unfold rndq.
  rewrite Z.div_mul_cancel_r by lia.
  destruct (cexp_ge (n / d)) as [Hc _].
  pose proof (pow2_pos (cexp (n / d)) ltac:(lia)).
  replace (d * k * 2 ^ cexp (n / d)) with (d * 2 ^ cexp (n / d) * k) by ring.
  rewrite rne_div_scale by lia. reflexivity.
Qed.

Lemma rndq_1 (v : Z) : rndq v 1 = rnd v.
Proof.
  unfold rndq, rnd. rewrite Z.div_1_r, Z.mul_1_l. reflexivity.
Qed.

(** *** Shifting a mantissa that is not exact *)

Lemma loc_of_shr_record_of_loc (m : Z) (l : location) :
  loc_of_shr_record (shr_record_of_loc m l) = l.
Proof. destruct l as [|[]]; reflexivity. Qed.

Lemma shr_1_loc_div (n p : Z) (mrs : shr_record) :
  0 <= n -> 0 < p ->
  shr_m mrs = n / p ->
  loc_of_shr_record mrs = loc_div n p ->
  shr_m (shr_1 mrs) = n / (p * 2) /\
  loc_of_shr_record (shr_1 mrs) = loc_div n (p * 2).
Proof.
  intros Hn Hp Hm Hloc.
  assert (Hm0 : 0 <= shr_m mrs) by (rewrite Hm; apply Z.div_pos; lia).
  destruct (shr_1_fields mrs Hm0) as (Em & Er & Es).
  split.
  - rewrite Em, Hm, Z.div_div by lia. reflexivity.
  - assert (Hrs : shr_r mrs || shr_s mrs = negb (n mod p =? 0)).
    { destruct (shr_r mrs || shr_s mrs) eqn:E.
      - apply not_false_iff_true in E.
        rewrite <- loc_of_shr_record_Exact in E.
        rewrite Hloc in E. unfold loc_div in E.
        destruct (n mod p =? 0); [congruence | reflexivity].
      - apply loc_of_shr_record_Exact in E. rewrite Hloc in E.
        unfold loc_div in E.
        destruct (n mod p =? 0); [reflexivity | discriminate]. }
    pose proof (Z.mod_pos_bound n p Hp) as Hb.
    unfold loc_div. rewrite Z.rem_mul_r by lia.
    destruct (shr_1 mrs) as [m' r' s']. cbn [shr_m shr_r shr_s] in *.
    subst r' s'. rewrite Hrs, Hm.
    rewrite Zmod_odd.
    destruct (Z.odd (n / p)); cbn [negb loc_of_shr_record];
      destruct (Z.eqb_spec (n mod p) 0) as [E0|E0]; cbn [negb].
    + rewrite E0. replace (0 + p * 1) with p by lia.
      destruct (Z.eqb_spec p 0); [lia|].
      destruct (Z.compare_spec (2 * p) (p * 2)); [reflexivity | lia | lia].
    + destruct (Z.eqb_spec (n mod p + p * 1) 0); [lia|].
      destruct (Z.compare_spec (2 * (n mod p + p * 1)) (p * 2));
        [lia | lia | reflexivity].
    + rewrite E0. replace (0 + p * 0) with 0 by lia. reflexivity.
    + destruct (Z.eqb_spec (n mod p + p * 0) 0); [lia|].
      destruct (Z.compare_spec (2 * (n mod p + p * 0)) (p * 2));
        [lia | reflexivity | lia].
Qed.

Lemma iter_pos_shr_1_div (n : Z) (k : positive) :
  0 <= n ->
  forall (p : Z) (mrs : shr_record),
    0 < p ->
    shr_m mrs = n / p ->
    loc_of_shr_record mrs = loc_div n p ->
    shr_m (iter_pos shr_1 k mrs) = n / (p * 2 ^ Z.pos k) /\
    loc_of_shr_record (iter_pos shr_1 k mrs) = loc_div n (p * 2 ^ Z.pos k).
Proof.
  intros Hn. induction k as [k IH|k IH|]; intros p mrs Hp Hm Hl; cbn [iter_pos].
  - destruct (shr_1_loc_div n p mrs Hn Hp Hm Hl) as [Hm1 Hl1].
    destruct (IH (p * 2) (shr_1 mrs) ltac:(lia) Hm1 Hl1) as [Hm2 Hl2].
    assert (Hpk : 0 < 2 ^ Z.pos k) by (apply pow2_pos; lia).
    destruct (IH (p * 2 * 2 ^ Z.pos k) _ ltac:(nia) Hm2 Hl2) as [Hm3 Hl3].
    replace (p * 2 ^ Z.pos k~1) with (p * 2 * 2 ^ Z.pos k * 2 ^ Z.pos k).
    + auto.
    + replace (Z.pos k~1) with (1 + Z.pos k + Z.pos k) by lia.
      rewrite !Z.pow_add_r by lia. change (2 ^ 1) with 2. ring.
  - destruct (IH p mrs Hp Hm Hl) as [Hm2 Hl2].
    assert (Hpk : 0 < 2 ^ Z.pos k) by (apply pow2_pos; lia).
    destruct (IH (p * 2 ^ Z.pos k) _ ltac:(nia) Hm2 Hl2) as [Hm3 Hl3].
    replace (p * 2 ^ Z.pos k~0) with (p * 2 ^ Z.pos k * 2 ^ Z.pos k).
    + auto.
    + replace (Z.pos k~0) with (Z.pos k + Z.pos k) by lia.
      rewrite !Z.pow_add_r by lia. ring.
  - change (2 ^ 1) with 2. apply shr_1_loc_div; assumption.
Qed.

Lemma shr_loc_div (n p e k : Z) :
  0 <= n -> 0 < p -> 0 <= k ->
  let '(mrs, e') := shr (shr_record_of_loc (n / p) (loc_div n p)) e k in
  e' = e + k /\ shr_m mrs = n / (p * 2 ^ k) /\
  loc_of_shr_record mrs = loc_div n (p * 2 ^ k).
Proof.
  intros Hn Hp Hk. destruct k as [|k|k]; [| |lia]; cbn [shr].
  - change (2 ^ 0) with 1. rewrite Z.mul_1_r.
    rewrite shr_record_of_loc_m, loc_of_shr_record_of_loc.
    repeat split. lia.
  - split; [reflexivity|].
    apply (iter_pos_shr_1_div n k Hn p); [exact Hp | |].
    + apply shr_record_of_loc_m.
    + apply loc_of_shr_record_of_loc.
Qed.

Lemma round_nearest_even_rne_div (n p : Z) :
  0 < p ->
  round_nearest_even (n / p) (loc_div n p) = rne_div n p.
Proof.
  intros Hp. unfold loc_div, rne_div.
  destruct (Z.eqb_spec (n mod p) 0) as [E|E].
  - rewrite E. cbn [round_nearest_even].
    destruct (Z.compare_spec (2 * 0) p); [lia | reflexivity | lia].
  - cbn [round_nearest_even]. destruct (2 * (n mod p) ?= p); reflexivity.
Qed.

(** *** What [binary_round_aux] computes from an inexact mantissa *)

Lemma digits_unique (x k : Z) :
  0 < k -> 2 ^ (k - 1) <= x < 2 ^ k -> digits x = k.
Proof.
  intros Hk [Hl Hu]. unfold digits.
  rewrite (Z.log2_unique x (k - 1)); [lia | lia |].
  replace (Z.succ (k - 1)) with k by lia. split; assumption.
Qed.

Lemma Zdigits2_digits (m : Z) : 0 < m -> Zdigits2 m = digits m.
Proof.
  intros H. destruct m as [|p|p]; try lia.
  cbn [Zdigits2]. apply digits2_pos_log2.
Qed.

Lemma cexp_quot (n p a : Z) :
  0 <= n -> 0 < p -> 0 <= a ->
  (n / p = 0 -> a <= 1074) ->
  cexp (n * 2 ^ a / p) = Z.max (Zdigits2 (n / p) + a - 53) 1074.
Proof.
  intros Hn Hp Ha H0.
  pose proof (pow2_pos a Ha) as Hpa.
  pose proof (Z.div_mod n p ltac:(lia)) as Hdm.
  pose proof (Z.mod_pos_bound n p Hp) as Hb.
  pose proof (Z.div_mod (n * 2 ^ a) p ltac:(lia)) as Hdm2.
  pose proof (Z.mod_pos_bound (n * 2 ^ a) p Hp) as Hb2.
  set (m := n / p) in *. set (r := n mod p) in *.
  set (f := n * 2 ^ a / p) in *. set (r2 := (n * 2 ^ a) mod p) in *.
  clearbody m r f r2.
  assert (Hm : 0 <= m) by nia.
  assert (Hf1 : m * 2 ^ a <= f) by nia.
  assert (Hf2 : f < (m + 1) * 2 ^ a) by nia.
  unfold cexp.
  destruct (Z.eq_dec m 0) as [E|E].
  - subst m. specialize (H0 eq_refl). cbn [Zdigits2].
    assert (Hd : digits f <= 1074).
    { destruct (Z.eq_dec f 0) as [->|Ef]; [unfold digits; cbn; lia|].
      destruct (digits_bounds f ltac:(lia)) as [Hl _].
      destruct (Z_le_gt_dec (digits f) 1074) as [G|G]; [exact G|exfalso].
      assert (2 ^ a <= 2 ^ (digits f - 1)) by (apply Z.pow_le_mono_r; lia).
      lia. }
    lia.
  - rewrite (Zdigits2_digits m) by lia.
    pose proof (digits_pos m ltac:(lia)) as Hdp.
    destruct (digits_bounds m ltac:(lia)) as [Hl Hu].
    rewrite (digits_unique f (digits m + a)); [lia | lia |].
    split.
    + replace (digits m + a - 1) with (digits m - 1 + a) by lia.
      rewrite Z.pow_add_r by lia. nia.
    + rewrite Z.pow_add_r by lia. nia.
Qed.

Lemma binary_round_aux_value_q (s : bool) (n p e : Z) :
  0 <= n -> 0 < p -> 0 <= e + bias ->
  e <= fexp prec emax (Zdigits2 (n / p) + e) ->
  match binary_round_aux prec emax s (n / p) e (loc_div n p) with
  | S754_zero s' => s' = s /\ rndq (n * 2 ^ (e + bias)) p = 0
  | S754_finite s' m' e' =>
      s' = s /\ 0 <= e' + bias /\
      Z.pos m' * 2 ^ (e' + bias) = rndq (n * 2 ^ (e + bias)) p
  | S754_infinity s' =>
      s' = s /\ 2 ^ (1024 + bias) <= rndq (n * 2 ^ (e + bias)) p
  | S754_nan => False
  end.
Proof.
  intros Hn Hp He Hsh.
  set (E := fexp prec emax (Zdigits2 (n / p) + e)) in *.
  assert (HE : -1074 <= E).
  { unfold E, fexp, SpecFloat.emin, prec, emax. lia. }
  assert (Hc : cexp (n * 2 ^ (e + bias) / p) = E + bias).
  { rewrite cexp_quot; try assumption.
    - unfold E, fexp, SpecFloat.emin, prec, emax, bias. lia.
    - intros Hz. unfold E in Hsh. rewrite Hz in Hsh. cbn [Zdigits2] in Hsh.
      unfold fexp, SpecFloat.emin, prec, emax, bias in *. lia. }
  set (v := n * 2 ^ (e + bias)) in *.
  assert (Hv : 0 <= v).
  { unfold v. apply Z.mul_nonneg_nonneg; [lia | apply Z.pow_nonneg; lia]. }
  unfold binary_round_aux, shr_fexp. fold E.
  pose proof (shr_loc_div n p e (E - e) Hn Hp ltac:(lia)) as H1.
  destruct (shr (shr_record_of_loc (n / p) (loc_div n p)) e (E - e))
    as [mrs' e'].
  destruct H1 as (He' & Hm' & Hl').
  replace e' with E by lia. clear e' He'.
  pose proof (pow2_pos (E - e) ltac:(lia)) as Hpn.
  pose proof (pow2_pos (e + bias) He) as Hpa.
  rewrite Hm', Hl', round_nearest_even_rne_div by nia.
  assert (Hq : rne_div n (p * 2 ^ (E - e)) = rne_div v (p * 2 ^ (E + bias))).
  { unfold v.
    replace (p * 2 ^ (E + bias)) with (p * 2 ^ (E - e) * 2 ^ (e + bias)).
    - symmetry. apply rne_div_scale; nia.
    - rewrite <- Z.mul_assoc, <- Z.pow_add_r by lia. do 2 f_equal. lia. }
  rewrite Hq. set (q := rne_div v (p * 2 ^ (E + bias))) in *.
  pose proof (pow2_pos (E + bias) ltac:(unfold bias; lia)) as HpE.
  assert (Hrnd : rndq v p = q * 2 ^ (E + bias)).
  { unfold rndq. rewrite Hc. reflexivity. }
  assert (Hq0 : 0 <= q) by (apply rne_div_nonneg; nia).
  assert (Hq1 : q <= 2 ^ 53).
  { pose proof (rndq_upper v p Hv Hp) as Hu. rewrite Hc, Hrnd in Hu.
    rewrite (Z.pow_add_r 2 53 (E + bias)) in Hu by (unfold bias; lia).
    apply Z.mul_le_mono_pos_r in Hu; [exact Hu | exact HpE]. }
  destruct (Z.eq_dec q 0) as [Z0|NZ].
  - rewrite Z0. cbn [Zdigits2 Z.add shr_record_of_loc].
    rewrite shr_nonpos.
    2:{ unfold fexp, SpecFloat.emin, prec, emax. lia. }
    cbn [shr_m]. split; [reflexivity|]. rewrite Hrnd, Z0. reflexivity.
  - destruct (Z.eq_dec q (2 ^ 53)) as [C|NC].
    + rewrite C. cbn [shr_record_of_loc].
      replace (fexp prec emax (Zdigits2 (2 ^ 53) + E) - E) with 1.
      2:{ change (Zdigits2 (2 ^ 53)) with 54.
          unfold fexp, SpecFloat.emin, prec, emax. lia. }
      cbn [shr iter_pos]. change (shr_m (shr_1 _)) with (2 ^ 52).
      change (2 ^ 52) with (Z.pos 4503599627370496).
      cbv iota beta.
      assert (Hval : Z.pos 4503599627370496 * 2 ^ (E + 1 + bias) = rndq v p).
      { rewrite Hrnd, C.
        replace (E + 1 + bias) with (1 + (E + bias)) by lia.
        rewrite Z.pow_add_r by (unfold bias; lia).
        change (2 ^ 53) with (Z.pos 4503599627370496 * 2 ^ 1). ring. }
      destruct (Z.leb_spec (E + 1) (emax - prec)) as [Hb|Hb].
      * split; [reflexivity|]. split; [unfold bias; lia | exact Hval].
      * split; [reflexivity|]. rewrite <- Hval.
        change (Z.pos 4503599627370496) with (2 ^ 52).
        rewrite <- Z.pow_add_r by (unfold bias; lia).
        apply Z.pow_le_mono_r; [lia|].
        unfold emax, prec, bias in *. lia.
    + assert (Hq2 : 0 < q < 2 ^ 53) by lia.
      destruct q as [|q'|q'] eqn:Eq; [lia| |lia].
      cbn [Zdigits2 shr_record_of_loc]. rewrite digits2_pos_log2.
      pose proof (digits_le_53 (Z.pos q') ltac:(lia) ltac:(lia)) as Hd.
      rewrite shr_nonpos.
      2:{ unfold fexp, SpecFloat.emin, prec, emax. lia. }
      cbn [shr_m].
      destruct (Z.leb_spec E (emax - prec)) as [Hb|Hb].
      * split; [reflexivity|]. split; [unfold bias; lia|].
        rewrite Hrnd. reflexivity.
      * split; [reflexivity|].
        assert (Hc' : 1074 < cexp (v / p)).
        { rewrite Hc. unfold emax, prec, bias in *. lia. }
        apply (Z.le_trans _ (2 ^ (52 + cexp (v / p))));
          [|apply rndq_lower; assumption].
        apply Z.pow_le_mono_r; [lia|].
        rewrite Hc. unfold emax, prec, bias in *. lia.
Qed.

Lemma rounds_to_q_sign (s : bool) (n d : Z) (r : spec_float) :
  0 < n ->
  match r with
  | S754_zero s' => s' = s /\ rndq n d = 0
  | S754_finite s' m' e' =>
      s' = s /\ 0 <= e' + bias /\ Z.pos m' * 2 ^ (e' + bias) = rndq n d
  | S754_infinity s' => s' = s /\ 2 ^ (1024 + bias) <= rndq n d
  | S754_nan => False
  end ->
  rounds_to_q (cond_Zopp s n) d r.
Proof.
  intros Hv H. unfold rounds_to_q, srndq.
  destruct r as [s'|s'| |s' m' e'].
  - destruct H as [-> H]. cbn [sval].
    destruct s; cbn [cond_Zopp].
    + destruct (Z.ltb_spec (- n) 0); [|lia]. rewrite Z.opp_involutive. lia.
    + destruct (Z.ltb_spec n 0); lia.
  - destruct H as [-> H]. destruct s; cbn [cond_Zopp].
    + rewrite Z.opp_involutive. lia.
    + lia.
  - exact H.
  - destruct H as (-> & _ & H). cbn [sval].
    destruct s; cbn [cond_Zopp].
    + destruct (Z.ltb_spec (- n) 0); [|lia]. rewrite Z.opp_involutive. lia.
    + destruct (Z.ltb_spec n 0); lia.
Qed.

Lemma new_location_loc_div (n p : Z) :
  new_location p (n mod p) = loc_div n p.
Proof.
  unfold loc_div, new_location, new_location_even, new_location_odd.
  destruct (Z.even p) eqn:Ev; [reflexivity|].
  destruct (Z.eqb_spec (n mod p) 0) as [E|E]; [reflexivity|].
  f_equal.
  assert (Ho : Z.odd p = true) by (rewrite <- Z.negb_even, Ev; reflexivity).
  apply Z.odd_spec in Ho. destruct Ho as [h Hh].
  destruct (Z.compare_spec (2 * (n mod p) + 1) p);
    destruct (Z.compare_spec (2 * (n mod p)) p); try reflexivity; lia.
Qed.

(** Division rounds the exact quotient. *)
Lemma SFdiv_rounds (x y : spec_float) :
  valid_binary x = true -> valid_binary y = true ->
  is_real x = true -> is_real y = true ->
  0 < sval y ->
  rounds_to_q (sval x * 2 ^ bias) (sval y) (SFdiv prec emax x y).
Proof.
  intros Vx Vy Rx Ry Hy.
  destruct y as [sy|sy| |sy my ey]; try discriminate; cbn [sval] in Hy.
  cbn [valid_binary] in Vy.
  destruct (bounded_facts my ey Vy) as (Hey & Hdy & Hey').
  assert (Hpy : 0 < 2 ^ (ey + bias)) by (apply pow2_pos; unfold bias; lia).
  destruct sy; cbn [cond_Zopp] in Hy; [lia|].
  destruct x as [sx|sx| |sx mx ex]; try discriminate.
  - cbn [SFdiv rounds_to_q sval]. unfold srndq.
    change (0 * 2 ^ bias) with 0. cbn [Z.ltb Z.compare].
    symmetry. apply rndq_0. exact Hy.
  - cbn [valid_binary] in Vx.
    destruct (bounded_facts mx ex Vx) as (Hex & Hdx & Hex').
    cbn [SFdiv sval cond_Zopp]. unfold SFdiv_core_binary.
    cbn [Zdigits2]. rewrite !digits2_pos_log2.
    set (d1 := digits (Z.pos mx)) in *. set (d2 := digits (Z.pos my)) in *.
    set (e' := Z.min (fexp prec emax (d1 + ex - (d2 + ey))) (ex - ey)).
    set (sh := ex - ey - e').
    assert (Hsh : 0 <= sh) by (unfold sh, e'; lia).
    set (m' := match sh with
               | Z0 => Z.pos mx
               | Z.pos _ => Z.shiftl (Z.pos mx) sh
               | Z.neg _ => 0
               end).
    assert (Em' : m' = Z.pos mx * 2 ^ sh).
    { unfold m'. destruct sh as [|p|p] eqn:E;
        [|rewrite Z.shiftl_mul_pow2|]; lia. }
    clearbody m'.
    assert (Hps : 0 < 2 ^ sh) by (apply pow2_pos; lia).
    assert (Hm0 : 0 < m') by nia.
    unfold Z.div_eucl at 1.
    assert (Hde : Z.div_eucl m' (Z.pos my) = (m' / Z.pos my, m' mod Z.pos my)).
    { unfold Z.div, Z.modulo. destruct (Z.div_eucl m' (Z.pos my)); reflexivity. }
    fold (Z.div_eucl m' (Z.pos my)). rewrite Hde.
    rewrite new_location_loc_div. cbn [xorb].
    replace (xorb sx false) with sx by (destruct sx; reflexivity).
    assert (He'b : 0 <= e' + bias).
    { unfold e', fexp, SpecFloat.emin, prec, emax, bias in *. lia. }
    assert (Hd1 : 0 < d1) by (apply digits_pos; lia).
    assert (Hd2 : 0 < d2) by (apply digits_pos; lia).
    destruct (digits_bounds (Z.pos mx) ltac:(lia)) as [Hlx Hux]. fold d1 in Hlx, Hux.
    destruct (digits_bounds (Z.pos my) ltac:(lia)) as [Hly Huy]. fold d2 in Hly, Huy.
    assert (Hfe : e' <= fexp prec emax (Zdigits2 (m' / Z.pos my) + e')).
    { destruct (Z_le_gt_dec e' (-1074)) as [G|G].
      - unfold fexp, SpecFloat.emin, prec, emax. lia.
      - assert (Hs53 : 53 - d1 + d2 <= sh).
        { unfold sh, e', fexp, SpecFloat.emin, prec, emax in *. lia. }
        assert (Hq : 2 ^ 52 <= m' / Z.pos my).
        { apply Z.div_le_lower_bound; [lia|].
          rewrite Em'.
          apply (Z.le_trans _ (2 ^ d2 * 2 ^ 52)); [nia|].
          apply (Z.le_trans _ (2 ^ (d1 - 1) * 2 ^ sh)).
          - rewrite <- !Z.pow_add_r by lia. apply Z.pow_le_mono_r; lia.
          - apply Z.mul_le_mono_nonneg_r; lia. }
        assert (Hdq : 53 <= Zdigits2 (m' / Z.pos my)).
        { rewrite Zdigits2_digits by lia.
          change 53 with (digits (2 ^ 52)).
          apply digits_monotone; lia. }
        unfold e', fexp, SpecFloat.emin, prec, emax in *. lia. }
    pose proof (binary_round_aux_value_q sx m' (Z.pos my) e'
                  ltac:(lia) ltac:(lia) He'b Hfe) as H.
    assert (Hval : m' * 2 ^ (e' + bias) = Z.pos mx * 2 ^ (ex - ey + bias)).
    { rewrite Em', <- Z.mul_assoc, <- Z.pow_add_r by lia.
      do 2 f_equal. unfold sh. lia. }
    rewrite Hval in H.
    assert (Hexy : 0 <= ex - ey + bias) by (unfold bias in *; lia).
    assert (Hsc : forall t,
      t = rndq (Z.pos mx * 2 ^ (ex - ey + bias)) (Z.pos my) ->
      t = rndq (Z.pos mx * 2 ^ (ex + bias) * 2 ^ bias)
               (Z.pos my * 2 ^ (ey + bias))).
    { intros t ->.
      rewrite <- (rndq_scale _ (Z.pos my) (2 ^ (ey + bias))) by
        (try apply Z.mul_nonneg_nonneg; try apply Z.pow_nonneg; lia).
      f_equal.
      rewrite <- !Z.mul_assoc, <- !Z.pow_add_r by (unfold bias in *; lia).
      do 2 f_equal. lia. }
    assert (Hpx : 0 < Z.pos mx * 2 ^ (ex + bias) * 2 ^ bias).
    { apply Z.mul_pos_pos; [apply Z.mul_pos_pos; [lia|]|];
        apply pow2_pos; unfold bias in *; lia. }
    replace (cond_Zopp sx (Z.pos mx * 2 ^ (ex + bias)) * 2 ^ bias)
      with (cond_Zopp sx (Z.pos mx * 2 ^ (ex + bias) * 2 ^ bias))
      by (destruct sx; cbn [cond_Zopp]; ring).
    apply rounds_to_q_sign; [exact Hpx|].
    destruct (binary_round_aux prec emax sx (m' / Z.pos my) e'
                (loc_div m' (Z.pos my))) as [s'|s'| |s' m2 e2].
    + destruct H as [Hs H]. split; [exact Hs|]. symmetry. apply Hsc.
      symmetry. exact H.
    + destruct H as [Hs H]. split; [exact Hs|].
      rewrite <- (Hsc _ eq_refl). exact H.
    + exact H.
    + destruct H as (Hs & He2 & H). split; [exact Hs|]. split; [exact He2|].
      apply Hsc. exact H.
Qed.

Lemma srndq_monotone (n1 d1 n2 d2 : Z) :
  0 < d1 -> 0 < d2 -> n1 * d2 <= n2 * d1 -> srndq n1 d1 <= srndq n2 d2.
Proof.
  intros H1 H2 H. unfold srndq.
  destruct (Z.ltb_spec n1 0) as [N1|P1]; destruct (Z.ltb_spec n2 0) as [N2|P2].
  - pose proof (rndq_monotone (- n2) d2 (- n1) d1 ltac:(lia) H2 H1
                  ltac:(lia)). lia.
  - pose proof (rndq_nonneg (- n1) d1 ltac:(lia) H1).
    pose proof (rndq_nonneg n2 d2 P2 H2). lia.
  - nia.
  - apply rndq_monotone; assumption.
Qed.

Lemma rounds_to_q_real (n d : Z) (r : spec_float) :
  rounds_to_q n d r -> is_real r = true -> sval r = srndq n d.
Proof.
  destruct r as [s|s| |s m e]; cbn [rounds_to_q is_real]; intros H R;
    try discriminate; exact H.
Qed.

(** Rounding of quotients is monotone. *)
Lemma rounds_to_q_monotone (n1 d1 n2 d2 : Z) (r1 r2 : spec_float) :
  rounds_to_q n1 d1 r1 -> rounds_to_q n2 d2 r2 ->
  valid_binary r1 = true -> valid_binary r2 = true ->
  0 < d1 -> 0 < d2 -> n1 * d2 <= n2 * d1 ->
  SFleb r1 r2 = true.
Proof.
  intros H1 H2 V1 V2 D1 D2 Hv.
  pose proof (srndq_monotone n1 d1 n2 d2 D1 D2 Hv) as Hs.
  pose proof (valid_real_bound r1 V1) as B1.
  pose proof (valid_real_bound r2 V2) as B2.
  destruct (is_real r1) eqn:R1; destruct (is_real r2) eqn:R2.
  - apply SFleb_of_sval; try assumption.
    rewrite (rounds_to_q_real n1 d1 r1 H1 R1), (rounds_to_q_real n2 d2 r2 H2 R2).
    exact Hs.
  - rewrite (rounds_to_q_real n1 d1 r1 H1 R1) in B1.
    destruct r2 as [s2|[]| |s2 m2 e2]; try discriminate;
      cbn [rounds_to_q] in H2; try contradiction.
    + exfalso. unfold srndq in B1.
      destruct (Z.ltb_spec n1 0) as [N1|P1]; [|nia].
      pose proof (rndq_monotone (- n2) d2 (- n1) d1 ltac:(lia) D2 D1
                    ltac:(lia)). lia.
    + destruct r1 as [s1|s1| |[] m1 e1]; try discriminate; reflexivity.
  - rewrite (rounds_to_q_real n2 d2 r2 H2 R2) in B2.
    destruct r1 as [s1|[]| |s1 m1 e1]; try discriminate;
      cbn [rounds_to_q] in H1; try contradiction.
    + destruct r2 as [s2|s2| |[] m2 e2]; try discriminate; reflexivity.
    + exfalso. unfold srndq in B2.
      destruct (Z.ltb_spec n2 0) as [N2|P2]; [nia|].
      pose proof (rndq_monotone n1 d1 n2 d2 ltac:(lia) D1 D2 Hv). lia.
  - destruct r1 as [s1|[]| |s1 m1 e1]; try discriminate;
      destruct r2 as [s2|[]| |s2 m2 e2]; try discriminate;
      cbn [rounds_to_q] in H1, H2; try contradiction; try reflexivity.
    exfalso. nia.
Qed.

Lemma SFdiv_monotone_l (x y d : spec_float) :
  valid_binary x = true -> valid_binary y = true -> valid_binary d = true ->
  valid_binary (SFdiv prec emax x d) = true ->
  valid_binary (SFdiv prec emax y d) = true ->
  is_real x = true -> is_real y = true -> is_real d = true ->
  0 < sval d -> sval x <= sval y ->
  SFleb (SFdiv prec emax x d) (SFdiv prec emax y d) = true.
Proof.
  intros Vx Vy Vd Vxd Vyd Rx Ry Rd Hd Hxy.
  assert (Hp : 0 < 2 ^ bias) by (apply pow2_pos; unfold bias; lia).
  apply (rounds_to_q_monotone (sval x * 2 ^ bias) (sval d)
           (sval y * 2 ^ bias) (sval d)); try assumption;
    try (apply SFdiv_rounds; assumption).
  apply Z.mul_le_mono_nonneg_r; [lia|].
  apply Z.mul_le_mono_nonneg_r; [lia | exact Hxy].
Qed.

Lemma SFdiv_antitone_r (x d1 d2 : spec_float) :
  valid_binary x = true -> valid_binary d1 = true -> valid_binary d2 = true ->
  valid_binary (SFdiv prec emax x d1) = true ->
  valid_binary (SFdiv prec emax x d2) = true ->
  is_real x = true -> is_real d1 = true -> is_real d2 = true ->
  0 <= sval x -> 0 < sval d1 -> sval d1 <= sval d2 ->
  SFleb (SFdiv prec emax x d2) (SFdiv prec emax x d1) = true.
Proof.
  intros Vx V1 V2 Vx1 Vx2 Rx R1 R2 Hx H1 H12.
  assert (Hp : 0 < 2 ^ bias) by (apply pow2_pos; unfold bias; lia).
  apply (rounds_to_q_monotone (sval x * 2 ^ bias) (sval d2)
           (sval x * 2 ^ bias) (sval d1)); try assumption;
    try (apply SFdiv_rounds; try assumption; lia); try lia.
  apply Z.mul_le_mono_nonneg_l; [|exact H12].
  apply Z.mul_nonneg_nonneg; lia.
Qed.

Local Open Scope float_scope.

Lemma pos_sval (x : float) :
  PrimFloat.is_finite x = true -> (0 <? x) = true ->
  (0 < sval (Prim2SF x))%Z.
Proof.
  intros Hx H. rewrite ltb_spec in H.
  apply is_finite_real in Hx. unfold SFltb in H.
  rewrite (SFcompare_sval (Prim2SF 0) (Prim2SF x)) in H;
    try apply Prim2SF_valid; try assumption; try reflexivity.
  change (sval (Prim2SF 0)) with 0%Z in H.
  destruct (Z.compare_spec 0 (sval (Prim2SF x))); try discriminate. lia.
Qed.

(** Division by a positive finite number is monotone in the dividend. *)
Lemma div_monotone_l (x y d : float) :
  PrimFloat.is_finite x = true -> PrimFloat.is_finite y = true ->
  PrimFloat.is_finite d = true ->
  (0 <? d) = true -> (x <=? y) = true ->
  (x / d <=? y / d) = true.
Proof.
  intros Hx Hy Hd H0 Hxy. rewrite leb_spec. rewrite !div_spec.
  pose proof (pos_sval d Hd H0) as Hs.
  rewrite leb_spec in Hxy.
  apply is_finite_real in Hx, Hy, Hd.
  apply SFdiv_monotone_l; try apply Prim2SF_valid; try assumption.
  - rewrite <- div_spec. apply Prim2SF_valid.
  - rewrite <- div_spec. apply Prim2SF_valid.
  - apply sval_of_SFleb; try apply Prim2SF_valid; assumption.
Qed.

(** A non-negative dividend over a larger positive divisor gives no more. *)
Lemma div_antitone_r (x d1 d2 : float) :
  PrimFloat.is_finite x = true -> PrimFloat.is_finite d1 = true ->
  PrimFloat.is_finite d2 = true ->
  (0 <=? x) = true -> (0 <? d1) = true -> (d1 <=? d2) = true ->
  (x / d2 <=? x / d1) = true.
Proof.
  intros Hx H1 H2 H0 Hp H12. rewrite leb_spec. rewrite !div_spec.
  pose proof (pos_sval d1 H1 Hp) as Hs.
  pose proof (nonneg_sval x Hx H0) as Hsx.
  rewrite leb_spec in H12.
  apply is_finite_real in Hx, H1, H2.
  apply SFdiv_antitone_r; try apply Prim2SF_valid; try assumption.
  - rewrite <- div_spec. apply Prim2SF_valid.
  - rewrite <- div_spec. apply Prim2SF_valid.
  - apply sval_of_SFleb; try apply Prim2SF_valid; assumption.
Qed.

End QuotientRounding.

(** ** The order on binary64 numbers *)

Section Binary64Order.

Import Binary64.
Import Rational64.
Local Open Scope Z_scope.

(** *** The order on binary64 numbers *)

Lemma SFcompare_antisym (x y : spec_float) :
  valid_binary x = true -> valid_binary y = true ->
  x <> S754_nan -> y <> S754_nan ->
  exists c, SFcompare x y = Some c /\ SFcompare y x = Some (CompOpp c).
Proof.
  intros Vx Vy Nx Ny.
  destruct (is_real x) eqn:Rx; destruct (is_real y) eqn:Ry.
  - exists (sval x ?= sval y).
    rewrite (SFcompare_sval x y), (SFcompare_sval y x) by assumption.
    split; [reflexivity|]. rewrite (Z.compare_antisym (sval x)). reflexivity.
  - destruct y as [sy|[]| |sy my ey]; try discriminate; try congruence;
      destruct x as [sx|sx| |[] mx ex]; try discriminate;
      eexists; split; reflexivity.
  - destruct x as [sx|[]| |sx mx ex]; try discriminate; try congruence;
      destruct y as [sy|sy| |[] my ey]; try discriminate;
      eexists; split; reflexivity.
  - destruct x as [sx|[]| |sx mx ex]; try discriminate; try congruence;
      destruct y as [sy|[]| |sy my ey]; try discriminate; try congruence;
      eexists; split; reflexivity.
Qed.

Lemma SFleb_not_nan (x y : spec_float) :
  SFleb x y = true -> x <> S754_nan /\ y <> S754_nan.
Proof.
  unfold SFleb. intros H. split; intros ->.
  - discriminate.
  - destruct x as [sx|[]| |sx mx ex]; discriminate.
Qed.

Lemma SFleb_trans (x y z : spec_float) :
  valid_binary x = true -> valid_binary y = true -> valid_binary z = true ->
  SFleb x y = true -> SFleb y z = true -> SFleb x z = true.
Proof.
  intros Vx Vy Vz Hxy Hyz.
  destruct (SFleb_not_nan x y Hxy) as [Nx Ny].
  destruct (SFleb_not_nan y z Hyz) as [_ Nz].
  destruct (is_real x) eqn:Rx.
  - destruct (is_real z) eqn:Rz.
    + destruct (is_real y) eqn:Ry.
      * apply SFleb_of_sval; try assumption.
        pose proof (sval_of_SFleb x y Vx Vy Rx Ry Hxy).
        pose proof (sval_of_SFleb y z Vy Vz Ry Rz Hyz). lia.
      * exfalso.
        destruct y as [sy|[]| |sy my ey]; try discriminate; try congruence.
        -- destruct x as [sx|sx| |[] mx ex]; discriminate.
        -- destruct z as [sz|sz| |[] mz ez]; discriminate.
    + destruct z as [sz|[]| |sz mz ez]; try discriminate; try congruence.
      * exfalso.
        destruct y as [sy|[]| |[] my ey]; try discriminate; try congruence;
          destruct x as [sx|sx| |[] mx ex]; discriminate.
      * apply SFleb_pos_infinity. exact Nx.
  - destruct x as [sx|[]| |sx mx ex]; try discriminate; try congruence.
    + apply SFleb_neg_infinity. exact Nz.
    + destruct y as [sy|[]| |[] my ey]; try discriminate;
        destruct z as [sz|[]| |[] mz ez]; try discriminate; reflexivity.
Qed.

Local Open Scope float_scope.

Lemma leb_trans (x y z : float) :
  (x <=? y) = true -> (y <=? z) = true -> (x <=? z) = true.
Proof.
  rewrite !leb_spec. apply SFleb_trans; apply Prim2SF_valid.
Qed.

Lemma leb_refl_finite (x : float) :
  PrimFloat.is_finite x = true -> (x <=? x) = true.
Proof.
  intros H. rewrite leb_spec. apply is_finite_real in H.
  apply SFleb_of_sval; try apply Prim2SF_valid; try assumption. lia.
Qed.

(** What lies between two finite numbers is finite. *)
Lemma finite_between (x y z : float) :
  PrimFloat.is_finite x = true -> PrimFloat.is_finite z = true ->
  (x <=? y) = true -> (y <=? z) = true ->
  PrimFloat.is_finite y = true.
Proof.
  intros Hx Hz Hxy Hyz. rewrite is_finite_real in *. rewrite leb_spec in *.
  destruct (Prim2SF y) as [sy|[]| |sy my ey]; try reflexivity.
  - destruct (Prim2SF x) as [sx|sx| |[] mx ex]; discriminate.
  - destruct (Prim2SF z) as [sz|sz| |[] mz ez]; discriminate.
  - destruct (Prim2SF x) as [sx|[]| |sx mx ex]; discriminate.
Qed.

(** A number above a finite one is finite or [+Infinity]. *)
Lemma above_finite (a t : float) :
  PrimFloat.is_finite a = true -> (a <=? t) = true ->
  PrimFloat.is_finite t = true \/ t = infinity.
Proof.
  intros Ha H. rewrite is_finite_real in *. rewrite leb_spec in H.
  destruct (Prim2SF t) as [st|[]| |st mt et] eqn:E; auto.
  - destruct (Prim2SF a) as [sa|sa| |[] ma ea]; discriminate.
  - right. apply Prim2SF_inj. rewrite E. reflexivity.
  - destruct (Prim2SF a) as [sa|[]| |sa ma ea]; discriminate.
Qed.

(** Without NaN, [a < b] fails only when [b <= a]. *)
Lemma leb_of_not_ltb (a b : float) :
  PrimFloat.is_nan a = false -> PrimFloat.is_nan b = false ->
  (a <? b) = false -> (b <=? a) = true.
Proof.
  unfold PrimFloat.is_nan. rewrite !eqb_spec, ltb_spec, leb_spec.
  intros Na Nb H.
  assert (Na' : Prim2SF a <> S754_nan).
  { intros E. rewrite E in Na. discriminate. }
  assert (Nb' : Prim2SF b <> S754_nan).
  { intros E. rewrite E in Nb. discriminate. }
  clear Na Nb.
  destruct (SFcompare_antisym (Prim2SF a) (Prim2SF b)
              (Prim2SF_valid a) (Prim2SF_valid b) Na' Nb') as (c & C1 & C2).
  unfold SFltb in H. unfold SFleb. rewrite C1 in H. rewrite C2.
  destruct c; try discriminate; reflexivity.
Qed.

Local Open Scope Z_scope.

Lemma SFadd_monotone_l (a b t : spec_float) :
  valid_binary a = true -> valid_binary b = true -> valid_binary t = true ->
  valid_binary (SFadd prec emax a t) = true ->
  valid_binary (SFadd prec emax b t) = true ->
  is_real a = true -> is_real b = true -> is_real t = true ->
  sval a <= sval b ->
  SFleb (SFadd prec emax a t) (SFadd prec emax b t) = true.
Proof.
  intros Va Vb Vt Vat Vbt Ra Rb Rt H.
  apply (rounds_to_monotone (sval a + sval t) (sval b + sval t));
    try assumption; try (apply SFadd_rounds; assumption).
  lia.
Qed.

Lemma SFsub_monotone_l (a b t : spec_float) :
  valid_binary a = true -> valid_binary b = true -> valid_binary t = true ->
  valid_binary (SFsub prec emax a t) = true ->
  valid_binary (SFsub prec emax b t) = true ->
  is_real a = true -> is_real b = true -> is_real t = true ->
  sval a <= sval b ->
  SFleb (SFsub prec emax a t) (SFsub prec emax b t) = true.
Proof.
  intros Va Vb Vt Vat Vbt Ra Rb Rt H.
  apply (rounds_to_monotone (sval a - sval t) (sval b - sval t));
    try assumption; try (apply SFsub_rounds; assumption).
  lia.
Qed.

(** Dividing by a number that is at least one cannot overflow. *)
Lemma SFdiv_ge_1_real (x d : spec_float) :
  valid_binary x = true -> valid_binary d = true ->
  is_real x = true -> is_real d = true ->
  2 ^ bias <= sval d ->
  is_real (SFdiv prec emax x d) = true.
Proof.
  intros Vx Vd Rx Rd Hd.
  assert (Hp : 0 < 2 ^ bias) by (apply pow2_pos; unfold bias; lia).
  pose proof (SFdiv_rounds x d Vx Vd Rx Rd ltac:(lia)) as H.
  pose proof (valid_real_bound x Vx) as B.
  assert (Hle : forall n, 0 <= n -> rndq (n * 2 ^ bias) (sval d) <= rnd n).
  { intros n Hn. rewrite <- (rndq_1 n).
    rewrite <- (rndq_scale n 1 (2 ^ bias)) by lia.
    apply rndq_monotone; try lia.
    rewrite Z.mul_1_l.
    apply Z.mul_le_mono_nonneg_l; [nia | exact Hd]. }
  assert (Hself : forall y, valid_binary y = true -> is_real y = true ->
                            0 <= sval y -> rnd (sval y) = sval y).
  { intros y Vy Ry Hy. pose proof (real_rounds_to_self y Vy Ry) as Hr.
    apply rounds_to_real in Hr; [|exact Ry].
    unfold srnd in Hr. destruct (Z.ltb_spec (sval y) 0); [lia|]. lia. }
  destruct (SFdiv prec emax x d) as [s|[]| |s m e]; try reflexivity;
    cbn [rounds_to_q] in H; try contradiction; exfalso.
  - destruct H as [Hn H].
    assert (Hx : 0 <= - sval x) by nia.
    pose proof (Hle (- sval x) Hx) as L.
    replace (- sval x * 2 ^ bias) with (- (sval x * 2 ^ bias)) in L by ring.
    assert (Vo : valid_binary (SFopp x) = true)
      by (destruct x as [sx|sx| |sx mx ex]; exact Vx).
    assert (Ro : is_real (SFopp x) = true)
      by (destruct x as [sx|sx| |sx mx ex]; exact Rx).
    assert (So : sval (SFopp x) = - sval x).
    { destruct x as [sx|sx| |sx mx ex]; try reflexivity.
      cbn [SFopp sval]. destruct sx; cbn [negb cond_Zopp]; lia. }
    pose proof (Hself (SFopp x) Vo Ro ltac:(lia)) as Hs.
    rewrite So in Hs. lia.
  - destruct H as [Hn H].
    assert (Hx : 0 <= sval x) by nia.
    pose proof (Hle (sval x) Hx) as L.
    pose proof (Hself x Vx Rx Hx) as Hs. lia.
Qed.

Local Open Scope float_scope.

Lemma add_monotone_l (a b t : float) :
  PrimFloat.is_finite a = true -> PrimFloat.is_finite b = true ->
  PrimFloat.is_finite t = true ->
  (a <=? b) = true ->
  (a + t <=? b + t) = true.
Proof.
  intros Ha Hb Ht Hab. rewrite leb_spec in *. rewrite !add_spec.
  apply is_finite_real in Ha, Hb, Ht.
  apply SFadd_monotone_l; try apply Prim2SF_valid; try assumption.
  - rewrite <- add_spec. apply Prim2SF_valid.
  - rewrite <- add_spec. apply Prim2SF_valid.
  - apply sval_of_SFleb; try apply Prim2SF_valid; assumption.
Qed.

Lemma sub_monotone_l (a b t : float) :
  PrimFloat.is_finite a = true -> PrimFloat.is_finite b = true ->
  PrimFloat.is_finite t = true ->
  (a <=? b) = true ->
  (a - t <=? b - t) = true.
Proof.
  intros Ha Hb Ht Hab. rewrite leb_spec in *. rewrite !sub_spec.
  apply is_finite_real in Ha, Hb, Ht.
  apply SFsub_monotone_l; try apply Prim2SF_valid; try assumption.
  - rewrite <- sub_spec. apply Prim2SF_valid.
  - rewrite <- sub_spec. apply Prim2SF_valid.
  - apply sval_of_SFleb; try apply Prim2SF_valid; assumption.
Qed.

Lemma div_ge_1_finite (x d : float) :
  PrimFloat.is_finite x = true -> PrimFloat.is_finite d = true ->
  (1 <=? d) = true ->
  PrimFloat.is_finite (x / d) = true.
Proof.
  intros Hx Hd H1. rewrite is_finite_real in *. rewrite div_spec.
  rewrite leb_spec in H1.
  apply SFdiv_ge_1_real; try apply Prim2SF_valid; try assumption.
  change (2 ^ bias)%Z with (sval (Prim2SF 1)).
  apply sval_of_SFleb; try apply Prim2SF_valid; try assumption. reflexivity.
Qed.

(** A positive number plus zero is itself. *)
Lemma add_0_r_pos (x : float) : (0 <? x) = true -> x + 0 = x.
Proof.
  intros H. apply Prim2SF_inj. rewrite add_spec.
  rewrite ltb_spec in H. change (Prim2SF 0) with (S754_zero false) in *.
  destruct (Prim2SF x) as [sx|sx| |sx mx ex]; try discriminate; reflexivity.
Qed.

Lemma ltb_leb (x y : float) : (x <? y) = true -> (x <=? y) = true.
Proof.
  rewrite ltb_spec, leb_spec. unfold SFltb, SFleb.
  destruct (SFcompare (Prim2SF x) (Prim2SF y)) as [[]|]; try discriminate;
    reflexivity.
Qed.

Lemma ltb_leb_trans (x y z : float) :
  (x <? y) = true -> (y <=? z) = true -> (x <? z) = true.
Proof.
  intros Hxy Hyz.
  pose proof (leb_trans x y z (ltb_leb x y Hxy) Hyz) as Hxz.
  rewrite ltb_spec in *. rewrite leb_spec in *.
  pose proof (Prim2SF_valid x) as Vx. pose proof (Prim2SF_valid y) as Vy.
  pose proof (Prim2SF_valid z) as Vz.
  destruct (SFleb_not_nan _ _ Hxz) as [Nx Nz].
  destruct (SFleb_not_nan _ _ Hyz) as [Ny _].
  destruct (SFcompare_antisym _ _ Vx Vz Nx Nz) as (c & C1 & C2).
  unfold SFltb. rewrite C1. destruct c; try reflexivity; exfalso.
  - (* z = x in value: then y <= x, against x < y *)
    assert (Hzx : SFleb (Prim2SF z) (Prim2SF x) = true)
      by (unfold SFleb; rewrite C2; reflexivity).
    pose proof (SFleb_trans _ _ _ Vy Vz Vx Hyz Hzx) as Hyx.
    destruct (SFcompare_antisym _ _ Vx Vy Nx Ny) as (c' & D1 & D2).
    unfold SFltb in Hxy. unfold SFleb in Hyx. rewrite D1 in Hxy.
    rewrite D2 in Hyx. destruct c'; discriminate.
  - unfold SFleb in Hxz. rewrite C1 in Hxz. discriminate.
Qed.

(** A non-negative dividend over a positive divisor is non-negative. *)
Lemma div_nonneg (x d : float) :
  PrimFloat.is_finite x = true -> PrimFloat.is_finite d = true ->
  (0 <=? x) = true -> (0 <? d) = true ->
  (0 <=? x / d) = true.
Proof.
  intros Hx Hd H0 Hp.
  apply (leb_trans 0 (0 / d) (x / d)).
  - rewrite leb_spec, div_spec. rewrite ltb_spec in Hp.
    change (Prim2SF 0) with (S754_zero false) in *.
    destruct (Prim2SF d) as [sd|sd| |sd md ed]; try discriminate;
      destruct sd; try discriminate; reflexivity.
  - apply div_monotone_l; try assumption. reflexivity.
Qed.

(** The same with divisors that may be [+Infinity]. *)
Lemma div_antitone (x d1 d2 : float) :
  PrimFloat.is_finite x = true ->
  (0 <=? x) = true -> (0 <? d1) = true -> (d1 <=? d2) = true ->
  (x / d2 <=? x / d1) = true.
Proof.
  intros Hx H0 Hp H12.
  assert (Hinf : exists s, Prim2SF (x / infinity) = S754_zero s).
  { rewrite div_spec.
    apply is_finite_real in Hx.
    change (Prim2SF infinity) with (S754_infinity false).
    destruct (Prim2SF x) as [sx|sx| |sx mx ex] eqn:E; try discriminate;
      eexists; reflexivity. }
  destruct Hinf as [s Hinf].
  destruct (above_finite 0 d1 eq_refl (ltb_leb 0 d1 Hp)) as [F1|I1].
  - assert (Hp2 : (0 <? d2) = true)
      by (apply (ltb_leb_trans 0 d1 d2); assumption).
    destruct (above_finite 0 d2 eq_refl (ltb_leb 0 d2 Hp2)) as [F2|I2].
    + apply div_antitone_r; assumption.
    + subst d2. pose proof (div_nonneg x d1 Hx F1 H0 Hp) as Hq.
      rewrite leb_spec in *. rewrite Hinf.
      change (Prim2SF 0) with (S754_zero false) in Hq.
      destruct (Prim2SF (x / d1)) as [sq|sq| |sq mq eq]; destruct s;
        exact Hq.
  - subst d1.
    assert (d2 = infinity).
    { apply Prim2SF_inj. rewrite leb_spec in H12.
      change (Prim2SF infinity) with (S754_infinity false) in *.
      destruct (Prim2SF d2) as [s2|[]| |[] m2 e2]; try discriminate.
      reflexivity. }
    subst d2. rewrite leb_spec, Hinf. reflexivity.
Qed.

(** The negation of a non-negative number is below it. *)
Lemma opp_le_self (x : float) :
  PrimFloat.is_finite x = true -> (0 <=? x) = true ->
  PrimFloat.is_finite (- x) = true /\ (- x <=? x) = true.
Proof.
  intros Hx H0.
  pose proof (nonneg_sval x Hx H0) as Hs.
  pose proof (Prim2SF_valid x) as Vx. pose proof (Prim2SF_valid (- x)) as Vo.
  rewrite is_finite_real in *. rewrite leb_spec.
  rewrite opp_spec in *.
  assert (Ro : is_real (SFopp (Prim2SF x)) = true)
    by (destruct (Prim2SF x) as [sx|sx| |sx mx ex]; exact Hx).
  split; [exact Ro|].
  apply SFleb_of_sval; try assumption.
  destruct (Prim2SF x) as [sx|sx| |sx mx ex]; cbn [SFopp sval] in *; try lia.
  destruct sx; cbn [negb cond_Zopp] in *; lia.
Qed.

(** Numbers that are at least one are truthy. *)
Lemma ge_one_is_truthy (x : float) :
  (1 <=? x) = true -> JS.ToBoolean x = true.
Proof.
  intros H. unfold JS.ToBoolean, PrimFloat.is_zero, PrimFloat.is_nan.
  rewrite leb_spec in H. rewrite !eqb_spec.
  change (Prim2SF 0) with (S754_zero false) in *.
  unfold SFleb in H. unfold SFeqb.
  destruct (Prim2SF x) as [sx|sx| |sx m e]; simpl in H; try discriminate.
  - destruct sx; [discriminate | reflexivity].
  - rewrite SFcompare_refl_finite. destruct sx; [discriminate | reflexivity].
Qed.

Lemma finite_not_nan (x : float) :
  PrimFloat.is_finite x = true -> PrimFloat.is_nan x = false.
Proof.
  unfold PrimFloat.is_finite. destruct (PrimFloat.is_nan x); [discriminate|].
  reflexivity.
Qed.

(** The sum of two finite numbers is a number. *)
Lemma add_not_nan (a b : float) :
  PrimFloat.is_finite a = true -> PrimFloat.is_finite b = true ->
  PrimFloat.is_nan (a + b) = false.
Proof.
  intros Ha Hb. apply is_finite_real in Ha, Hb.
  pose proof (rounds_to_not_nan _ _
                (SFadd_rounds _ _ (Prim2SF_valid a) (Prim2SF_valid b) Ha Hb))
    as N.
  unfold PrimFloat.is_nan. rewrite eqb_spec, add_spec. unfold SF64add.
  destruct (SFadd prec emax (Prim2SF a) (Prim2SF b)) as [s|[]| |s m e];
    try congruence; try reflexivity.
  unfold SFeqb. rewrite SFcompare_refl_finite. reflexivity.
Qed.

Lemma leb_add_0_r (x : float) :
  PrimFloat.is_finite x = true -> (x <=? x + 0) = true.
Proof.
  intros Hx. apply is_finite_real in Hx.
  rewrite leb_spec, add_spec.
  apply (rounds_to_monotone (sval (Prim2SF x))
           (sval (Prim2SF x) + sval (Prim2SF 0))%Z).
  - apply real_rounds_to_self; [apply Prim2SF_valid | exact Hx].
  - apply SFadd_rounds; try apply Prim2SF_valid; [exact Hx | reflexivity].
  - apply Prim2SF_valid.
  - rewrite <- add_spec. apply Prim2SF_valid.
  - change (sval (Prim2SF 0)) with 0%Z. lia.
Qed.

(** A straight particle's advance and wrap, on the height alone: from
    between the two ends of a component of length [len], a step of
    [speed >= 0] followed by the wrap test ends between the two ends. *)
Lemma advance_in_pipe (len speed y0 : float) :
  PrimFloat.is_finite len = true -> (0 <=? len) = true ->
  PrimFloat.is_finite speed = true -> (0 <=? speed) = true ->
  ((- len) / 2 <=? y0) = true -> (y0 <=? len / 2) = true ->
  let y1 := y0 + speed in
  let y' := if len / 2 <? y1 then (- len) / 2 else y1 in
  ((- len) / 2 <=? y') = true /\ (y' <=? len / 2) = true.
Proof.
  intros FL HL Fs Hs Hlo Hhi y1 y'.
  destruct (opp_le_self len FL HL) as [FO HO].
  pose proof (div_ge_1_finite len 2 FL eq_refl eq_refl) as Fhi.
  pose proof (div_ge_1_finite (- len) 2 FO eq_refl eq_refl) as Flo.
  pose proof (div_monotone_l (- len) len 2 FO FL eq_refl eq_refl HO) as Hlh.
  assert (Fy : PrimFloat.is_finite y0 = true)
    by (apply (finite_between ((- len) / 2) y0 (len / 2)); assumption).
  unfold y'. destruct (len / 2 <? y1) eqn:T.
  - split; [apply leb_refl_finite; exact Flo | exact Hlh].
  - split.
    + apply (leb_trans _ y0); [exact Hlo|].
      apply (leb_trans _ (y0 + 0)); [apply leb_add_0_r; exact Fy|].
      apply add_monotone; assumption.
    + apply leb_of_not_ltb; [| |exact T].
      * apply finite_not_nan. exact Fhi.
      * apply add_not_nan; assumption.
Qed.

End Binary64Order.

(** ** The configuration store *)

(** X1. Reading a key after a slider wrote [v] under [key] gives [v] for
    that key and the old value for every other key, and the model is
    untouched. *)
Theorem getKey_setKey (config : Config) (key key' : Key) (v : float) :
  getKey (setKey config key v) key'
  = (if Key_eqb key key' then v else getKey config key')
  /\ model (setKey config key v) = model config.
Proof. destruct key, key'; split; reflexivity. Qed.

(** X2. Two writes in a row: on the same key the last one wins, on
    different keys their order does not matter; and CLEAN SYSTEM overrides
    whatever the fouling slider wrote. *)
Theorem setKey_setKey (config : Config) (k1 k2 : Key) (v1 v2 : float) :
  setKey (setKey config k1 v1) k2 v2
  = (if Key_eqb k1 k2 then setKey config k2 v2
     else setKey (setKey config k2 v2) k1 v1)
  /\ cleanSystem (setKey config Kfouling v1) = cleanSystem config.
Proof. destruct k1, k2; split; reflexivity. Qed.

Lemma initial_on_positions (key : Key) :
  In (getKey initialConfig key) (positions key).
Proof.
  destruct key; cbn [getKey initialConfig positions tempIn flow areaOverride
                     fouling length radius].
  - unfold tempIn_positions, slider. apply in_map_iff.
    exists 90%nat. split; [reflexivity | apply in_seq; lia].
  - unfold flow_positions, slider. apply in_map_iff.
    exists 25%nat. split; [reflexivity | apply in_seq; lia].
  - unfold areaOverride_positions, slider. apply in_map_iff.
    exists 15%nat. split; [reflexivity | apply in_seq; lia].
  - unfold fouling_positions, slider. apply in_map_iff.
    exists 5%nat. split; [reflexivity | apply in_seq; lia].
  - unfold length_positions, slider. apply in_map_iff.
    exists 8%nat. split; [reflexivity | apply in_seq; lia].
  - unfold radius_positions. apply in_map_iff.
    exists 4%nat. split; [reflexivity | apply in_seq; lia].
Qed.

Lemma handle_on_positions (config : Config) (ev : Event) :
  possible ev ->
  (forall key, In (getKey config key) (positions key)) ->
  forall key, In (getKey (handle config ev) key) (positions key).
Proof.
  intros Hev Hc key. pose proof (Hc key) as Hk.
  destruct ev as [v|key0 v|]; cbn [handle possible] in *.
  - destruct key; exact Hk.
  - destruct key0, key; first [exact Hev | exact Hk].
  - destruct key; try exact Hk. apply zero_on_fouling_slider.
Qed.

Lemma fold_on_positions (evs : list Event) (config : Config) :
  Forall possible evs ->
  (forall key, In (getKey config key) (positions key)) ->
  forall key, In (getKey (fold_left handle evs config) key) (positions key).
Proof.
  revert config. induction evs as [|ev evs IH]; intros config Hevs Hc.
  - exact Hc.
  - inversion Hevs as [|? ? Hev Hrest]; subst. cbn [fold_left].
    apply IH; [exact Hrest|]. apply handle_on_positions; assumption.
Qed.

(** X3. Whatever the user does, every value of the configuration stays on
    a position of its own range input: after any sequence of model
    selections, slider moves and CLEAN SYSTEM presses on the freshly mounted
    page, [config[key]] is one of the positions of the input of [key], for
    each of the six keys. *)
Theorem reachable_on_sliders (evs : list Event) :
  Forall possible evs ->
  forall key, In (getKey (run evs) key) (positions key).
Proof.
  intros H. apply fold_on_positions; [exact H | apply initial_on_positions].
Qed.

Lemma reachable_on_sliders_witness :
  Forall possible [Slide Kfouling 0.01; CleanSystem; SelectModel Spiral;
                   Slide Kradius 0.15; Slide Klength 12]
  /\ In (getKey (run [Slide Kfouling 0.01; CleanSystem; SelectModel Spiral;
                      Slide Kradius 0.15; Slide Klength 12]) Kfouling)
        (positions Kfouling)
  /\ In (getKey (run [Slide Kfouling 0.01; CleanSystem; SelectModel Spiral;
                      Slide Kradius 0.15; Slide Klength 12]) Kradius)
        (positions Kradius).
Proof.
  assert (H : Forall possible
                [Slide Kfouling 0.01; CleanSystem; SelectModel Spiral;
                 Slide Kradius 0.15; Slide Klength 12]).
  { repeat (apply Forall_cons; [first [exact I | on_slider]|]).
    apply Forall_nil. }
  split; [exact H|].
  split; exact (reachable_on_sliders _ H _).
Defined.

(** ** The engine, beyond the slider positions *)

Lemma sub_0_r_pos (x : float) : (0 <? x) = true -> x - 0 = x.
Proof.
  intros H. apply Prim2SF_inj. rewrite sub_spec.
  rewrite ltb_spec in H. change (Prim2SF 0) with (S754_zero false) in *.
  destruct (Prim2SF x) as [sx|sx| |sx mx ex]; try discriminate; reflexivity.
Qed.

(** More fouling resistance never gives a larger coefficient, whatever the
    clean one is. *)
Lemma coefficient_antitone (r f1 f2 : float) :
  PrimFloat.is_finite r = true -> (0 <? r) = true ->
  (0 <=? f1) = true -> (f1 <=? f2) = true ->
  (1 / (r + f2) <=? 1 / (r + f1)) = true
  /\ (1 / (r + f1) <=? 1 / r) = true
  /\ (0 <=? 1 / (r + f2)) = true.
Proof.
  intros Hr Hp H0 H12.
  pose proof (add_monotone r 0 f1 Hr H0) as A1.
  pose proof (add_monotone r f1 f2 Hr H12) as A2.
  rewrite (add_0_r_pos r Hp) in A1.
  assert (P1 : (0 <? r + f1) = true) by (apply (ltb_leb_trans 0 r); assumption).
  assert (P2 : (0 <? r + f2) = true)
    by (apply (ltb_leb_trans 0 (r + f1)); assumption).
  split; [|split].
  - apply div_antitone; try assumption; reflexivity.
  - apply div_antitone; try assumption; reflexivity.
  - destruct (above_finite 0 (r + f2) eq_refl (ltb_leb _ _ P2)) as [F|I].
    + apply div_nonneg; try assumption; reflexivity.
    + rewrite I. reflexivity.
Qed.

Lemma on_clean_grid_spec (check : float -> float -> bool) :
  on_clean_grid check = true ->
  forall (config : Config) (mat : Material),
    In mat materials -> In (flow config) flow_positions ->
    check (k mat) (flow config) = true.
Proof.
  unfold on_clean_grid. intros H config mat Hm Hf.
  rewrite forallb_forall in H. specialize (H mat Hm).
  rewrite forallb_forall in H. exact (H _ Hf).
Qed.

Lemma check_clean_on_grid : on_clean_grid check_clean = true.
Proof. vm_compute. reflexivity. Qed.


Section EngineBeyond.

Variable Math_log : float -> float.
Variable Number_toString : float -> string.

Local Abbreviation physics := (App.physics Math_log Number_toString).

(** X4. The engine reads five numbers only: the conductivity, the inlet
    temperature, the flow, the area and the fouling factor.  The model, the
    two geometry sliders and the name and colour of the material change
    nothing of what it returns. *)
Theorem physics_reads_five_numbers (c1 c2 : Config) (m1 m2 : Material) :
  k m1 = k m2 ->
  tempIn c1 = tempIn c2 ->
  flow c1 = flow c2 ->
  areaOverride c1 = areaOverride c2 ->
  fouling c1 = fouling c2 ->
  physics c1 m1 = physics c2 m2.
Proof.
  intros Hk Ht Hf Ha Ho. unfold App.physics.
  rewrite Hk, Ht, Hf, Ha, Ho. reflexivity.
Qed.

(** X5. For each material of the catalog and each position of the flow
    slider, more fouling never raises the overall coefficient or the
    efficiency: for all Numbers [0 <= f1 <= f2], [U] and [Efficiency] at
    fouling [f2] are at most those at fouling [f1]. *)
Theorem fouling_never_raises_U
        (config : Config) (mat : Material) (f1 f2 : float) :
  In mat materials -> In (flow config) flow_positions ->
  (0 <=? f1) = true -> (f1 <=? f2) = true ->
  (U_of (setKey config Kfouling f2) mat
   <=? U_of (setKey config Kfouling f1) mat) = true
  /\ (Efficiency_of (setKey config Kfouling f2) mat
      <=? Efficiency_of (setKey config Kfouling f1) mat) = true.
Proof.
  intros Hm Hf H0 H12.
  pose proof (on_clean_grid_spec check_clean check_clean_on_grid
                config mat Hm Hf) as G.
  unfold check_clean in G. cbv zeta in G.
  unfold Efficiency_of, U_of, cleanU.
  cbn [setKey k flow fouling].
  set (cu := (k mat / 0.05) * (flow config / 50)) in *.
  apply andb_prop in G. destruct G as [G G6].
  apply andb_prop in G. destruct G as [G G5].
  apply andb_prop in G. destruct G as [G G4].
  apply andb_prop in G. destruct G as [G G3].
  apply andb_prop in G. destruct G as [G1 G2].
  destruct (coefficient_antitone (1 / cu) f1 f2 G3 G4 H0 H12)
    as (A & B & C).
  set (u1 := 1 / (1 / cu + f1)) in *. set (u2 := 1 / (1 / cu + f2)) in *.
  assert (C1 : (0 <=? u1) = true) by (apply (leb_trans 0 u2 u1); assumption).
  assert (B2 : (u2 <=? 1 / (1 / cu)) = true)
    by (apply (leb_trans u2 u1); assumption).
  assert (F1 : PrimFloat.is_finite u1 = true)
    by (apply (finite_between 0 u1 (1 / (1 / cu))); try assumption;
        reflexivity).
  assert (F2 : PrimFloat.is_finite u2 = true)
    by (apply (finite_between 0 u2 (1 / (1 / cu))); try assumption;
        reflexivity).
  split; [exact A|].
  assert (Q1 : PrimFloat.is_finite (u1 / cu) = true).
  { apply (finite_between 0 (u1 / cu) (1 / (1 / cu) / cu));
      try assumption; try reflexivity.
    - apply div_nonneg; assumption.
    - apply div_monotone_l; assumption. }
  assert (Q2 : PrimFloat.is_finite (u2 / cu) = true).
  { apply (finite_between 0 (u2 / cu) (1 / (1 / cu) / cu));
      try assumption; try reflexivity.
    - apply div_nonneg; assumption.
    - apply div_monotone_l; assumption. }
  apply mul_monotone; try assumption; try reflexivity.
  apply div_monotone_l; assumption.
Qed.

(** X6. From 40 degrees on, which is where the temperature slider starts,
    the [|| 1.1] fallback is never taken: the ratio [(tempIn - 25) / 15] is
    at least 1, so it is what [Math.log] is called on. *)
Theorem fallback_unused_from_40 (config : Config) :
  (40 <=? tempIn config) = true ->
  log_argument config = (tempIn config - 25) / 15
  /\ (1 <=? log_argument config) = true.
Proof.
  intros H. unfold log_argument.
  set (t := tempIn config) in *.
  assert (Hq : (1 <=? (t - 25) / 15) = true).
  { destruct (above_finite 40 t eq_refl H) as [F|I].
    - assert (Hp : (0 <? t) = true)
        by (apply (ltb_leb_trans 0 40 t); [reflexivity | exact H]).
      pose proof (sub_monotone_l 40 t 25 eq_refl F eq_refl H) as H1.
      change (40 - 25) with 15 in H1.
      pose proof (sub_monotone t 0 25 F eq_refl) as H2.
      rewrite (sub_0_r_pos t Hp) in H2.
      assert (Fd : PrimFloat.is_finite (t - 25) = true)
        by (apply (finite_between 15 (t - 25) t); try assumption;
            reflexivity).
      pose proof (div_monotone_l 15 (t - 25) 15 eq_refl Fd eq_refl eq_refl H1)
        as H3.
      change (15 / 15) with 1 in H3. exact H3.
    - rewrite I. reflexivity. }
  unfold JS.or. rewrite (ge_one_is_truthy _ Hq). split; [reflexivity | exact Hq].
Qed.

End EngineBeyond.

(** X7. The particles never stand still or run backwards, and raising the
    flow never slows them: for finite flows [0 <= f1 <= f2] the speed passed
    to the model is at least 0.02 and the speed at [f1] is at most the speed
    at [f2]. *)
Theorem speed_monotone (c1 c2 : Config) :
  PrimFloat.is_finite (flow c2) = true ->
  (0 <=? flow c1) = true -> (flow c1 <=? flow c2) = true ->
  (0.02 <=? speed c1) = true /\ (speed c1 <=? speed c2) = true.
Proof.
  intros F2 H0 H12. unfold speed.
  assert (F1 : PrimFloat.is_finite (flow c1) = true)
    by (apply (finite_between 0 (flow c1) (flow c2)); try assumption;
        reflexivity).
  pose proof (div_ge_1_finite (flow c1) 500 F1 eq_refl eq_refl) as D1.
  pose proof (div_ge_1_finite (flow c2) 500 F2 eq_refl eq_refl) as D2.
  pose proof (div_nonneg (flow c1) 500 F1 eq_refl H0 eq_refl) as N1.
  split.
  - pose proof (add_monotone_l 0 (flow c1 / 500) 0.02 eq_refl D1 eq_refl N1)
      as A.
    change (0 + 0.02) with 0.02 in A. exact A.
  - apply add_monotone_l; try assumption; try reflexivity.
    apply div_monotone_l; try assumption; reflexivity.
Qed.

(** ** The particle engine *)

Section ParticleFacts.

Variable Math_cos : float -> float.
Variable Math_sin : float -> float.

Local Abbreviation move := (FlowParticles.move Math_cos Math_sin).
Local Abbreviation frame := (FlowParticles.frame Math_cos Math_sin).
Local Abbreviation after := (FlowParticles.after Math_cos Math_sin).

Lemma move_in_pipe (props : FlowParticles.Props) (len t : float) (i : nat)
      (child : FlowParticles.Position) :
  FlowParticles.isSpiral props = false ->
  FlowParticles.length props = Some len ->
  PrimFloat.is_finite len = true -> (0 <=? len) = true ->
  PrimFloat.is_finite (FlowParticles.speed props) = true ->
  (0 <=? FlowParticles.speed props) = true ->
  FlowParticles.in_pipe len child ->
  FlowParticles.in_pipe len (move props t i child).
Proof.
  intros Hs Hl FL HL Fs H0 [Hlo Hhi].
  unfold FlowParticles.move, FlowParticles.in_pipe. rewrite Hs, Hl.
  cbn [JS.ToNumber FlowParticles.y].
  apply advance_in_pipe; assumption.
Qed.

(** X8. One frame of a straight stream: a particle that is between the two
    ends of a component of finite length [len >= 0] is still between them
    after advancing by a finite [speed >= 0] and wrapping, and the frame
    leaves its [x] and [z] alone. *)
Theorem move_keeps_in_pipe
        (props : FlowParticles.Props) (len t : float) (i : nat)
        (child : FlowParticles.Position) :
  FlowParticles.isSpiral props = false ->
  FlowParticles.length props = Some len ->
  PrimFloat.is_finite len = true -> (0 <=? len) = true ->
  PrimFloat.is_finite (FlowParticles.speed props) = true ->
  (0 <=? FlowParticles.speed props) = true ->
  FlowParticles.in_pipe len child ->
  FlowParticles.in_pipe len (move props t i child)
  /\ FlowParticles.x (move props t i child) = FlowParticles.x child
  /\ FlowParticles.z (move props t i child) = FlowParticles.z child.
Proof.
  intros Hs Hl FL HL Fs H0 Hin.
  split; [apply move_in_pipe; assumption|].
  unfold FlowParticles.move. rewrite Hs. split; reflexivity.
Qed.

Lemma frame_in_pipe (props : FlowParticles.Props) (len t : float)
      (group : list FlowParticles.Position) :
  FlowParticles.isSpiral props = false ->
  FlowParticles.length props = Some len ->
  PrimFloat.is_finite len = true -> (0 <=? len) = true ->
  PrimFloat.is_finite (FlowParticles.speed props) = true ->
  (0 <=? FlowParticles.speed props) = true ->
  Forall (FlowParticles.in_pipe len) group ->
  Forall (FlowParticles.in_pipe len) (frame props t group)
  /\ List.length (frame props t group) = List.length group.
Proof.
  intros Hs Hl FL HL Fs H0 Hg. unfold FlowParticles.frame. split.
  - apply Forall_forall. intros p Hp. apply in_map_iff in Hp.
    destruct Hp as ([i c] & <- & Hic). cbn [fst snd].
    apply move_in_pipe; try assumption.
    apply in_combine_r in Hic. rewrite Forall_forall in Hg. apply Hg, Hic.
  - rewrite length_map, length_combine, length_seq. apply Nat.min_id.
Qed.

Lemma frames_in_pipe (props : FlowParticles.Props) (len : float)
      (times : list float) (group : list FlowParticles.Position) :
  FlowParticles.isSpiral props = false ->
  FlowParticles.length props = Some len ->
  PrimFloat.is_finite len = true -> (0 <=? len) = true ->
  PrimFloat.is_finite (FlowParticles.speed props) = true ->
  (0 <=? FlowParticles.speed props) = true ->
  Forall (FlowParticles.in_pipe len) group ->
  Forall (FlowParticles.in_pipe len)
         (fold_left (fun g t => frame props t g) times group)
  /\ List.length (fold_left (fun g t => frame props t g) times group)
     = List.length group.
Proof.
  intros Hs Hl FL HL Fs H0. revert group.
  induction times as [|t times IH]; intros group Hg.
  - split; [exact Hg | reflexivity].
  - cbn [fold_left].
    destruct (frame_in_pipe props len t group Hs Hl FL HL Fs H0 Hg)
      as [Hf Hn].
    destruct (IH _ Hf) as [IH1 IH2]. split; [exact IH1|].
    rewrite IH2. exact Hn.
Qed.

(** The straight streams of a rendered configuration. *)
Lemma rendered_straight (config : Config) (props : FlowParticles.Props) :
  In props (Models.rendered config) ->
  FlowParticles.isSpiral props = false ->
  FlowParticles.speed props = speed config
  /\ FlowParticles.length props = Some (App.length config)
  /\ FlowParticles.count props = 12%nat.
Proof.
  unfold Models.rendered, Models.particles. intros Hin Hs.
  destruct (model config).
  - destruct Hin as [<-|[]]. repeat split.
  - apply in_map_iff in Hin. destruct Hin as (i & <- & _). repeat split.
  - apply in_map_iff in Hin. destruct Hin as (i & <- & _). repeat split.
  - destruct Hin as [<-|[]]. repeat split.
  - destruct Hin as [<-|[<-|[]]]; discriminate.
Qed.

Lemma length_positions_ok (len : float) :
  In len length_positions ->
  PrimFloat.is_finite len = true /\ (0 <=? len) = true
  /\ Forall (FlowParticles.in_pipe len)
       (map (fun i => {| FlowParticles.x := 0;
                         FlowParticles.y :=
                           (JS.of_index i / JS.of_index 12) * len - len / 2;
                         FlowParticles.z := 0 |}) (seq 0 12)).
Proof.
  intros Hin.
  assert (G : forallb (fun len =>
                PrimFloat.is_finite len && (0 <=? len)
                && forallb (fun i =>
                     let y := (JS.of_index i / JS.of_index 12) * len - len / 2
                     in ((- len) / 2 <=? y) && (y <=? len / 2)) (seq 0 12))
              length_positions = true) by (vm_compute; reflexivity).
  rewrite forallb_forall in G. specialize (G len Hin).
  apply andb_prop in G. destruct G as [G G3].
  apply andb_prop in G. destruct G as [G1 G2].
  split; [exact G1|]. split; [exact G2|].
  apply Forall_forall. intros p Hp. apply in_map_iff in Hp.
  destruct Hp as (i & <- & Hi).
  rewrite forallb_forall in G3. specialize (G3 i Hi). cbv zeta in G3.
  apply andb_prop in G3. exact G3.
Qed.

Lemma flow_positions_speed (config : Config) :
  In (flow config) flow_positions ->
  PrimFloat.is_finite (speed config) = true /\ (0 <=? speed config) = true.
Proof.
  intros Hin. unfold speed.
  assert (G : forallb (fun fl =>
                PrimFloat.is_finite (fl / 500 + 0.02)
                && (0 <=? fl / 500 + 0.02)) flow_positions = true)
    by (vm_compute; reflexivity).
  rewrite forallb_forall in G. specialize (G _ Hin).
  apply andb_prop in G. exact G.
Qed.

(** X9. On every slider configuration, each straight stream the page
    renders (Double Pipe, Shell and Tube, Plate, Finned) has 12 particles,
    and after any number of frames all 12 are still between the two ends
    of the component: no particle ever leaves it. *)
Theorem particles_stay_in_pipe
        (config : Config) (props : FlowParticles.Props)
        (times : list float) :
  In (App.length config) length_positions ->
  In (flow config) flow_positions ->
  In props (Models.rendered config) ->
  FlowParticles.isSpiral props = false ->
  Forall (FlowParticles.in_pipe (App.length config)) (after props times)
  /\ List.length (after props times) = 12%nat.
Proof.
  intros HL Hf Hin Hs.
  destruct (rendered_straight config props Hin Hs) as (Es & El & Ec).
  destruct (length_positions_ok _ HL) as (FL & H0 & Hinit).
  destruct (flow_positions_speed config Hf) as [Fs Hs0].
  rewrite <- Es in Fs, Hs0.
  assert (Hc : Forall (FlowParticles.in_pipe (App.length config))
                      (FlowParticles.children props)).
  { unfold FlowParticles.children, FlowParticles.initial.
    rewrite Hs, El, Ec. exact Hinit. }
  destruct (frames_in_pipe props (App.length config) times
              (FlowParticles.children props) Hs El FL H0 Fs Hs0 Hc)
    as [A B].
  split; [exact A|]. unfold FlowParticles.after. rewrite B.
  unfold FlowParticles.children. rewrite length_map, length_seq. exact Ec.
Qed.

Lemma frame_length (props : FlowParticles.Props) (t : float)
      (group : list FlowParticles.Position) :
  List.length (frame props t group) = List.length group.
Proof.
  unfold FlowParticles.frame.
  rewrite length_map, length_combine, length_seq. apply Nat.min_id.
Qed.

Lemma after_length (props : FlowParticles.Props) (times : list float) :
  List.length (after props times) = FlowParticles.count props.
Proof.
  unfold FlowParticles.after.
  assert (H : forall group,
             List.length (fold_left (fun g t => frame props t g) times group)
             = List.length group).
  { induction times as [|t times IH]; intros group; [reflexivity|].
    cbn [fold_left]. rewrite IH. apply frame_length. }
  rewrite H. unfold FlowParticles.children.
  rewrite length_map, length_seq. reflexivity.
Qed.

Lemma map_fst_combine_seq (A : Type) (l : list A) (start : nat) :
  map fst (combine (seq start (List.length l)) l) = seq start (List.length l).
Proof.
  revert start. induction l as [|a l IH]; intros start; [reflexivity|].
  cbn [List.length seq combine map fst]. rewrite IH. reflexivity.
Qed.

(** X14. A spiral stream follows the clock alone: after any frames, the
    last at clock reading [t], particle [i] of the [count] particles is at
    height 0 on the point of angle [t * speed * 2 + i * (2 PI / count)],
    wherever the earlier frames had put it. *)
Theorem spiral_follows_clock
        (props : FlowParticles.Props) (times : list float) (t : float) :
  FlowParticles.isSpiral props = true ->
  after props (times ++ [t])
  = map (fun i =>
           let a := (t * FlowParticles.speed props * 2)
                    + (JS.of_index i
                       * (FlowParticles.Math_PI * 2
                          / JS.of_index (FlowParticles.count props))) in
           {| FlowParticles.x := Math_cos a * FlowParticles.spiralRadius props;
              FlowParticles.y := 0;
              FlowParticles.z := Math_sin a * FlowParticles.spiralRadius props |})
        (seq 0 (FlowParticles.count props)).
Proof.
  intros Hs. unfold FlowParticles.after. rewrite fold_left_app.
  cbn [fold_left]. fold (after props times).
  unfold FlowParticles.frame.
  replace (seq 0 (FlowParticles.count props))
    with (map fst (combine (seq 0 (List.length (after props times)))
                           (after props times)))
    by (rewrite map_fst_combine_seq, after_length; reflexivity).
  rewrite map_map. apply map_ext. intros [i child]. cbn [fst snd].
  unfold FlowParticles.move. rewrite Hs. reflexivity.
Qed.

End ParticleFacts.

(** X10. On every position of the length slider the 15 fins of the finned
    tube sit on the tube: the first at its lower end, each one above the
    one before, and the last below the upper end. *)
Theorem fins_on_tube (len : float) :
  In len length_positions ->
  List.length (Models.fins len) = 15%nat
  /\ (nth 0 (Models.fins len) nan =? - (len / 2)) = true
  /\ (forall i, (i < 14)%nat ->
        (nth i (Models.fins len) nan <? nth (S i) (Models.fins len) nan)
        = true)
  /\ (nth 14 (Models.fins len) nan <? len / 2) = true.
Proof.
  intros Hin.
  assert (G : forallb (fun len =>
                (nth 0 (Models.fins len) nan =? - (len / 2))
                && forallb (fun i =>
                     nth i (Models.fins len) nan
                     <? nth (S i) (Models.fins len) nan) (seq 0 14)
                && (nth 14 (Models.fins len) nan <? len / 2))
              length_positions = true) by (vm_compute; reflexivity).
  rewrite forallb_forall in G. specialize (G len Hin).
  apply andb_prop in G. destruct G as [G G3].
  apply andb_prop in G. destruct G as [G1 G2].
  split; [unfold Models.fins; rewrite length_map, length_seq; reflexivity|].
  split; [exact G1|]. split; [|exact G3].
  intros i Hi. rewrite forallb_forall in G2. apply G2. apply in_seq. lia.
Qed.

Lemma fins_on_tube_witness :
  In 8 length_positions
  /\ (nth 14 (Models.fins 8) nan <? 8 / 2) = true.
Proof.
  assert (H : In 8 length_positions) by on_slider.
  split; [exact H|].
  exact (proj2 (proj2 (proj2 (fins_on_tube 8 H)))).
Defined.

(** ** The labels and readouts *)

Section ReadoutFacts.

Variable Math_log : float -> float.
Variable Number_toString : float -> string.

Local Abbreviation physics := (App.physics Math_log Number_toString).
Local Abbreviation foulingLabel := (App.foulingLabel Number_toString).
Local Abbreviation efficiencyReadout := (App.efficiencyReadout Number_toString).

(** X11. The label of the fouling slider shows the slider's own decimal: at
    position [j] of its 101 positions, where the stored Number is the
    binary64 value nearest to [j / 10000], [toFixed(4)] prints the numeral
    of [j] with the point four places from the right. *)
Theorem foulingLabel_on_slider (config : Config) (j : nat) :
  (j <= 100)%nat ->
  foulingLabel (setKey config Kfouling (JS.of_index j / 10000))
  = Normal (JS.place_point (JS.digits_of (Z.of_nat j)) 4).
Proof.
  intros Hj. unfold App.foulingLabel. cbn [setKey fouling].
  rewrite toFixed_in_range by lia. f_equal.
  assert (G : forallb (fun j =>
                String.eqb
                  (JS.toFixed_string Number_toString
                     (JS.of_index j / 10000) 4)
                  (JS.place_point (JS.digits_of (Z.of_nat j)) 4))
              (seq 0 101) = true) by (vm_compute; reflexivity).
  rewrite forallb_forall in G. apply String.eqb_eq. apply G.
  apply in_seq. lia.
Qed.

(** X12. After CLEAN SYSTEM, for every material of the catalog and every
    position of the flow slider, the efficiency readout is [100.0] and is
    drawn in green, although the computed efficiency is not always the
    Number 100. *)
Theorem efficiency_readout_after_clean
        (config : Config) (mat : Material) (p : Physics) :
  In mat materials -> In (flow config) flow_positions ->
  physics (cleanSystem config) mat = Normal p ->
  efficiencyReadout p = Normal "100.0"%string
  /\ efficiencyColor p = "#4ade80"%string.
Proof.
  intros Hm Hf Hp. rewrite physics_returns in Hp.
  injection Hp as <-. unfold App.efficiencyReadout, efficiencyColor.
  cbn [Efficiency]. rewrite toFixed_in_range by lia.
  unfold Efficiency_of, U_of, cleanU. cbn [cleanSystem k flow fouling].
  assert (G : on_clean_grid (fun kk fl =>
                let cu := (kk / 0.05) * (fl / 50) in
                let eff := (1 / ((1 / cu) + 0) / cu) * 100 in
                String.eqb (JS.toFixed_string Number_toString eff 1) "100.0"
                && negb (eff <? 80)) = true) by (vm_compute; reflexivity).
  pose proof (on_clean_grid_spec _ G config mat Hm Hf) as H.
  cbv zeta beta in H. apply andb_prop in H. destruct H as [H1 H2].
  apply String.eqb_eq in H1. rewrite H1.
  apply negb_true_iff in H2. rewrite H2. split; reflexivity.
Qed.

Lemma zero_mul_finite (x : float) :
  PrimFloat.is_finite x = true -> exists s, Prim2SF (0 * x) = S754_zero s.
Proof.
  intros H. apply is_finite_real in H. rewrite mul_spec.
  change (Prim2SF 0) with (S754_zero false).
  destruct (Prim2SF x) as [sx|sx| |sx mx ex]; try discriminate;
    eexists; reflexivity.
Qed.

Lemma toFixed_string_sub_zero (t z : float) (s : bool) (fd : nat) :
  Prim2SF z = S754_zero s ->
  JS.toFixed_string Number_toString (t - z) fd
  = JS.toFixed_string Number_toString t fd.
Proof.
  intros Hz.
  assert (E : Prim2SF (t - z) = Prim2SF t
              \/ exists s1 s2, Prim2SF (t - z) = S754_zero s1
                               /\ Prim2SF t = S754_zero s2).
  { rewrite sub_spec, Hz.
    destruct (Prim2SF t) as [st|st| |st mt et]; try (left; reflexivity).
    right. destruct st, s; eexists; eexists; split; reflexivity. }
  destruct E as [E|(s1 & s2 & E1 & E2)].
  - apply Prim2SF_inj in E. rewrite E. reflexivity.
  - unfold JS.toFixed_string. rewrite E1, E2. reflexivity.
Qed.

Lemma add_zero_nonzero (t z : float) (s : bool) :
  PrimFloat.is_zero t = false -> Prim2SF z = S754_zero s -> t + z = t.
Proof.
  intros Ht Hz. apply Prim2SF_inj. rewrite add_spec, Hz.
  unfold PrimFloat.is_zero in Ht. rewrite eqb_spec in Ht.
  change (Prim2SF 0) with (S754_zero false) in Ht.
  destruct (Prim2SF t) as [st|st| |st mt et]; try reflexivity.
  destruct st; discriminate.
Qed.

(** X13. Whenever the heat duty is finite, the chart starts at the inlet:
    its first point has [dist = 0], the inlet temperature to one decimal as
    the hot value and [25.0] as the cold value. *)
Theorem temperatureProfile_starts_at_inlet
        (config : Config) (mat : Material) (p : Physics) :
  physics config mat = Normal p ->
  PrimFloat.is_finite (Q p) = true ->
  nth_error (data p) 0
  = Some {| dist := 0;
            Hot := JS.toFixed_string Number_toString (tempIn config) 1;
            Cold := "25.0" |}.
Proof.
  intros Hp HQ. rewrite physics_returns in Hp. injection Hp as <-.
  cbn [Q] in HQ. cbn [data map seq nth_error]. f_equal.
  unfold sampleAt, hotAt, coldAt. change (JS.of_index 0) with 0.
  set (q := Q_of Math_log config mat) in *.
  destruct (zero_mul_finite (q / 15)
              (div_ge_1_finite q 15 HQ eq_refl eq_refl)) as [s15 H15].
  destruct (zero_mul_finite (q / 25)
              (div_ge_1_finite q 25 HQ eq_refl eq_refl)) as [s25 H25].
  rewrite (toFixed_string_sub_zero _ _ s15 1 H15).
  rewrite (add_zero_nonzero 25 _ s25 eq_refl H25).
  reflexivity.
Qed.

End ReadoutFacts.

(** ** The further properties on concrete inputs *)

(** [physics_reads_five_numbers] on the initial state against another model,
    another geometry and a material of the same conductivity. *)
Lemma physics_reads_five_numbers_witness :
  App.physics Host.Math_log Host.Number_toString initialConfig initialMat =
  App.physics Host.Math_log Host.Number_toString
    (setKey (setKey (setModel initialConfig Spiral) Klength 12) Kradius 0.6)
    {| name := "Brass"; k := 401; color := "#b5a642" |}.
Proof.
  apply (physics_reads_five_numbers Host.Math_log Host.Number_toString);
    reflexivity.
Defined.

(** [fouling_never_raises_U] on the initial state, between a clean exchanger
    and the initial fouling factor. *)
Lemma fouling_never_raises_U_witness :
  In initialMat materials /\ In (flow initialConfig) flow_positions /\
  (0 <=? 0) = true /\ (0 <=? 0.0005) = true /\
  (U_of (setKey initialConfig Kfouling 0.0005) initialMat
   <=? U_of (setKey initialConfig Kfouling 0) initialMat) = true /\
  (Efficiency_of (setKey initialConfig Kfouling 0.0005) initialMat
   <=? Efficiency_of (setKey initialConfig Kfouling 0) initialMat) = true.
Proof.
  assert (Hm : In initialMat materials) by (left; reflexivity).
  assert (Hf : In (flow initialConfig) flow_positions) by on_slider.
  split; [exact Hm|]. split; [exact Hf|].
  split; [reflexivity|]. split; [reflexivity|].
  apply (fouling_never_raises_U initialConfig initialMat 0 0.0005 Hm Hf);
    reflexivity.
Defined.

(** [fallback_unused_from_40] on the initial state. *)
Lemma fallback_unused_from_40_witness :
  (40 <=? tempIn initialConfig) = true /\
  log_argument initialConfig = (tempIn initialConfig - 25) / 15 /\
  (1 <=? log_argument initialConfig) = true.
Proof.
  split; [reflexivity|].
  apply (fallback_unused_from_40 initialConfig). reflexivity.
Defined.

(** [speed_monotone] between the two ends of the flow slider. *)
Lemma speed_monotone_witness :
  PrimFloat.is_finite (flow (setKey initialConfig Kflow 100)) = true /\
  (0 <=? flow (setKey initialConfig Kflow 5)) = true /\
  (flow (setKey initialConfig Kflow 5)
   <=? flow (setKey initialConfig Kflow 100)) = true /\
  (0.02 <=? speed (setKey initialConfig Kflow 5)) = true /\
  (speed (setKey initialConfig Kflow 5)
   <=? speed (setKey initialConfig Kflow 100)) = true.
Proof.
  split; [reflexivity|]. split; [reflexivity|]. split; [reflexivity|].
  apply (speed_monotone (setKey initialConfig Kflow 5)
           (setKey initialConfig Kflow 100)); reflexivity.
Defined.

(** [move_keeps_in_pipe] on a particle at the upper end of the initial
    component, which the frame wraps to the lower end. *)
Lemma move_keeps_in_pipe_witness :
  FlowParticles.isSpiral Models.initialStream = false /\
  FlowParticles.length Models.initialStream = Some 8 /\
  PrimFloat.is_finite 8 = true /\ (0 <=? 8) = true /\
  PrimFloat.is_finite (FlowParticles.speed Models.initialStream) = true /\
  (0 <=? FlowParticles.speed Models.initialStream) = true /\
  FlowParticles.in_pipe 8 (FlowParticles.mkPosition 0 4 0) /\
  FlowParticles.in_pipe 8
    (FlowParticles.move (fun _ => nan) (fun _ => nan) Models.initialStream 0 0
       (FlowParticles.mkPosition 0 4 0)).
Proof.
  assert (Hin : FlowParticles.in_pipe 8 (FlowParticles.mkPosition 0 4 0))
    by (split; reflexivity).
  repeat (split; [reflexivity|]). split; [exact Hin|].
  exact (proj1 (move_keeps_in_pipe (fun _ => nan) (fun _ => nan)
                  Models.initialStream 8 0 0 (FlowParticles.mkPosition 0 4 0)
                  eq_refl eq_refl eq_refl eq_refl eq_refl eq_refl Hin)).
Defined.

(** [particles_stay_in_pipe] on the initial state with the Double Pipe model
    selected, after three frames. *)
Lemma particles_stay_in_pipe_witness :
  In (App.length (setModel initialConfig DoublePipe)) length_positions /\
  In (flow (setModel initialConfig DoublePipe)) flow_positions /\
  In Models.initialStream (Models.rendered (setModel initialConfig DoublePipe)) /\
  FlowParticles.isSpiral Models.initialStream = false /\
  Forall (FlowParticles.in_pipe (App.length (setModel initialConfig DoublePipe)))
         (FlowParticles.after (fun _ => nan) (fun _ => nan) Models.initialStream
            [0.016; 0.033; 0.05]) /\
  List.length (FlowParticles.after (fun _ => nan) (fun _ => nan) Models.initialStream
                 [0.016; 0.033; 0.05]) = 12%nat.
Proof.
  assert (HL : In (App.length (setModel initialConfig DoublePipe))
                  length_positions) by on_slider.
  assert (Hf : In (flow (setModel initialConfig DoublePipe)) flow_positions)
    by on_slider.
  assert (Hr : In Models.initialStream
                  (Models.rendered (setModel initialConfig DoublePipe)))
    by (left; reflexivity).
  split; [exact HL|]. split; [exact Hf|]. split; [exact Hr|].
  split; [reflexivity|].
  exact (particles_stay_in_pipe (fun _ => nan) (fun _ => nan)
           (setModel initialConfig DoublePipe) Models.initialStream
           [0.016; 0.033; 0.05] HL Hf Hr eq_refl).
Defined.

(** [foulingLabel_on_slider] at the initial fouling factor, position 5. *)
Lemma foulingLabel_on_slider_witness :
  (5 <= 100)%nat /\
  App.foulingLabel Host.Number_toString
    (setKey initialConfig Kfouling (JS.of_index 5 / 10000))
  = Normal "0.0005"%string.
Proof.
  split; [lia|].
  apply (foulingLabel_on_slider Host.Number_toString initialConfig 5). lia.
Defined.

(** [efficiency_readout_after_clean] on the initial state, where the
    efficiency after cleaning is 100.00000000000003. *)
Lemma efficiency_readout_after_clean_witness :
  In initialMat materials /\ In (flow initialConfig) flow_positions /\
  exists p,
    App.physics Host.Math_log Host.Number_toString
      (cleanSystem initialConfig) initialMat = Normal p /\
    (Efficiency p =? 100) = false /\
    App.efficiencyReadout Host.Number_toString p = Normal "100.0"%string /\
    efficiencyColor p = "#4ade80"%string.
Proof.
  assert (Hm : In initialMat materials) by (left; reflexivity).
  assert (Hf : In (flow initialConfig) flow_positions) by on_slider.
  split; [exact Hm|]. split; [exact Hf|].
  eexists. split; [apply physics_returns|]. split; [reflexivity|].
  apply (efficiency_readout_after_clean Host.Math_log Host.Number_toString
           initialConfig initialMat _ Hm Hf).
  apply physics_returns.
Defined.

(** [temperatureProfile_starts_at_inlet] on the initial state. *)
Lemma temperatureProfile_starts_at_inlet_witness :
  exists p,
    App.physics Host.Math_log Host.Number_toString initialConfig initialMat
    = Normal p /\
    PrimFloat.is_finite (Q p) = true /\
    nth_error (data p) 0
    = Some {| dist := 0; Hot := "90.0"; Cold := "25.0" |}.
Proof.
  eexists. split; [apply physics_returns|]. split; [reflexivity|].
  apply (temperatureProfile_starts_at_inlet Host.Math_log
           Host.Number_toString initialConfig initialMat _
           (physics_returns _ _ _ _)).
  reflexivity.
Defined.

(** [spiral_follows_clock] on the hot stream of the Spiral model, with
    constant stand-ins for the two host functions. *)
Lemma spiral_follows_clock_witness :
  FlowParticles.isSpiral Models.initialSpiral = true /\
  FlowParticles.after (fun _ => 1) (fun _ => 0) Models.initialSpiral
    ([0.016; 0.033] ++ [0.05])
  = map (fun _ : nat =>
           {| FlowParticles.x :=
                1 * FlowParticles.spiralRadius Models.initialSpiral;
              FlowParticles.y := 0;
              FlowParticles.z :=
                0 * FlowParticles.spiralRadius Models.initialSpiral |})
        (seq 0 12).
Proof.
  split; [reflexivity|].
  exact (spiral_follows_clock (fun _ => 1) (fun _ => 0)
           Models.initialSpiral [0.016; 0.033] 0.05 eq_refl).
Defined.

(** ** The profile as a reader of the numerals sees it *)

Section ReadingNumerals.

Local Open Scope string_scope.






End ReadingNumerals.

Section FixedInteger.

Import Binary64.
Local Open Scope Z_scope.




Local Open Scope float_scope.



End FixedInteger.

Section ProfileOrder.

Import Binary64.



End ProfileOrder.

Section ProfileFacts.

Variable Math_log : float -> float.
Variable Number_toString : float -> string.

Local Abbreviation physics := (App.physics Math_log Number_toString).
Local Abbreviation toFixed_string := (JS.toFixed_string Number_toString).


End ProfileFacts.

